(** * BattlePoker: hand evaluation, showdown and the regret-matching advisor

    A shallow embedding of [Javacript/Poker.js] (card draw, [deal],
    [match], [fold], [evaluateHand], [removeActivePlyr], [youWin],
    [youLose]) and of the two regret-matching scripts ([CFR.js] with its
    [CFRPlayer] class, and the stand-alone script with the global
    [regretSum]/[strategySum] objects), followed by the properties of
    these functions.

    Conventions.
    - JavaScript numbers that may be fractional, infinite or NaN are values
      of [JsNum.num]: a finite value is an exact rational (rounding and
      overflow of the double format are not represented), the three special
      values follow the IEEE rules JavaScript uses. The one product whose
      rounding decides an array index, [Math.random() * length] in
      [generate], is rounded as the double format rounds it
      ([Double.to_double]).
    - A thrown [TypeError] is the result [None].
    - DOM writes that only change what is displayed are left out; the
      [dataset.status] attribute of the four player panels, which the code
      reads back, is part of the state. *)

From Stdlib Require Import ZArith QArith Qround Qfield Qpower Qabs Lia Lqa
  Bool.
From stdpp Require Import base option list strings gmap sorting.

(* ===================================================================== *)
(** ** JavaScript numbers *)
(* ===================================================================== *)

Module JsNum.

Inductive num :=
| Fin (q : Q)
| PosInf
| NegInf
| NaN.

(** How a value compares with zero ([Eq] for a finite zero). *)
Definition sign (x : num) : comparison :=
  match x with
  | Fin q => (q ?= 0)%Q
  | PosInf => Gt
  | NegInf => Lt
  | NaN => Eq
  end.

Definition sign_mul (a b : comparison) : comparison :=
  match a, b with
  | Eq, _ | _, Eq => Eq
  | Gt, Gt | Lt, Lt => Gt
  | _, _ => Lt
  end.

(** The infinity of a given sign; a zero sign is the invalid operation. *)
Definition inf_of_sign (c : comparison) : num :=
  match c with Gt => PosInf | Lt => NegInf | Eq => NaN end.

Definition neg (x : num) : num :=
  match x with
  | Fin q => Fin (- q)
  | PosInf => NegInf
  | NegInf => PosInf
  | NaN => NaN
  end.

Definition add (x y : num) : num :=
  match x, y with
  | NaN, _ | _, NaN => NaN
  | Fin a, Fin b => Fin (a + b)
  | PosInf, NegInf | NegInf, PosInf => NaN
  | PosInf, _ | _, PosInf => PosInf
  | NegInf, _ | _, NegInf => NegInf
  end.

Definition sub (x y : num) : num := add x (neg y).

Definition mul (x y : num) : num :=
  match x, y with
  | NaN, _ | _, NaN => NaN
  | Fin a, Fin b => Fin (a * b)
  | _, _ => inf_of_sign (sign_mul (sign x) (sign y))
  end.

(** Division. A finite zero divisor is taken as [+0]: none of the
    divisors of the modelled code can be a negative zero. *)
Definition div (x y : num) : num :=
  match x, y with
  | NaN, _ | _, NaN => NaN
  | Fin a, Fin b =>
      if Qeq_bool b 0 then inf_of_sign (a ?= 0)%Q else Fin (a / b)
  | Fin _, _ => Fin 0
  | _, Fin b =>
      inf_of_sign (sign_mul (sign x) (if Qeq_bool b 0 then Gt else sign y))
  | _, _ => NaN
  end.

(** [x < y]; every comparison with NaN is false. *)
Definition lt (x y : num) : bool :=
  match x, y with
  | NaN, _ | _, NaN => false
  | Fin a, Fin b => match (a ?= b)%Q with Lt => true | _ => false end
  | NegInf, NegInf => false
  | NegInf, _ => true
  | _, PosInf => match x with PosInf => false | _ => true end
  | _, _ => false
  end.

Definition gt (x y : num) : bool := lt y x.

(** [x === y] on numbers. *)
Definition eqb (x y : num) : bool :=
  match x, y with
  | Fin a, Fin b => Qeq_bool a b
  | PosInf, PosInf | NegInf, NegInf => true
  | _, _ => false
  end.

Definition ge (x y : num) : bool := lt y x || eqb x y.

(** [Math.max(x, y)] and [Math.min(x, y)]. *)
Definition max2 (x y : num) : num :=
  match x, y with
  | NaN, _ | _, NaN => NaN
  | _, _ => if lt x y then y else x
  end.

Definition min2 (x y : num) : num :=
  match x, y with
  | NaN, _ | _, NaN => NaN
  | _, _ => if lt y x then y else x
  end.

(** [Math.max(...xs)]: minus infinity on no argument. *)
Definition max_of (xs : list num) : num := foldr max2 NegInf xs.

Definition of_Z (z : Z) : num := Fin (inject_Z z).
Definition of_nat (n : nat) : num := of_Z (Z.of_nat n).

(** Same numeric value: equal rationals, or the same special value. *)
Definition same (x y : num) : Prop :=
  match x, y with
  | Fin a, Fin b => (a == b)%Q
  | PosInf, PosInf | NegInf, NegInf | NaN, NaN => True
  | _, _ => False
  end.

Definition is_NaN (x : num) : bool :=
  match x with NaN => true | _ => false end.

End JsNum.

Import JsNum.

(* ===================================================================== *)
(** ** Rounding to the double format *)
(* ===================================================================== *)

Module Double.

(** The integer nearest to [y]; of two that are equally near, the even
    one. *)
Definition round_half_even (y : Q) : Z :=
  let f := Qfloor y in
  match (y - inject_Z f ?= 1 # 2)%Q with
  | Lt => f
  | Gt => (f + 1)%Z
  | Eq => if Z.even f then f else (f + 1)%Z
  end.

(** The exponent [e] with [2^e <= x < 2^(e+1)], for a positive [x]. *)
Definition binade (x : Q) : Z :=
  let e := (Z.log2 (Qnum x) - Z.log2 (Zpos (Qden x)))%Z in
  if Qle_bool (2 ^ e) x then e else (e - 1)%Z.

(** The double nearest to [x], ties to the even mantissa, which is what
    an arithmetic operation of JavaScript returns for the exact result
    [x]: the doubles around [x] are the multiples of [2^(e-52)], [e] the
    binade of [|x|] and at least -1022 (below that the subnormal doubles
    are the multiples of [2^-1074]). For [|x|] below [2^1024]; the
    overflow to infinity is not represented. *)
Definition to_double (x : Q) : Q :=
  if Qeq_bool x 0 then 0%Q
  else let e := Z.max (binade (Qabs x)) (-1022) in
       let ulp := (2 ^ (e - 52))%Q in
       (inject_Z (round_half_even (x / ulp)) * ulp)%Q.

(** [x] is a value of the double format: rounding leaves it as it
    is. *)
Definition is_double (x : Q) : Prop := (to_double x == x)%Q.

End Double.

(* ===================================================================== *)
(** ** CFR.js: the [CFRPlayer] class and its helper functions *)
(* ===================================================================== *)

Module CFR.

(** A card object as the helpers read it: each of the three properties
    may be missing ([getCurrentState] builds cards with [rank] and [suit]
    only, [calculateHandStrength] also reads [value]). *)
Record Card := {
  value : option string;
  rank : option string;
  suit : option string
}.

(** [currentState]. An array entry that is [undefined] is [None]. *)
Record GameState := {
  playerHand : list (option Card);
  communityCards : list (option Card);
  potSize : num;
  playerBet : num;
  remainingPlayers : num;
  canCheck : bool;
  canCall : bool;
  canRaise : bool;
  canAllIn : bool;
  canFold : bool;
  raiseAmount : num;
  playerStack : num;
  cardsDealt : num
}.

(** Reading a numeric property of an object: a missing property is
    [undefined], which every arithmetic operation and [Math.max] turn
    into NaN and every comparison into false. *)
Definition get (o : gmap string num) (k : string) : num :=
  default NaN (o !! k).

(** [counts[k] = (counts[k] || 0) + 1] *)
Definition tally (k : string) (counts : gmap string nat) : gmap string nat :=
  <[k := S (default 0%nat (counts !! k))]> counts.

(** [Object.values(counts)] as numbers (only used through [Math.max],
    [includes] and a filtered length, so the order is immaterial). *)
Definition values_of (counts : gmap string nat) : list num :=
  (λ kv, of_nat kv.2) <$> map_to_list counts.

(** A property name: reading [o[undefined]] uses the key "undefined". *)
Definition key_of (s : option string) : string := default "undefined" s.

(** A non-empty string is truthy. *)
Definition truthy (s : option string) : bool :=
  match s with
  | Some s => negb (String.eqb s "")
  | None => false
  end.

Definition rankOrder : list string :=
  ["2"; "3"; "4"; "5"; "6"; "7"; "8"; "9"; "10"; "J"; "Q"; "K"; "A"].

(** [arr.indexOf(x)], -1 when absent. *)
Fixpoint indexOf_from (i : Z) (x : string) (arr : list string) : Z :=
  match arr with
  | [] => (-1)%Z
  | y :: arr' => if String.eqb x y then i else indexOf_from (i + 1)%Z x arr'
  end.

Definition indexOf (arr : list string) (x : option string) : Z :=
  match x with
  | Some x => indexOf_from 0%Z x arr
  | None => (-1)%Z
  end.

(** [arr.sort((a, b) => a - b)] on integers. *)
Fixpoint insert_sorted (x : Z) (l : list Z) : list Z :=
  match l with
  | [] => [x]
  | y :: l' => if (x <=? y)%Z then x :: l else y :: insert_sorted x l'
  end.

Definition sort_numeric (l : list Z) : list Z := foldr insert_sorted [] l.

(** The loop [for (i = 0; i <= rankIndices.length - 5; i++)] looking for
    two entries four places apart whose difference is 4. *)
Definition isStraight (rankIndices : list Z) : bool :=
  existsb
    (λ i, match rankIndices !! (i + 4)%nat, rankIndices !! i with
          | Some hi, Some lo => (hi - lo =? 4)%Z
          | _, _ => false
          end)
    (seq 0 (length rankIndices - 4)).

(** [calculateHandStrength(playerHand, communityCards)]. The second
    [forEach] reads [card.suit] of every entry, so an [undefined] entry
    throws. *)
Definition calculateHandStrength
    (playerHand communityCards : list (option Card)) : option num :=
  let allCards := playerHand ++ communityCards in
  let rankCounts :=
    foldl (λ counts card,
             match card with
             | Some c => if truthy (value c)
                         then tally (key_of (value c)) counts else counts
             | None => counts
             end) ∅ allCards in
  let counts := values_of rankCounts in
  let maxCount := max_of counts in
  cards ← mapM id allCards;
  let suitCounts := foldl (λ sc c, tally (key_of (suit c)) sc) ∅ cards in
  let maxSuitCount := max_of (values_of suitCounts) in
  let rankIndices := sort_numeric ((λ c, indexOf rankOrder (rank c)) <$> cards) in
  let straight := isStraight rankIndices in
  let pairs := length (filter (λ c, eqb c (of_Z 2) = true) counts) in
  let strength : Q :=
    if ge maxSuitCount (of_Z 5) && straight then 1%Q
    else if eqb maxCount (of_Z 4) then (9 # 10)%Q
    else if eqb maxCount (of_Z 3) && existsb (λ c, eqb c (of_Z 2)) counts then (8 # 10)%Q
    else if ge maxSuitCount (of_Z 5) then (7 # 10)%Q
    else if straight then (6 # 10)%Q
    else if eqb maxCount (of_Z 3) then (5 # 10)%Q
    else if (2 <=? pairs)%nat then (4 # 10)%Q
    else if eqb maxCount (of_Z 2) then (3 # 10)%Q
    else (2 # 10)%Q in
  let highCardIndex := max_of (of_Z <$> rankIndices) in
  Some (add (Fin strength)
            (mul (div highCardIndex (of_nat (length rankOrder))) (Fin (1 # 10)%Q))).

(** [String.prototype.toLowerCase] on the ASCII letters. *)
Definition lower_ascii (c : Ascii.ascii) : Ascii.ascii :=
  let n := Ascii.nat_of_ascii c in
  if (65 <=? n)%nat && (n <=? 90)%nat then Ascii.ascii_of_nat (n + 32) else c.

Fixpoint toLowerCase (s : string) : string :=
  match s with
  | EmptyString => EmptyString
  | String c s' => String (lower_ascii c) (toLowerCase s')
  end.

(** [calculateOuts(playerHand, communityCards)]: [card.suit.toLowerCase()]
    throws on an [undefined] entry and on a card without [suit]. *)
Definition calculateOuts
    (playerHand communityCards : list (option Card)) : option num :=
  let allCards := playerHand ++ communityCards in
  suits ← mapM (λ card, c ← card; s ← suit c; Some (toLowerCase s)) allCards;
  let suitCounts := foldl (λ sc s, tally s sc) ∅ suits in
  let maxSuitCount :=
    foldl (λ m kv, if (m <? kv.2)%nat then kv.2 else m) 0%nat
          (map_to_list suitCounts) in
  Some (if (maxSuitCount =? 4)%nat then of_Z 9
        else if (maxSuitCount =? 3)%nat then of_Z 10
        else of_Z 0).

(** [getImprovementFactor(currentState)] *)
Definition getImprovementFactor (currentState : GameState) : option num :=
  outs ← calculateOuts (playerHand currentState) (communityCards currentState);
  let remainingCards := sub (of_Z 52) (cardsDealt currentState) in
  Some (min2 (mul (div outs remainingCards) (of_Z 2)) (of_Z 1)).

(** The object a [CFRPlayer] instance is. *)
Record CFRPlayer := {
  actions : list string;
  regretSum : gmap string num;
  strategySum : gmap string num;
  numActions : nat
}.

(** [new CFRPlayer()] *)
Definition constructor : CFRPlayer :=
  let actions := ["check"; "call"; "raise"; "allin"; "fold"] in
  {| actions := actions;
     regretSum := foldl (λ o a, <[a := of_Z 0]> o) ∅ actions;
     strategySum := foldl (λ o a, <[a := of_Z 0]> o) ∅ actions;
     numActions := length actions |}.

(** [getStrategy()]: returns the strategy and accumulates it into
    [strategySum]. *)
Definition getStrategy (this : CFRPlayer) : gmap string num * CFRPlayer :=
  let '(strategy, normalizingSum) :=
    foldl (λ '(strategy, normalizingSum) action,
             let w := max2 (get (regretSum this) action) (of_Z 0) in
             (<[action := w]> strategy, add normalizingSum w))
          (∅, of_Z 0) (actions this) in
  let '(strategy, strategySum') :=
    foldl (λ '(strategy, ssum) action,
             let p := if gt normalizingSum (of_Z 0)
                      then div (get strategy action) normalizingSum
                      else div (Fin 1%Q) (of_nat (numActions this)) in
             (<[action := p]> strategy,
              <[action := add (get ssum action) p]> ssum))
          (strategy, strategySum this) (actions this) in
  (strategy,
   {| actions := actions this; regretSum := regretSum this;
      strategySum := strategySum'; numActions := numActions this |}).

(** The loop of [selectAction] from index [i] on, with the probability
    mass accumulated so far. *)
Fixpoint selectAction_loop (strategy : gmap string num) (r : num)
    (cumulativeProbability : num) (rest : list string) : option string :=
  match rest with
  | [] => None
  | action :: rest' =>
      let cumulativeProbability := add cumulativeProbability (get strategy action) in
      if lt r cumulativeProbability then Some action
      else selectAction_loop strategy r cumulativeProbability rest'
  end.

(** [selectAction(strategy)], with the value [r] of [Math.random()].
    [None] is [undefined], the entry before the first of an empty action
    list. *)
Definition selectAction (this : CFRPlayer) (strategy : gmap string num)
    (r : num) : option string :=
  match selectAction_loop strategy r (Fin 0%Q) (actions this) with
  | Some action => Some action
  | None => last (actions this)
  end.

(** [updateRegrets(actionTaken, reward, counterfactualRewards)] *)
Definition updateRegrets (this : CFRPlayer) (actionTaken : string)
    (reward : num) (counterfactualRewards : gmap string num) : CFRPlayer :=
  {| actions := actions this;
     regretSum :=
       foldl (λ rs action,
                let regret := sub (get counterfactualRewards action) reward in
                <[action := add (get rs action) regret]> rs)
             (regretSum this) (actions this);
     strategySum := strategySum this;
     numActions := numActions this |}.

(** [isValidAction(currentState, action)] *)
Definition isValidAction (currentState : GameState) (action : string) : bool :=
  if String.eqb action "check" then canCheck currentState
  else if String.eqb action "call" then canCall currentState
  else if String.eqb action "raise" then canRaise currentState
  else if String.eqb action "allin" then canAllIn currentState
  else if String.eqb action "fold" then canFold currentState
  else false.

(** The [switch] of [calculateReward]. *)
Definition action_reward (currentState : GameState) (handStrength : num)
    (action : string) : num :=
  let potSize := potSize currentState in
  let playerBet := playerBet currentState in
  if String.eqb action "check" then
    if canCheck currentState then mul handStrength (Fin (1 # 2)%Q) else NegInf
  else if String.eqb action "call" then
    if canCall currentState then sub (mul handStrength potSize) playerBet
    else NegInf
  else if String.eqb action "raise" then
    if canRaise currentState
    then sub (mul handStrength (add potSize (raiseAmount currentState))) playerBet
    else NegInf
  else if String.eqb action "allin" then
    if canAllIn currentState
    then sub (mul handStrength (add potSize (playerStack currentState))) playerBet
    else NegInf
  else if String.eqb action "fold" then
    if canFold currentState then neg playerBet else NegInf
  else NegInf.

(** The adjustment for the number of remaining players. *)
Definition players_adjust (remainingPlayers estimatedReward : num) : num :=
  if gt remainingPlayers (of_Z 1) && gt estimatedReward NegInf
  then mul estimatedReward (div (of_Z 2) remainingPlayers)
  else estimatedReward.

(** [calculateReward(currentState, action)] *)
Definition calculateReward (currentState : GameState) (action : string)
    : option num :=
  handStrength ← calculateHandStrength (playerHand currentState)
                                       (communityCards currentState);
  let estimatedReward := action_reward currentState handStrength action in
  let estimatedReward :=
    players_adjust (remainingPlayers currentState) estimatedReward in
  improvementFactor ← getImprovementFactor currentState;
  Some (mul estimatedReward improvementFactor).

(** [calculateCounterfactualRewards(currentState)] *)
Definition calculateCounterfactualRewards (this : CFRPlayer)
    (currentState : GameState) : option (gmap string num) :=
  foldl (λ acc action,
           rewards ← acc;
           if isValidAction currentState action
           then r ← calculateReward currentState action;
                Some (<[action := r]> rewards)
           else Some (<[action := NegInf]> rewards))
        (Some ∅) (actions this).

(** [getAverageStrategy()] *)
Definition getAverageStrategy (this : CFRPlayer) : gmap string num :=
  let normalizingSum :=
    foldl (λ normalizingSum action,
             add normalizingSum (get (strategySum this) action))
          (of_Z 0) (actions this) in
  foldl (λ averageStrategy action,
           <[action := if gt normalizingSum (of_Z 0)
                       then div (get (strategySum this) action) normalizingSum
                       else div (Fin 1%Q) (of_nat (numActions this))]>
             averageStrategy)
        ∅ (actions this).

(** [arr.reduce((a, b) => mass[a] > mass[b] ? a : b)]: it throws on an
    empty array. *)
Definition reduce_max (mass : string → num) (arr : list string)
    : option string :=
  match arr with
  | [] => None
  | a :: rest => Some (foldl (λ a b, if gt (mass a) (mass b) then a else b) a rest)
  end.

(** [recommendAction()]: the object [{recommendedAction, averageStrategy}]. *)
Definition recommendAction (this : CFRPlayer)
    : option (string * gmap string num) :=
  let averageStrategy := getAverageStrategy this in
  recommendedAction ← reduce_max (get averageStrategy) (actions this);
  Some (recommendedAction, averageStrategy).

(** One round of the loop of [train]; [r] is the value [Math.random()]
    returns in [selectAction]. An action that is [undefined] reads the
    property "undefined". *)
Definition train_round (currentState : GameState) (this : CFRPlayer)
    (r : num) : option CFRPlayer :=
  let '(strategy, this) := getStrategy this in
  let action := key_of (selectAction this strategy r) in
  counterfactualRewards ← calculateCounterfactualRewards this currentState;
  let reward := get counterfactualRewards action in
  Some (updateRegrets this action reward counterfactualRewards).

(** [train(iterations, currentState)]; [random i] is the value of
    [Math.random()] in round [i]. *)
Definition train (this : CFRPlayer) (iterations : nat)
    (currentState : GameState) (random : nat → num) : option CFRPlayer :=
  foldl (λ acc i, this ← acc; train_round currentState this (random i))
        (Some this) (seq 0 iterations).

(** [getCurrentState()], the sample state of the script. *)
Definition getCurrentState : GameState :=
  let card r s := Some {| value := None; rank := Some r; suit := Some s |} in
  {| playerHand := [card "A" "spades"; card "K" "spades"];
     communityCards := [card "Q" "spades"; card "J" "spades"; card "2" "hearts"];
     potSize := of_Z 100;
     playerBet := of_Z 10;
     remainingPlayers := of_Z 3;
     canCheck := true;
     canCall := false;
     canRaise := true;
     canAllIn := true;
     canFold := true;
     raiseAmount := of_Z 20;
     playerStack := of_Z 1000;
     cardsDealt := of_Z 5 |}.

End CFR.

(* ===================================================================== *)
(** ** The stand-alone regret script (global [regretSum], [strategySum]) *)
(* ===================================================================== *)

Module CFRScript.

(** A plain object with string keys: its properties in enumeration order
    (insertion order; none of the keys used is an integer index), each
    key once. *)
Definition object := list (string * num).

Fixpoint obj_get (o : object) (k : string) : num :=
  match o with
  | [] => NaN
  | (k', v) :: o' => if String.eqb k k' then v else obj_get o' k
  end.

(** [o[k] = v]: overwrite in place, or add as the last property. *)
Fixpoint obj_set (k : string) (v : num) (o : object) : object :=
  match o with
  | [] => [(k, v)]
  | (k', v') :: o' =>
      if String.eqb k k' then (k', v) :: o' else (k', v') :: obj_set k v o'
  end.

Definition keys (o : object) : list string := o.*1.

(** The two global objects. *)
Record globals := {
  regretSum : object;
  strategySum : object
}.

Definition initial : globals :=
  let zero := [("check", of_Z 0); ("match", of_Z 0);
               ("raise", of_Z 0); ("allin", of_Z 0)] in
  {| regretSum := zero; strategySum := zero |}.

(** [getStrategy()] *)
Definition getStrategy (g : globals) : object * globals :=
  let '(strategy, normalizingSum) :=
    foldl (λ '(strategy, normalizingSum) action,
             let w := max2 (obj_get (regretSum g) action) (of_Z 0) in
             (obj_set action w strategy, add normalizingSum w))
          ([], of_Z 0) (keys (regretSum g)) in
  let '(strategy, strategySum') :=
    foldl (λ '(strategy, ssum) action,
             let p := if gt normalizingSum (of_Z 0)
                      then div (obj_get strategy action) normalizingSum
                      else div (Fin 1) (of_nat (length (keys strategy))) in
             (obj_set action p strategy,
              obj_set action (add (obj_get ssum action) p) ssum))
          (strategy, strategySum g) (keys strategy) in
  (strategy, {| regretSum := regretSum g; strategySum := strategySum' |}).

(** [updateRegrets(action, reward, counterfactualRewards)] *)
Definition updateRegrets (g : globals) (action : string) (reward : num)
    (counterfactualRewards : object) : globals :=
  {| regretSum :=
       foldl (λ rs a,
                let regret := sub (obj_get counterfactualRewards a) reward in
                obj_set a (add (obj_get rs a) regret) rs)
             (regretSum g) (keys (regretSum g));
     strategySum := strategySum g |}.

(** The [for (let action in strategy)] loop of [selectAction]. *)
Fixpoint selectAction_loop (strategy : object) (randomValue : num)
    (cumulativeProbability : num) (rest : list string) : option string :=
  match rest with
  | [] => None
  | action :: rest' =>
      let cumulativeProbability :=
        add cumulativeProbability (obj_get strategy action) in
      if lt randomValue cumulativeProbability then Some action
      else selectAction_loop strategy randomValue cumulativeProbability rest'
  end.

(** [selectAction(strategy)], with the value of [Math.random()]. *)
Definition selectAction (strategy : object) (randomValue : num) : string :=
  default "check"
    (selectAction_loop strategy randomValue (Fin 0) (keys strategy)).

(** [recommendAction()]: the action it displays; [getStrategy] has
    accumulated the strategy into [strategySum]. *)
Definition recommendAction (g : globals) : option (string * globals) :=
  let '(strategy, g) := getStrategy g in
  recommendedAction ← CFR.reduce_max (obj_get strategy) (keys strategy);
  Some (recommendedAction, g).

End CFRScript.

(* ===================================================================== *)
(** ** Poker.js *)
(* ===================================================================== *)

Module Poker.

Local Open Scope Z_scope.

(** The card values and suits, in the order of [cardHeirarchy] and
    [suitArr]. *)
Inductive value_name :=
| two | three | four | five | six | seven | eight | nine | ten
| jack | queen | king | ace.

Inductive suit_name := diamonds | hearts | clubs | spades.

#[global] Instance value_name_eq_dec : EqDecision value_name.
Proof. solve_decision. Defined.

#[global] Instance suit_name_eq_dec : EqDecision suit_name.
Proof. solve_decision. Defined.

(** A card object [{suit, value}]; its title is [value-suit]. *)
Record card := { suit : suit_name; value : value_name }.

#[global] Instance card_eq_dec : EqDecision card.
Proof. solve_decision. Defined.

Definition cardHeirarchy : list value_name :=
  [two; three; four; five; six; seven; eight; nine; ten;
   jack; queen; king; ace].

Definition suitArr : list suit_name := [diamonds; hearts; clubs; spades].

(** What an array of cards can hold at an index: a card object, a number
    (the evaluator stores numbers into [communityCards]), or nothing. *)
Inductive entry :=
| Obj (c : card)
| Number (n : Z)
| Undefined.

(** [e.value] and [e.suit]; a number has neither property. *)
Definition value_of (e : entry) : option value_name :=
  match e with Obj c => Some (value c) | _ => None end.

Definition suit_of (e : entry) : option suit_name :=
  match e with Obj c => Some (suit c) | _ => None end.

(** A number, minus infinity ([Math.max] of nothing) or [null]. *)
Inductive jsval :=
| Null
| NegInfinity
| N (z : Z).

#[global] Instance jsval_eq_dec : EqDecision jsval.
Proof. solve_decision. Defined.

(** [arr.indexOf(x)] and [arr.lastIndexOf(x)], -1 when absent. *)
Fixpoint indexOf_from {A} `{EqDecision A} (i : Z) (x : A) (arr : list A) : Z :=
  match arr with
  | [] => -1
  | y :: arr' => if decide (x = y) then i else indexOf_from (i + 1) x arr'
  end.

Definition indexOf {A} `{EqDecision A} (arr : list A) (x : A) : Z :=
  indexOf_from 0 x arr.

Fixpoint lastIndexOf_from {A} `{EqDecision A} (i : Z) (x : A) (arr : list A) : Z :=
  match arr with
  | [] => -1
  | y :: arr' =>
      let later := lastIndexOf_from (i + 1) x arr' in
      if decide (later = -1) then (if decide (x = y) then i else -1) else later
  end.

Definition lastIndexOf {A} `{EqDecision A} (arr : list A) (x : A) : Z :=
  lastIndexOf_from 0 x arr.

(** [arr.indexOf(x)] where [x] was produced by [Math.max]. *)
Definition indexOf_val (arr : list Z) (x : jsval) : Z :=
  match x with N z => indexOf arr z | _ => -1 end.

(** [getOccurrence(list, value)] *)
Definition getOccurrence (list : list Z) (value : jsval) : Z :=
  Z.of_nat (length (filter (λ v, N v = value) list)).

(** [Math.max(...arr)] *)
Definition Math_max (arr : list Z) : jsval :=
  match arr with
  | [] => NegInfinity
  | x :: arr' => N (foldl Z.max x arr')
  end.

(** [arr.sort((a, b) => a - b)] *)
Fixpoint insert_sorted (x : Z) (l : list Z) : list Z :=
  match l with
  | [] => [x]
  | y :: l' => if x <=? y then x :: l else y :: insert_sorted x l'
  end.

Definition sort_numeric (l : list Z) : list Z := foldr insert_sorted [] l.

(** [arr[i] = x] on an array that may have to grow: JavaScript extends
    the array, leaving empty places that read as [undefined]. *)
Definition array_set (i : nat) (x : entry) (arr : list entry) : list entry :=
  if (i <? length arr)%nat then <[i := x]> arr
  else arr ++ replicate (i - length arr) Undefined ++ [x].

(** [arr[i]] *)
Definition array_get (arr : list entry) (i : nat) : entry :=
  default Undefined (arr !! i).

(** [dataset.status] of a player panel. *)
Inductive dataset_status := ready | betting | checking | folded | finished.

#[global] Instance dataset_status_eq_dec : EqDecision dataset_status.
Proof. solve_decision. Defined.

(** [dataset.lastMove] of a player panel ([no_move] while unset). *)
Inductive move := no_move | bet_move | check_move | fold_move.

#[global] Instance move_eq_dec : EqDecision move.
Proof. solve_decision. Defined.

(** What [youWin] and [youLose] write into the message element. *)
Inductive notice :=
| SplitPot (won : Q)      (* "Split pot. You Won $" + thePot *)
| YouWon (won : Q)        (* "You Won $" + thePot *)
| YouLost (winner : nat). (* the panel of [topHand] is marked as winner *)

(** The global variables of the script. [resultList], [compareCards],
    [playerHighCards] and [playerStraightHighCard] always hold four
    numbers ([deal] resets them to four-element literals and they are
    only written at a player index), [bestHoleCards] holds one two-element
    array [[low, high]] per player, [status] and [lastMove] are the
    [dataset] attributes of the panels of players 0 to 3, [matchButton] is
    the amount shown on the "match" button. *)
Record game := {
  playersHands : list (card * card);
  communityCards : list entry;
  usedCardsArr : list card;
  resultList : list Z;
  compareCards : list Z;
  activePlayers : list nat;
  playerHighCards : list Z;
  playerStraightHighCard : list Z;
  plyr1Pair : list Z;
  plyr2Pair : list Z;
  plyr3Pair : list Z;
  plyr4Pair : list Z;
  bestHoleCards : list (Z * Z);
  topHand : jsval;
  thePot : Q;
  playerMoney : Q;
  status : list dataset_status;
  lastMove : list move;
  matchButton : Q;
  gameIncrement : Z;
  maxBetHit : bool;
  dblBets : bool;
  notices : list notice
}.

(** Assignment to one global: [set_x v g] is [g] after [x = v]. *)
Definition set_playersHands (v : list (card * card)) (g : game) : game :=
  {| playersHands := v; communityCards := communityCards g;
     usedCardsArr := usedCardsArr g; resultList := resultList g;
     compareCards := compareCards g; activePlayers := activePlayers g;
     playerHighCards := playerHighCards g;
     playerStraightHighCard := playerStraightHighCard g;
     plyr1Pair := plyr1Pair g; plyr2Pair := plyr2Pair g;
     plyr3Pair := plyr3Pair g; plyr4Pair := plyr4Pair g;
     bestHoleCards := bestHoleCards g; topHand := topHand g;
     thePot := thePot g; playerMoney := playerMoney g; status := status g;
     lastMove := lastMove g; matchButton := matchButton g;
     gameIncrement := gameIncrement g; maxBetHit := maxBetHit g;
     dblBets := dblBets g; notices := notices g |}.

Definition set_communityCards (v : list entry) (g : game) : game :=
  {| playersHands := playersHands g; communityCards := v;
     usedCardsArr := usedCardsArr g; resultList := resultList g;
     compareCards := compareCards g; activePlayers := activePlayers g;
     playerHighCards := playerHighCards g;
     playerStraightHighCard := playerStraightHighCard g;
     plyr1Pair := plyr1Pair g; plyr2Pair := plyr2Pair g;
     plyr3Pair := plyr3Pair g; plyr4Pair := plyr4Pair g;
     bestHoleCards := bestHoleCards g; topHand := topHand g;
     thePot := thePot g; playerMoney := playerMoney g; status := status g;
     lastMove := lastMove g; matchButton := matchButton g;
     gameIncrement := gameIncrement g; maxBetHit := maxBetHit g;
     dblBets := dblBets g; notices := notices g |}.

Definition set_usedCardsArr (v : list card) (g : game) : game :=
  {| playersHands := playersHands g; communityCards := communityCards g;
     usedCardsArr := v; resultList := resultList g;
     compareCards := compareCards g; activePlayers := activePlayers g;
     playerHighCards := playerHighCards g;
     playerStraightHighCard := playerStraightHighCard g;
     plyr1Pair := plyr1Pair g; plyr2Pair := plyr2Pair g;
     plyr3Pair := plyr3Pair g; plyr4Pair := plyr4Pair g;
     bestHoleCards := bestHoleCards g; topHand := topHand g;
     thePot := thePot g; playerMoney := playerMoney g; status := status g;
     lastMove := lastMove g; matchButton := matchButton g;
     gameIncrement := gameIncrement g; maxBetHit := maxBetHit g;
     dblBets := dblBets g; notices := notices g |}.

Definition set_resultList (v : list Z) (g : game) : game :=
  {| playersHands := playersHands g; communityCards := communityCards g;
     usedCardsArr := usedCardsArr g; resultList := v;
     compareCards := compareCards g; activePlayers := activePlayers g;
     playerHighCards := playerHighCards g;
     playerStraightHighCard := playerStraightHighCard g;
     plyr1Pair := plyr1Pair g; plyr2Pair := plyr2Pair g;
     plyr3Pair := plyr3Pair g; plyr4Pair := plyr4Pair g;
     bestHoleCards := bestHoleCards g; topHand := topHand g;
     thePot := thePot g; playerMoney := playerMoney g; status := status g;
     lastMove := lastMove g; matchButton := matchButton g;
     gameIncrement := gameIncrement g; maxBetHit := maxBetHit g;
     dblBets := dblBets g; notices := notices g |}.

Definition set_compareCards (v : list Z) (g : game) : game :=
  {| playersHands := playersHands g; communityCards := communityCards g;
     usedCardsArr := usedCardsArr g; resultList := resultList g;
     compareCards := v; activePlayers := activePlayers g;
     playerHighCards := playerHighCards g;
     playerStraightHighCard := playerStraightHighCard g;
     plyr1Pair := plyr1Pair g; plyr2Pair := plyr2Pair g;
     plyr3Pair := plyr3Pair g; plyr4Pair := plyr4Pair g;
     bestHoleCards := bestHoleCards g; topHand := topHand g;
     thePot := thePot g; playerMoney := playerMoney g; status := status g;
     lastMove := lastMove g; matchButton := matchButton g;
     gameIncrement := gameIncrement g; maxBetHit := maxBetHit g;
     dblBets := dblBets g; notices := notices g |}.

Definition set_activePlayers (v : list nat) (g : game) : game :=
  {| playersHands := playersHands g; communityCards := communityCards g;
     usedCardsArr := usedCardsArr g; resultList := resultList g;
     compareCards := compareCards g; activePlayers := v;
     playerHighCards := playerHighCards g;
     playerStraightHighCard := playerStraightHighCard g;
     plyr1Pair := plyr1Pair g; plyr2Pair := plyr2Pair g;
     plyr3Pair := plyr3Pair g; plyr4Pair := plyr4Pair g;
     bestHoleCards := bestHoleCards g; topHand := topHand g;
     thePot := thePot g; playerMoney := playerMoney g; status := status g;
     lastMove := lastMove g; matchButton := matchButton g;
     gameIncrement := gameIncrement g; maxBetHit := maxBetHit g;
     dblBets := dblBets g; notices := notices g |}.

Definition set_playerHighCards (v : list Z) (g : game) : game :=
  {| playersHands := playersHands g; communityCards := communityCards g;
     usedCardsArr := usedCardsArr g; resultList := resultList g;
     compareCards := compareCards g; activePlayers := activePlayers g;
     playerHighCards := v;
     playerStraightHighCard := playerStraightHighCard g;
     plyr1Pair := plyr1Pair g; plyr2Pair := plyr2Pair g;
     plyr3Pair := plyr3Pair g; plyr4Pair := plyr4Pair g;
     bestHoleCards := bestHoleCards g; topHand := topHand g;
     thePot := thePot g; playerMoney := playerMoney g; status := status g;
     lastMove := lastMove g; matchButton := matchButton g;
     gameIncrement := gameIncrement g; maxBetHit := maxBetHit g;
     dblBets := dblBets g; notices := notices g |}.

Definition set_playerStraightHighCard (v : list Z) (g : game) : game :=
  {| playersHands := playersHands g; communityCards := communityCards g;
     usedCardsArr := usedCardsArr g; resultList := resultList g;
     compareCards := compareCards g; activePlayers := activePlayers g;
     playerHighCards := playerHighCards g; playerStraightHighCard := v;
     plyr1Pair := plyr1Pair g; plyr2Pair := plyr2Pair g;
     plyr3Pair := plyr3Pair g; plyr4Pair := plyr4Pair g;
     bestHoleCards := bestHoleCards g; topHand := topHand g;
     thePot := thePot g; playerMoney := playerMoney g; status := status g;
     lastMove := lastMove g; matchButton := matchButton g;
     gameIncrement := gameIncrement g; maxBetHit := maxBetHit g;
     dblBets := dblBets g; notices := notices g |}.

Definition set_plyr1Pair (v : list Z) (g : game) : game :=
  {| playersHands := playersHands g; communityCards := communityCards g;
     usedCardsArr := usedCardsArr g; resultList := resultList g;
     compareCards := compareCards g; activePlayers := activePlayers g;
     playerHighCards := playerHighCards g;
     playerStraightHighCard := playerStraightHighCard g; plyr1Pair := v;
     plyr2Pair := plyr2Pair g; plyr3Pair := plyr3Pair g;
     plyr4Pair := plyr4Pair g; bestHoleCards := bestHoleCards g;
     topHand := topHand g; thePot := thePot g; playerMoney := playerMoney g;
     status := status g; lastMove := lastMove g;
     matchButton := matchButton g; gameIncrement := gameIncrement g;
     maxBetHit := maxBetHit g; dblBets := dblBets g; notices := notices g |}.

Definition set_plyr2Pair (v : list Z) (g : game) : game :=
  {| playersHands := playersHands g; communityCards := communityCards g;
     usedCardsArr := usedCardsArr g; resultList := resultList g;
     compareCards := compareCards g; activePlayers := activePlayers g;
     playerHighCards := playerHighCards g;
     playerStraightHighCard := playerStraightHighCard g;
     plyr1Pair := plyr1Pair g; plyr2Pair := v; plyr3Pair := plyr3Pair g;
     plyr4Pair := plyr4Pair g; bestHoleCards := bestHoleCards g;
     topHand := topHand g; thePot := thePot g; playerMoney := playerMoney g;
     status := status g; lastMove := lastMove g;
     matchButton := matchButton g; gameIncrement := gameIncrement g;
     maxBetHit := maxBetHit g; dblBets := dblBets g; notices := notices g |}.

Definition set_plyr3Pair (v : list Z) (g : game) : game :=
  {| playersHands := playersHands g; communityCards := communityCards g;
     usedCardsArr := usedCardsArr g; resultList := resultList g;
     compareCards := compareCards g; activePlayers := activePlayers g;
     playerHighCards := playerHighCards g;
     playerStraightHighCard := playerStraightHighCard g;
     plyr1Pair := plyr1Pair g; plyr2Pair := plyr2Pair g; plyr3Pair := v;
     plyr4Pair := plyr4Pair g; bestHoleCards := bestHoleCards g;
     topHand := topHand g; thePot := thePot g; playerMoney := playerMoney g;
     status := status g; lastMove := lastMove g;
     matchButton := matchButton g; gameIncrement := gameIncrement g;
     maxBetHit := maxBetHit g; dblBets := dblBets g; notices := notices g |}.

Definition set_plyr4Pair (v : list Z) (g : game) : game :=
  {| playersHands := playersHands g; communityCards := communityCards g;
     usedCardsArr := usedCardsArr g; resultList := resultList g;
     compareCards := compareCards g; activePlayers := activePlayers g;
     playerHighCards := playerHighCards g;
     playerStraightHighCard := playerStraightHighCard g;
     plyr1Pair := plyr1Pair g; plyr2Pair := plyr2Pair g;
     plyr3Pair := plyr3Pair g; plyr4Pair := v;
     bestHoleCards := bestHoleCards g; topHand := topHand g;
     thePot := thePot g; playerMoney := playerMoney g; status := status g;
     lastMove := lastMove g; matchButton := matchButton g;
     gameIncrement := gameIncrement g; maxBetHit := maxBetHit g;
     dblBets := dblBets g; notices := notices g |}.

Definition set_bestHoleCards (v : list (Z * Z)) (g : game) : game :=
  {| playersHands := playersHands g; communityCards := communityCards g;
     usedCardsArr := usedCardsArr g; resultList := resultList g;
     compareCards := compareCards g; activePlayers := activePlayers g;
     playerHighCards := playerHighCards g;
     playerStraightHighCard := playerStraightHighCard g;
     plyr1Pair := plyr1Pair g; plyr2Pair := plyr2Pair g;
     plyr3Pair := plyr3Pair g; plyr4Pair := plyr4Pair g; bestHoleCards := v;
     topHand := topHand g; thePot := thePot g; playerMoney := playerMoney g;
     status := status g; lastMove := lastMove g;
     matchButton := matchButton g; gameIncrement := gameIncrement g;
     maxBetHit := maxBetHit g; dblBets := dblBets g; notices := notices g |}.

Definition set_topHand (v : jsval) (g : game) : game :=
  {| playersHands := playersHands g; communityCards := communityCards g;
     usedCardsArr := usedCardsArr g; resultList := resultList g;
     compareCards := compareCards g; activePlayers := activePlayers g;
     playerHighCards := playerHighCards g;
     playerStraightHighCard := playerStraightHighCard g;
     plyr1Pair := plyr1Pair g; plyr2Pair := plyr2Pair g;
     plyr3Pair := plyr3Pair g; plyr4Pair := plyr4Pair g;
     bestHoleCards := bestHoleCards g; topHand := v; thePot := thePot g;
     playerMoney := playerMoney g; status := status g;
     lastMove := lastMove g; matchButton := matchButton g;
     gameIncrement := gameIncrement g; maxBetHit := maxBetHit g;
     dblBets := dblBets g; notices := notices g |}.

Definition set_thePot (v : Q) (g : game) : game :=
  {| playersHands := playersHands g; communityCards := communityCards g;
     usedCardsArr := usedCardsArr g; resultList := resultList g;
     compareCards := compareCards g; activePlayers := activePlayers g;
     playerHighCards := playerHighCards g;
     playerStraightHighCard := playerStraightHighCard g;
     plyr1Pair := plyr1Pair g; plyr2Pair := plyr2Pair g;
     plyr3Pair := plyr3Pair g; plyr4Pair := plyr4Pair g;
     bestHoleCards := bestHoleCards g; topHand := topHand g; thePot := v;
     playerMoney := playerMoney g; status := status g;
     lastMove := lastMove g; matchButton := matchButton g;
     gameIncrement := gameIncrement g; maxBetHit := maxBetHit g;
     dblBets := dblBets g; notices := notices g |}.

Definition set_playerMoney (v : Q) (g : game) : game :=
  {| playersHands := playersHands g; communityCards := communityCards g;
     usedCardsArr := usedCardsArr g; resultList := resultList g;
     compareCards := compareCards g; activePlayers := activePlayers g;
     playerHighCards := playerHighCards g;
     playerStraightHighCard := playerStraightHighCard g;
     plyr1Pair := plyr1Pair g; plyr2Pair := plyr2Pair g;
     plyr3Pair := plyr3Pair g; plyr4Pair := plyr4Pair g;
     bestHoleCards := bestHoleCards g; topHand := topHand g;
     thePot := thePot g; playerMoney := v; status := status g;
     lastMove := lastMove g; matchButton := matchButton g;
     gameIncrement := gameIncrement g; maxBetHit := maxBetHit g;
     dblBets := dblBets g; notices := notices g |}.

Definition set_status (v : list dataset_status) (g : game) : game :=
  {| playersHands := playersHands g; communityCards := communityCards g;
     usedCardsArr := usedCardsArr g; resultList := resultList g;
     compareCards := compareCards g; activePlayers := activePlayers g;
     playerHighCards := playerHighCards g;
     playerStraightHighCard := playerStraightHighCard g;
     plyr1Pair := plyr1Pair g; plyr2Pair := plyr2Pair g;
     plyr3Pair := plyr3Pair g; plyr4Pair := plyr4Pair g;
     bestHoleCards := bestHoleCards g; topHand := topHand g;
     thePot := thePot g; playerMoney := playerMoney g; status := v;
     lastMove := lastMove g; matchButton := matchButton g;
     gameIncrement := gameIncrement g; maxBetHit := maxBetHit g;
     dblBets := dblBets g; notices := notices g |}.

Definition set_lastMove (v : list move) (g : game) : game :=
  {| playersHands := playersHands g; communityCards := communityCards g;
     usedCardsArr := usedCardsArr g; resultList := resultList g;
     compareCards := compareCards g; activePlayers := activePlayers g;
     playerHighCards := playerHighCards g;
     playerStraightHighCard := playerStraightHighCard g;
     plyr1Pair := plyr1Pair g; plyr2Pair := plyr2Pair g;
     plyr3Pair := plyr3Pair g; plyr4Pair := plyr4Pair g;
     bestHoleCards := bestHoleCards g; topHand := topHand g;
     thePot := thePot g; playerMoney := playerMoney g; status := status g;
     lastMove := v; matchButton := matchButton g;
     gameIncrement := gameIncrement g; maxBetHit := maxBetHit g;
     dblBets := dblBets g; notices := notices g |}.

Definition set_matchButton (v : Q) (g : game) : game :=
  {| playersHands := playersHands g; communityCards := communityCards g;
     usedCardsArr := usedCardsArr g; resultList := resultList g;
     compareCards := compareCards g; activePlayers := activePlayers g;
     playerHighCards := playerHighCards g;
     playerStraightHighCard := playerStraightHighCard g;
     plyr1Pair := plyr1Pair g; plyr2Pair := plyr2Pair g;
     plyr3Pair := plyr3Pair g; plyr4Pair := plyr4Pair g;
     bestHoleCards := bestHoleCards g; topHand := topHand g;
     thePot := thePot g; playerMoney := playerMoney g; status := status g;
     lastMove := lastMove g; matchButton := v;
     gameIncrement := gameIncrement g; maxBetHit := maxBetHit g;
     dblBets := dblBets g; notices := notices g |}.

Definition set_gameIncrement (v : Z) (g : game) : game :=
  {| playersHands := playersHands g; communityCards := communityCards g;
     usedCardsArr := usedCardsArr g; resultList := resultList g;
     compareCards := compareCards g; activePlayers := activePlayers g;
     playerHighCards := playerHighCards g;
     playerStraightHighCard := playerStraightHighCard g;
     plyr1Pair := plyr1Pair g; plyr2Pair := plyr2Pair g;
     plyr3Pair := plyr3Pair g; plyr4Pair := plyr4Pair g;
     bestHoleCards := bestHoleCards g; topHand := topHand g;
     thePot := thePot g; playerMoney := playerMoney g; status := status g;
     lastMove := lastMove g; matchButton := matchButton g;
     gameIncrement := v; maxBetHit := maxBetHit g; dblBets := dblBets g;
     notices := notices g |}.

Definition set_dblBets (v : bool) (g : game) : game :=
  {| playersHands := playersHands g; communityCards := communityCards g;
     usedCardsArr := usedCardsArr g; resultList := resultList g;
     compareCards := compareCards g; activePlayers := activePlayers g;
     playerHighCards := playerHighCards g;
     playerStraightHighCard := playerStraightHighCard g;
     plyr1Pair := plyr1Pair g; plyr2Pair := plyr2Pair g;
     plyr3Pair := plyr3Pair g; plyr4Pair := plyr4Pair g;
     bestHoleCards := bestHoleCards g; topHand := topHand g;
     thePot := thePot g; playerMoney := playerMoney g; status := status g;
     lastMove := lastMove g; matchButton := matchButton g;
     gameIncrement := gameIncrement g; maxBetHit := maxBetHit g;
     dblBets := v; notices := notices g |}.

Definition set_notices (v : list notice) (g : game) : game :=
  {| playersHands := playersHands g; communityCards := communityCards g;
     usedCardsArr := usedCardsArr g; resultList := resultList g;
     compareCards := compareCards g; activePlayers := activePlayers g;
     playerHighCards := playerHighCards g;
     playerStraightHighCard := playerStraightHighCard g;
     plyr1Pair := plyr1Pair g; plyr2Pair := plyr2Pair g;
     plyr3Pair := plyr3Pair g; plyr4Pair := plyr4Pair g;
     bestHoleCards := bestHoleCards g; topHand := topHand g;
     thePot := thePot g; playerMoney := playerMoney g; status := status g;
     lastMove := lastMove g; matchButton := matchButton g;
     gameIncrement := gameIncrement g; maxBetHit := maxBetHit g;
     dblBets := dblBets g; notices := v |}.

(** [youWin(type)]: [split] stands for [type === "split"]. The
    credited amount is the pot as it is after the halving. *)
Definition youWin (split : bool) (g : game) : game :=
  let g := if split then set_thePot (thePot g / 2)%Q g else g in
  let g := set_notices
             ((if split then SplitPot (thePot g) else YouWon (thePot g))
                :: notices g) g in
  set_playerMoney (playerMoney g + thePot g)%Q g.

(** [youLose(topHand)]: the panel [[data-player=topHand]] must exist. *)
Definition youLose (topHand : jsval) (g : game) : option game :=
  match topHand with
  | N z => if (0 <=? z) && (z <? 4)
           then Some (set_notices (YouLost (Z.to_nat z) :: notices g) g)
           else None
  | _ => None
  end.

(** [showPlayersCards()] reads [playersHands[i].length] for the four
    players. *)
Definition showPlayersCards (g : game) : option game :=
  if (4 <=? length (playersHands g))%nat then Some g else None.

(** [activePlayers == 0]: the array is converted to a string and then to
    a number, which is 0 for [[]] and for [[0]] only. *)
Definition loosely_zero (activePlayers : list nat) : bool :=
  match activePlayers with
  | [] | [0%nat] => true
  | _ => false
  end.

(** [removeActivePlyr(plyrID)] *)
Definition removeActivePlyr (plyrID : nat) (g : game) : game :=
  let g := set_compareCards (<[plyrID := -1]> (compareCards g)) g in
  let g := set_resultList (<[plyrID := -1]> (resultList g)) g in
  let g := set_activePlayers
             (filter (λ p, p ≠ plyrID) (activePlayers g)) g in
  if loosely_zero (activePlayers g) then youWin false g else g.

(** *** [evaluateHand]: the evaluation of one hand *)

(** [resultList[iteration]], [resultList[iteration] = c] and
    [compareCards[iteration] = c]. *)
Definition result (iteration : nat) (g : game) : Z :=
  resultList g !!! iteration.

Definition set_result (iteration : nat) (c : Z) (g : game) : game :=
  set_resultList (<[iteration := c]> (resultList g)) g.

Definition set_compare (iteration : nat) (c : Z) (g : game) : game :=
  set_compareCards (<[iteration := c]> (compareCards g)) g.

(** [communityCards[iteration] = n] *)
Definition set_community (iteration : nat) (n : Z) (g : game) : game :=
  set_communityCards (array_set iteration (Number n) (communityCards g)) g.

(** The array [cardsArr]: the two hole cards and, from the flop on, the
    first three, four or five entries of [communityCards]. *)
Definition cardsArr_of (hand : card * card) (gameStep : Z) (g : game)
    : list entry :=
  let community n := array_get (communityCards g) <$> seq 0 n in
  [Obj hand.1; Obj hand.2] ++
  (if gameStep =? 2 then community 3%nat
   else if gameStep =? 3 then community 4%nat
   else if gameStep =? 4 then community 5%nat
   else []).

Definition is_Undefined (e : entry) : bool :=
  match e with Undefined => true | _ => false end.

(** [cardIndexes] before sorting: the index of every value (-1 for an
    entry without a value), and a further -1 after every ace. *)
Definition cardIndexes_of (cardsArr : list entry) : list Z :=
  e ← cardsArr;
  match value_of e with
  | Some v => indexOf cardHeirarchy v :: (if decide (v = ace) then [-1] else [])
  | None => [-1]
  end.

(** [valueArr]: how many entries have each value. *)
Definition valueArr_of (cardsArr : list entry) : list Z :=
  (λ v, Z.of_nat (length (filter (λ e, value_of e = Some v) cardsArr)))
    <$> cardHeirarchy.

(** [suitedArr = [spades, hearts, diamonds, clubs]] *)
Definition suitedArr_of (cardsArr : list entry) : list Z :=
  (λ s, Z.of_nat (length (filter (λ e, suit_of e = Some s) cardsArr)))
    <$> [spades; hearts; diamonds; clubs].

(** [plyrNPair.push(i)] for the player [iteration]. *)
Definition push_pair (iteration : nat) (i : Z) (g : game) : game :=
  match iteration with
  | 0%nat => set_plyr1Pair (plyr1Pair g ++ [i]) g
  | 1%nat => set_plyr2Pair (plyr2Pair g ++ [i]) g
  | 2%nat => set_plyr3Pair (plyr3Pair g ++ [i]) g
  | 3%nat => set_plyr4Pair (plyr4Pair g ++ [i]) g
  | _ => g
  end.

(** One round of the loop over [valueArr]: high card, pair, three and
    four of a kind. *)
Definition value_step (valueArr : list Z) (iteration : nat) (gameStep : Z)
    (g : game) (i : nat) : game :=
  let v := valueArr !!! i in
  let g :=
    if 0 <? v then
      let g := if gameStep =? 1
               then set_playerHighCards
                      (<[iteration := Z.of_nat i]> (playerHighCards g)) g
               else g in
      if result iteration g =? 0 then set_compare iteration (Z.of_nat i) g
      else g
    else g in
  let g :=
    if v =? 2 then
      let g := push_pair iteration (Z.of_nat i) g in
      if result iteration g <? 1
      then set_compare iteration (lastIndexOf valueArr 2) (set_result iteration 1 g)
      else g
    else g in
  let g :=
    if v =? 3 then
      if result iteration g <? 3
      then set_compare iteration (lastIndexOf valueArr 3) (set_result iteration 3 g)
      else g
    else g in
  if v =? 4 then
    if result iteration g <? 7
    then set_compare iteration (lastIndexOf valueArr 4) (set_result iteration 7 g)
    else g
  else g.

(** The flags [connectedTwo], [connectedThree], [connectedFour] and
    [straight]. *)
Record runs := {
  connectedTwo : bool;
  connectedThree : bool;
  connectedFour : bool;
  straight : bool
}.

(** One round of the loop over the sorted [cardIndexes]. *)
Definition straight_step (cardIndexes : list Z) (iteration : nat)
    (acc : game * runs) (i : nat) : game * runs :=
  let '(g, r) := acc in
  match cardIndexes !! i with
  | None => acc
  | Some ci =>
      let next k :=
        bool_decide (cardIndexes !! (i + k)%nat = Some (ci + Z.of_nat k)) in
      let c2 := next 1%nat in
      let c3 := c2 && next 2%nat in
      let c4 := c3 && next 3%nat in
      let c5 := c4 && next 4%nat in
      let g :=
        if c5 then
          let top := ci + 4 in
          let g := if playerStraightHighCard g !!! iteration <? top
                   then set_playerStraightHighCard
                          (<[iteration := top]> (playerStraightHighCard g)) g
                   else g in
          if result iteration g <? 4
          then set_community iteration top (set_result iteration 4 g)
          else g
        else g in
      (g, {| connectedTwo := connectedTwo r || c2;
             connectedThree := connectedThree r || c3;
             connectedFour := connectedFour r || c4;
             straight := straight r || c5 |})
  end.

(** [valueArr[i] > 0] for any integer [i] ([undefined > 0] is false). *)
Definition present (valueArr : list Z) (i : Z) : bool :=
  if i <? 0 then false
  else match valueArr !! Z.to_nat i with
       | Some v => 0 <? v
       | None => false
       end.

(** One round of the second straight loop, [for (i = -1; i < 13; i++)]. *)
Definition window_step (valueArr : list Z) (iteration : nat)
    (acc : game * bool) (i : Z) : game * bool :=
  let '(g, straight) := acc in
  if present valueArr i && present valueArr (i + 1) && present valueArr (i + 2)
     && present valueArr (i + 3) && present valueArr (i + 4)
  then (set_community iteration (valueArr !!! Z.to_nat (i + 4))
          (set_result iteration 4 g), true)
  else acc.

(** [if (resultList[iteration] < c) resultList[iteration] = c] *)
Definition raise_result (iteration : nat) (c : Z) (g : game) : game :=
  if result iteration g <? c then set_result iteration c g else g.

(** The array pushed onto [bestHoleCards]: the indexes of the values
    present, one twice for a pair, the first two swapped when out of
    order. It is built from the two hole cards, so it has two entries. *)
Definition tempObj_of (valueArr : list Z) : Z * Z :=
  let tempObj :=
    i ← seq 0 (length valueArr);
    let v := valueArr !!! i in
    if v =? 0 then []
    else if 1 <? v then [Z.of_nat i; Z.of_nat i] else [Z.of_nat i] in
  match tempObj with
  | a :: b :: _ => if b <? a then (b, a) else (a, b)
  | [a] => (a, a)
  | [] => (-1, -1)
  end.

(** The loop over [valueArr] and the two-pair test after it. *)
Definition count_phase (valueArr : list Z) (iteration : nat) (gameStep : Z)
    (g : game) : game :=
  let g := foldl (value_step valueArr iteration gameStep) g
                 (seq 0 (length valueArr)) in
  if 1 <? getOccurrence valueArr (N 2) then
    if result iteration g <? 2
    then set_compare iteration (lastIndexOf valueArr 2) (set_result iteration 2 g)
    else g
  else g.

(** "Looking for a straight": the loop over the sorted [cardIndexes],
    the second loop over [valueArr], and the test after them. *)
Definition straight_phase (cardIndexes valueArr : list Z) (iteration : nat)
    (g : game) : game * runs :=
  let '(g, r) :=
    foldl (straight_step cardIndexes iteration)
          (g, {| connectedTwo := false; connectedThree := false;
                 connectedFour := false; straight := false |})
          (seq 0 (length cardIndexes)) in
  let '(g, straight) :=
    foldl (window_step valueArr iteration) (g, straight r)
          ((λ n, Z.of_nat n - 1) <$> seq 0 14) in
  let g := if (result iteration g <? 4) && straight
           then set_result iteration 4 g else g in
  (g, {| connectedTwo := connectedTwo r; connectedThree := connectedThree r;
         connectedFour := connectedFour r; straight := straight |}).

(** Flush, full house, straight flush and royal flush. *)
Definition category_phase (valueArr suitedArr : list Z) (straight : bool)
    (iteration : nat) (g : game) : game :=
  let flush := bool_decide (indexOf suitedArr 5 ≠ -1) in
  let g := if flush then raise_result iteration 5 g else g in
  let g :=
    if bool_decide (indexOf valueArr 3 ≠ -1)
       && bool_decide (indexOf valueArr 2 ≠ -1)
    then if result iteration g <? 6
         then set_community iteration (lastIndexOf valueArr 3)
                (set_result iteration 6 g)
         else g
    else g in
  let g := if flush && straight then raise_result iteration 8 g else g in
  if present valueArr 8 && present valueArr 9 && present valueArr 10
     && present valueArr 11 && present valueArr 12 && flush
  then raise_result iteration 9 g else g.

(** The players who are not active get -1; a high-card hand records its
    highest card; before the flop the hole cards are recorded. *)
Definition closing_phase (valueArr : list Z) (iteration : nat) (gameStep : Z)
    (g : game) : game :=
  let g :=
    foldl (λ g i, if bool_decide (i ∈ activePlayers g) then g
                  else set_compare i (-1) (set_result i (-1) g))
          g (seq 0 4) in
  let g := if result iteration g =? 0
           then set_compare iteration (lastIndexOf valueArr 1) g else g in
  if gameStep =? 1
  then set_bestHoleCards (bestHoleCards g ++ [tempObj_of valueArr]) g
  else g.

(** The evaluation proper, up to the push onto [bestHoleCards]. Returns
    the flags the betting part reads. *)
Definition evaluate (cardsArr : list entry) (iteration : nat) (gameStep : Z)
    (g : game) : game * runs :=
  let valueArr := valueArr_of cardsArr in
  let g := count_phase valueArr iteration gameStep g in
  let cardIndexes := sort_numeric (cardIndexes_of cardsArr) in
  let '(g, r) := straight_phase cardIndexes valueArr iteration g in
  let g := category_phase valueArr (suitedArr_of cardsArr) (straight r)
                          iteration g in
  (closing_phase valueArr iteration gameStep g, r).

(** *** [evaluateHand]: the showdown *)

(** The straight tie-break: [topHand] becomes the highest straight card
    on record, and a split is declared when player 0 shares it. Returns
    [true] when the function returned from here. *)
Definition straight_tie (g : game) : option (game * bool) :=
  let top := Math_max (playerStraightHighCard g) in
  let g := set_topHand top g in
  if (1 <? getOccurrence (playerStraightHighCard g) top)
     && bool_decide (N (playerStraightHighCard g !!! 0%nat) = top)
  then g ← showPlayersCards (youWin true g); Some (g, true)
  else Some (g, false).

(** The two-pair tie-break: players without the highest pair, then
    players without the second highest, are taken out. *)
Definition two_pair_tie (g : game) : game :=
  let allPairs := plyr1Pair g ++ plyr2Pair g ++ plyr3Pair g ++ plyr4Pair g in
  let highestPair := Math_max allPairs in
  let playersWithPair := [plyr1Pair g; plyr2Pair g; plyr3Pair g; plyr4Pair g] in
  let has (pairs : list Z) (x : jsval) := bool_decide (indexOf_val pairs x ≠ -1) in
  let '(g, playersWithPair) :=
    foldl (λ '(g, pwp) i,
             if has (pwp !!! i) highestPair then (g, pwp)
             else (set_result i (-1) (set_compare i (-1) g), <[i := []]> pwp))
          (g, playersWithPair) (seq 0 4) in
  let allPairs := (λ x, if decide (N x = highestPair) then -1 else x) <$> allPairs in
  let secondHighestPair := Math_max allPairs in
  fst (foldl (λ '(g, pwp) i,
                if has (pwp !!! i) secondHighestPair then (g, pwp)
                else (set_result i (-1) (set_compare i (-1) g), <[i := [-1]]> pwp))
             (g, playersWithPair) (seq 0 4)).

(** The loop over [bestHoleCards] that compares the hole cards of the
    players still tied; it returns from the function on a split. *)
Fixpoint hole_loop (multiWinMax : jsval) (hiHole lowHole : Z)
    (rest : list nat) (g : game) : option (game * bool) :=
  match rest with
  | [] => Some (g, false)
  | i :: rest' =>
      let '(lo, hi) := bestHoleCards g !!! i in
      let '(lo, hi) :=
        if bool_decide (N lo = multiWinMax) || bool_decide (N hi = multiWinMax)
        then (lo, hi) else (-1, -1) in
      let g := set_bestHoleCards (<[i := (lo, hi)]> (bestHoleCards g)) g in
      let '(hiHole, g) :=
        if hiHole <? hi then (hi, set_topHand (N (Z.of_nat i)) g)
        else (hiHole, g) in
      if hi =? hiHole then
        let '(lowHole, g) :=
          if lowHole <? lo then (lo, set_topHand (N (Z.of_nat i)) g)
          else (lowHole, g) in
        if (hi =? hiHole) && (lo =? lowHole)
           && negb ((bestHoleCards g !!! 0%nat).1 =? -1)
        then g ← showPlayersCards (youWin true g); Some (g, true)
        else hole_loop multiWinMax hiHole lowHole rest' g
      else hole_loop multiWinMax hiHole lowHole rest' g
  end.

(** The players who do not hold the winning category leave the
    comparison: [compareCards] and both entries of [bestHoleCards] are set
    to -1. *)
Definition drop_losers (winningHand : jsval) (g : game) : option game :=
  foldl (λ acc i,
           g ← acc;
           if bool_decide (N (resultList g !!! i) = winningHand) then Some g
           else if (i <? length (bestHoleCards g))%nat
                then Some (set_bestHoleCards
                             (<[i := (-1, -1)]> (bestHoleCards g))
                             (set_compare i (-1) g))
                else None)
        (Some g) (seq 0 (length (resultList g))).

(** The tie-break on the hole cards: the best hole card of every player
    still compared, then the loop over [bestHoleCards]. *)
Definition hole_card_tie (g : game) : option (game * bool) :=
  winnersList ←
    mapM (λ i, if compareCards g !!! i =? -1 then Some (-1)
               else hand ← playersHands g !! i;
                    Some (Z.max (indexOf cardHeirarchy (value hand.1))
                                (indexOf cardHeirarchy (value hand.2))))
         (seq 0 4);
  let multiWinMax := Math_max winnersList in
  let g := set_topHand (N (indexOf_val winnersList multiWinMax)) g in
  if 1 <? getOccurrence winnersList multiWinMax
  then hole_loop multiWinMax 0 0 (seq 0 (length (bestHoleCards g))) g
  else Some (g, false).

(** The block run for the last active player on the river. Returns
    [true] when [evaluateHand] returned from inside it. *)
Definition showdown (g : game) : option (game * bool) :=
  let winningHand := Math_max (resultList g) in
  if getOccurrence (resultList g) winningHand =? 1 then
    Some (set_topHand (N (indexOf_val (resultList g) winningHand)) g, false)
  else
    g ← drop_losers winningHand g;
    let winningCard := Math_max (compareCards g) in
    let g := set_topHand (N (indexOf_val (compareCards g) winningCard)) g in
    if 1 <? getOccurrence (compareCards g) winningCard then
      '(g, returned) ← (if decide (winningHand = N 4) then straight_tie g
                        else Some (g, false));
      if returned : bool then Some (g, true)
      else hole_card_tie (if decide (winningHand = N 2)
                          then two_pair_tie g else g)
    else Some (g, false).

(** *** [evaluateHand]: the betting of the other players *)

(** [dataset.status = s] on the panel of player [iteration]. *)
Definition set_panel (iteration : nat) (s : dataset_status) (g : game) : game :=
  set_status (<[iteration := s]> (status g)) g.

(** The players whose panel is "checking" fold when some panel is
    "betting". *)
Definition fold_checking (g : game) : game :=
  if bool_decide (betting ∈ status g) then
    foldl (λ g whichPlayer, set_panel whichPlayer folded
                              (removeActivePlyr whichPlayer g))
          g (filter (λ p, status g !! p = Some checking) (seq 0 (length (status g))))
  else g.

(** The part after the evaluation. [valueArr] and [suitedArr] are the
    arrays of the evaluation, [r] its flags. *)
Definition betting_part (valueArr suitedArr : list Z) (r : runs)
    (iteration : nat) (gameStep : Z) (lastIteration : option nat)
    (g : game) : option game :=
  if bool_decide (iteration ∈ activePlayers g) then
    let highCardCount :=
      Z.of_nat (length (filter (λ i, (7 < i)%nat ∧ 0 < valueArr !!! i)
                               (seq 0 (length valueArr)))) in
    let firstRoundSuited := existsb (λ s, 1 <? s) suitedArr in
    let threeSuited := existsb (λ s, 2 <? s) suitedArr in
    let fourSuited := existsb (λ s, 3 <? s) suitedArr in
    let other := negb (iteration =? 0)%nat in
    let last := bool_decide (lastIteration = Some iteration) in
    let g :=
      if (gameStep =? 1) && other then
        if (1 <=? result iteration g) || connectedTwo r || (0 <? highCardCount)
           || firstRoundSuited || present valueArr 12
        then set_panel iteration betting g
        else set_panel iteration checking g
      else g in
    if (gameStep =? 1) && other && last then Some (fold_checking g)
    else
      let g := if (3 <=? result iteration g) && other
               then set_dblBets true g else g in
      let g :=
        if (gameStep =? 2) && other then
          if connectedThree r || (1 <? highCardCount) || firstRoundSuited
             || (1 <=? result iteration g)
          then set_panel iteration betting g
          else set_panel iteration checking g
        else g in
      let g :=
        if (gameStep =? 3) && other then
          let g :=
            if connectedThree r || (1 <? Z.b2z (connectedFour r))
               || threeSuited || fourSuited || (1 <=? result iteration g)
            then set_panel iteration betting g
            else set_panel iteration checking g in
          if maxBetHit g && other
             && negb (connectedThree r) && (result iteration g <=? 2)
             && negb fourSuited
          then set_panel iteration checking g
          else g
        else g in
      if ((gameStep =? 2) || (gameStep =? 3)) && last && other
      then Some (fold_checking g)
      else if (gameStep =? 4) && last then
        g ← (if decide (topHand g = N 0) then Some (youWin false g)
             else youLose (topHand g) g);
        showPlayersCards g
      else Some g
  else Some g.

(** "Player cannot have 3 pair": the lowest pairs of [valueArr] are
    struck out until two are left. *)
Definition drop_third_pair (valueArr : list Z) : list Z :=
  foldl (λ va i, if (va !!! i =? 2) && (2 <? getOccurrence va (N 2))
                 then <[i := -2]> va else va)
        valueArr (seq 0 (length valueArr)).

(** [evaluateHand(iteration, gameStep)] *)
Definition evaluateHand (iteration : nat) (gameStep : Z) (g : game)
    : option game :=
  hand ← playersHands g !! iteration;
  let cardsArr := cardsArr_of hand gameStep g in
  if existsb is_Undefined cardsArr then None
  else
    let valueArr := valueArr_of cardsArr in
    let suitedArr := suitedArr_of cardsArr in
    let lastIteration := last (activePlayers g) in
    let '(g, r) := evaluate cardsArr iteration gameStep g in
    if (gameStep =? 4) && bool_decide (lastIteration = Some iteration) then
      '(g, returned) ← showdown g;
      if returned : bool then Some g
      else betting_part (drop_third_pair valueArr) suitedArr r
                        iteration gameStep lastIteration g
    else betting_part valueArr suitedArr r iteration gameStep lastIteration g.

(** *** The betting of the other players in [deal] and [match] *)

(** [calculateHandStrength(hand)] of Poker.js, on the integers 0 to 8. *)
Definition calculateHandStrength (hand : list card) : Z :=
  let values := (λ c, indexOf cardHeirarchy (value c)) <$> hand in
  let counts :=
    (λ v, Z.of_nat (length (filter (λ x : Z, x = v) values)))
      <$> remove_dups values in
  let maxCount := Math_max counts in
  let sorted := sort_numeric values in
  let isStraight :=
    forallb (λ i, match i with
                  | O => true
                  | S j => bool_decide (sorted !! i = (λ x, x + 1) <$> sorted !! j)
                  end)
            (seq 0 (length sorted)) in
  let isFlush :=
    forallb (λ c, bool_decide (Some (suit c) = suit <$> head hand)) hand in
  if isStraight && isFlush then 8
  else if bool_decide (maxCount = N 4) then 7
  else if bool_decide (maxCount = N 3) && bool_decide (2 ∈ counts) then 6
  else if isFlush then 5
  else if isStraight then 4
  else if bool_decide (maxCount = N 3) then 3
  else if bool_decide (length (filter (λ c : Z, c = 2) counts) = 2%nat) then 2
  else if bool_decide (maxCount = N 2) then 1
  else 0.

Definition hand_of (g : game) (i : nat) : list card :=
  match playersHands g !! i with
  | Some (c0, c1) => [c0; c1]
  | None => []
  end.

Definition Qgt (a b : Q) : bool := negb (Qle_bool a b).

(** The loop of [deal] over players 1 to 3; [betDecision i] is the value
    [Math.random()] returns for player [i], [bet2] the random bet of the
    hand. Returns [maxPlayerBet] as well. *)
Definition deal_bets (betDecision : nat → Q) (bet2 : Q) (g : game) : game * Q :=
  foldl (λ '(g, maxPlayerBet) i,
           let score := calculateHandStrength (hand_of g i) in
           let '(g, playerBet) :=
             if (8 <=? score) || Qgt (betDecision i) (8 # 10) then
               (set_lastMove (<[i := bet_move]> (lastMove g))
                  (set_panel i betting g), bet2)
             else if (4 <=? score) || Qgt (betDecision i) (5 # 10) then
               (set_lastMove (<[i := check_move]> (lastMove g))
                  (set_panel i checking g), 10%Q)
             else
               (removeActivePlyr i
                  (set_lastMove (<[i := fold_move]> (lastMove g))
                     (set_panel i folded g)), 0%Q) in
           (g, if Qgt playerBet maxPlayerBet then playerBet else maxPlayerBet))
        (g, 10%Q) [1; 2; 3]%nat.

(** The start of [match]: when an active opponent's last move is a bet,
    the active opponents whose last move is a check fold. *)
Definition fold_on_raise (g : game) : game :=
  let opponent_did (m : move) (player : nat) :=
    negb (player =? 0)%nat && bool_decide (lastMove g !! player = Some m) in
  if existsb (opponent_did bet_move) (activePlayers g) then
    foldl (λ g player,
             if opponent_did check_move player
             then removeActivePlyr player (set_panel player folded g)
             else g)
          g (activePlayers g)
  else g.

(** The loop of [match] over the players in [activePlayers], which reads
    the array anew in every round. The array never grows, so its length
    on entry bounds the number of rounds. *)
Fixpoint evaluate_active (rounds i : nat) (evaled : list nat) (gameStep : Z)
    (g : game) : option game :=
  match rounds with
  | O => Some g
  | S rounds' =>
      match activePlayers g !! i with
      | None => Some g
      | Some player =>
          if bool_decide (player ∈ evaled)
          then evaluate_active rounds' (S i) evaled gameStep g
          else g ← evaluateHand player gameStep g;
               evaluate_active rounds' (S i) (evaled ++ [player]) gameStep g
      end
  end.

(** The loop of [match] over players 1 to 3; [playerDecisionFactor i] is
    the value of [Math.random()] for player [i]. A bet is the amount read
    off the "match" button. *)
Definition match_bets (gameStep : Z) (playerDecisionFactor : nat → Q)
    (g : game) : game :=
  foldl (λ g i,
           if bool_decide (i ∈ activePlayers g) then
             if 4 <=? gameStep then set_panel i finished g
             else
               let playerHandStrength := calculateHandStrength (hand_of g i) in
               if (8 <=? playerHandStrength)
                  || ((5 <=? playerHandStrength)
                      && Qgt (playerDecisionFactor i) (7 # 10))
               then set_thePot (thePot g + matchButton g)%Q
                      (set_lastMove (<[i := bet_move]> (lastMove g))
                         (set_panel i betting g))
               else if (4 <=? playerHandStrength)
                       || ((2 <=? playerHandStrength)
                           && Qgt (playerDecisionFactor i) (4 # 10))
               then set_lastMove (<[i := check_move]> (lastMove g))
                      (set_panel i checking g)
               else removeActivePlyr i
                      (set_lastMove (<[i := fold_move]> (lastMove g))
                         (set_panel i folded g))
           else g)
        g [1; 2; 3]%nat.

(** *** Dealing cards *)

(** The outcome of a loop that draws cards: it has left the loop, with
    the random numbers not yet consumed; or it is still in the loop when
    the numbers supplied run out; or it has thrown. *)
Inductive drawing (A : Type) :=
| Drawn (a : A) (rest : list nat)
| Pending
| Thrown.
Arguments Drawn {A} a rest.
Arguments Pending {A}.
Arguments Thrown {A}.

(** [playersHands[iteration] = handObj]; [deal] fills the places in the
    order 0, 1, 2, 3. *)
Definition set_hand (iteration : nat) (hand : card * card) (g : game) : game :=
  set_playersHands
    (if (iteration <? length (playersHands g))%nat
     then <[iteration := hand]> (playersHands g)
     else playersHands g ++ [hand]) g.

(** [generate(activeCards)], with the value [random] of
    [Math.random()], a double that is not negative: the product is
    rounded to a double before [Math.floor] is taken. *)
Definition generate (random : Q) (activeCards : list card) : nat :=
  Z.to_nat
    (Qfloor (Double.to_double
               (random * inject_Z (Z.of_nat (length activeCards))))).

Section Deck.

(** The deck, twice: the constant [activeCards] and the variable
    [cards], both parsed from the same stored list. They are defined
    outside Poker.js. *)
Variables (activeCards cards : list card).

(** [buildCommunityCards(howMany, step)]; [gens] are the values that
    the successive calls of [generate(activeCards)] return. *)
Fixpoint buildCommunityCards (howMany : nat) (gens : list nat) (g : game)
    : drawing game :=
  if (length (communityCards g) <? howMany)%nat then
    match gens with
    | [] => Pending
    | genNumber :: gens' =>
        match activeCards !! genNumber with
        | None => Thrown
        | Some c =>
            if bool_decide (c ∈ usedCardsArr g)
            then buildCommunityCards howMany gens' g
            else match cards !! genNumber with
                 | None => Thrown
                 | Some c' =>
                     buildCommunityCards howMany gens'
                       (set_usedCardsArr (usedCardsArr g ++ [c'])
                          (set_communityCards
                             (communityCards g ++ [Obj c]) g))
                 end
        end
    end
  else Drawn g gens.

(** The drawing loop of [generatePlayer]. *)
Fixpoint draw_hole_cards (playersCards : list card) (gens : list nat)
    (g : game) : drawing (list card * game) :=
  if (length playersCards <? 2)%nat then
    match gens with
    | [] => Pending
    | genNumber :: gens' =>
        match activeCards !! genNumber with
        | None => Thrown
        | Some c =>
            if bool_decide (c ∈ usedCardsArr g)
            then draw_hole_cards playersCards gens' g
            else match cards !! genNumber with
                 | None => Thrown
                 | Some c' =>
                     draw_hole_cards (playersCards ++ [c']) gens'
                       (set_usedCardsArr (usedCardsArr g ++ [c']) g)
                 end
        end
    end
  else Drawn (playersCards, g) gens.

(** [generatePlayer(iteration)] *)
Definition generatePlayer (iteration : nat) (gens : list nat) (g : game)
    : drawing game :=
  match draw_hole_cards [] gens g with
  | Drawn (c0 :: c1 :: _, g) rest =>
      match evaluateHand iteration 1 (set_hand iteration (c0, c1) g) with
      | Some g => Drawn g rest
      | None => Thrown
      end
  | Drawn _ _ => Thrown
  | Pending => Pending
  | Thrown => Thrown
  end.

(** [deal()]: the globals are reset, every player is dealt two cards
    and evaluated, the other players bet and the "match" button is
    labelled with the highest bet. (The dialog of [resetPlayerMoney] for
    an empty balance is not part of the model.) *)
Definition deal (gens : list nat) (betDecision : nat → Q) (bet2 : Q)
    (g : game) : drawing game :=
  let g :=
    {| playersHands := playersHands g;
       communityCards := [];
       usedCardsArr := [];
       resultList := [0; 0; 0; 0];
       compareCards := [0; 0; 0; 0];
       activePlayers := [0; 1; 2; 3]%nat;
       playerHighCards := [0; 0; 0; 0];
       playerStraightHighCard := [0; 0; 0; 0];
       plyr1Pair := []; plyr2Pair := []; plyr3Pair := []; plyr4Pair := [];
       bestHoleCards := [];
       topHand := Null;
       thePot := 40;
       playerMoney := playerMoney g - 10;
       status := [ready; ready; ready; ready];
       lastMove := lastMove g;
       matchButton := matchButton g;
       gameIncrement := 1;
       maxBetHit := false;
       dblBets := false;
       notices := notices g |} in
  let fix players (todo : list nat) (gens : list nat) (g : game) :=
    match todo with
    | [] => Drawn g gens
    | i :: todo' =>
        match generatePlayer i gens g with
        | Drawn g rest => players todo' rest g
        | Pending => Pending
        | Thrown => Thrown
        end
    end in
  match players [0; 1; 2; 3]%nat gens g with
  | Drawn g rest =>
      let '(g, maxPlayerBet) := deal_bets betDecision bet2 g in
      Drawn (set_matchButton maxPlayerBet g) rest
  | Pending => Pending
  | Thrown => Thrown
  end.

(** [match()], first half: the step counter, the folds after a raise
    and the community cards. *)
Definition match_cards (gens : list nat) (g : game) : drawing game :=
  let g := set_gameIncrement (gameIncrement g + 1) g in
  let gameStep := gameIncrement g in
  let maxLength := if gameStep <? 4 then Z.to_nat (gameStep + 1) else 5%nat in
  let g := fold_on_raise g in
  if gameStep =? 2
  then buildCommunityCards 3 gens (set_communityCards [] g)
  else buildCommunityCards maxLength gens g.

(** [match()], second half: the evaluation of the active players, the
    bets of the others and the bet of player 0. [playerBet] is the
    amount of the active button (10 when none is). *)
Definition match_play (playerDecisionFactor : nat → Q)
    (playerBet : Q) (g : game) : option game :=
  let gameStep := gameIncrement g in
  g ← evaluate_active (length (activePlayers g)) 0 [] gameStep g;
  let g := match_bets gameStep playerDecisionFactor g in
  Some (set_thePot (thePot g + playerBet)%Q
          (set_playerMoney (playerMoney g - playerBet)%Q g)).

(** [match()], named [match_] here. *)
Definition match_ (gens : list nat) (playerDecisionFactor : nat → Q)
    (playerBet : Q) (g : game) : drawing game :=
  match match_cards gens g with
  | Drawn g rest =>
      match match_play playerDecisionFactor playerBet g with
      | Some g => Drawn g rest
      | None => Thrown
      end
  | Pending => Pending
  | Thrown => Thrown
  end.

(** [fold()]: the community cards are completed and, in [clear("fold")],
    all hole cards are shown. *)
Definition fold (gens : list nat) (g : game) : drawing game :=
  match buildCommunityCards 5 gens g with
  | Drawn g rest =>
      match showPlayersCards g with
      | Some g => Drawn g rest
      | None => Thrown
      end
  | Pending => Pending
  | Thrown => Thrown
  end.

End Deck.

End Poker.

(* ===================================================================== *)
(** ** Reference definitions, in the words of the specification *)
(* ===================================================================== *)

Module Spec.

(** The probability mass accumulated over the first [n] actions of the
    list, added from the left starting at 0. *)
Definition cumulative_mass (mass : string → num) (acts : list string)
    (n : nat) : num :=
  foldl (λ c a, add c (mass a)) (Fin 0) (take n acts).

(** The least index in [i, i + n) at which [p] holds. *)
Fixpoint first_index (p : nat → bool) (i n : nat) : option nat :=
  match n with
  | O => None
  | S n' => if p i then Some i else first_index p (S i) n'
  end.

(** "The first action whose cumulative mass exceeds the draw". *)
Definition first_exceeding (mass : string → num) (draw : num)
    (acts : list string) : option string :=
  i ← first_index (λ i, lt draw (cumulative_mass mass acts (S i)))
                  0 (length acts);
  acts !! i.


(** The top index of the highest run of five consecutive values among
    [indexes], the ace (12) also counting as -1. *)
Definition straight_top (indexes : list Z) : option Z :=
  let has i := bool_decide (i ∈ indexes)
               || (bool_decide (i = -1) && bool_decide (12 ∈ indexes))%Z in
  head (filter (λ top, forallb (λ k, has (top - k)%Z) [0; 1; 2; 3; 4]%Z)
               [12; 11; 10; 9; 8; 7; 6; 5; 4; 3]%Z).

Definition indexes_of (cards : list Poker.card) : list Z :=
  (λ c, Poker.indexOf Poker.cardHeirarchy (Poker.value c)) <$> cards.

(** "Straight AND flush with the straight restricted to cards of the
    matching suit". *)
Definition straight_flush (cards : list Poker.card) : bool :=
  existsb
    (λ s, let suited := filter (λ c, Poker.suit c = s) cards in
          (5 <=? length suited)%nat
          && bool_decide (is_Some (straight_top (indexes_of suited))))
    Poker.suitArr.


End Spec.

(* ===================================================================== *)
(** ** Probabilities over the actions *)
(* ===================================================================== *)

Module Distribution.

(** The masses [mass a] of the actions [acts], added up from the left
    starting at 0. *)
Definition total (mass : string → num) (acts : list string) : num :=
  foldl (λ s a, add s (mass a)) (Fin 0) acts.

(** A number between 0 and 1. *)
Definition probability (x : num) : Prop :=
  ∃ q, x = Fin q ∧ (0 <= q)%Q ∧ (q <= 1)%Q.

(** A number below plus infinity: finite or minus infinity, not NaN. *)
Definition bounded_above (x : num) : bool := lt x PosInf.

(** A finite number that is not negative. *)
Definition finite_nonneg (x : num) : bool := ge x (of_Z 0) && lt x PosInf.

End Distribution.

(* ===================================================================== *)
(** ** What the evaluation leaves alone *)
(* ===================================================================== *)

Module Frame.

Import Poker.

(** The globals that only [youWin], [youLose], the folds and the bets
    write: the pot, the balance, the messages, the active players and
    the hole cards. *)
Definition kept (g : game) : Q * Q * list notice * list nat * list (card * card) :=
  (thePot g, playerMoney g, notices g, activePlayers g, playersHands g).

(** [g'] is [g] after [youWin("split")], as far as the pot, the balance,
    the messages and the active players go. *)
Definition split_declared (g g' : game) : Prop :=
  thePot g' = (thePot g / 2)%Q
  ∧ playerMoney g' = (playerMoney g + thePot g / 2)%Q
  ∧ notices g' = SplitPot (thePot g / 2)%Q :: notices g
  ∧ activePlayers g' = activePlayers g.

Definition is_split (n : notice) : bool :=
  match n with SplitPot _ => true | _ => false end.

(** Since [g], no split has been declared up to [g']. *)
Definition no_split_since (g g' : game) : Prop :=
  ∃ l, notices g' = l ++ notices g ∧ forallb (λ n, negb (is_split n)) l = true.

(** The score of player [k] is one of the categories. *)
Definition scored (k : nat) (g : game) : Prop :=
  length (resultList g) = 4%nat ∧ (0 <= result k g)%Z.

(** The globals that neither the evaluation of a hand nor the showdown
    writes: the hole cards, the used cards, the active players, the
    panels with their last moves, the label of the "match" button, the
    step counter and the two betting flags. *)
Definition seats (g : game)
    : list (card * card) * list card * list nat * list dataset_status
      * list move * Q * Z * bool * bool :=
  (playersHands g, usedCardsArr g, activePlayers g, status g, lastMove g,
   matchButton g, gameIncrement g, maxBetHit g, dblBets g).

(** The globals that no part of [evaluateHand] writes. *)
Definition fixed (g : game)
    : list (card * card) * list card * list move * Q * Z * bool :=
  (playersHands g, usedCardsArr g, lastMove g, matchButton g,
   gameIncrement g, maxBetHit g).

(** The categories: [resultList] holds four numbers, each an index of
    [handHeirarchy] (0 to 9) or -1. *)
Definition categories (g : game) : Prop :=
  length (resultList g) = 4%nat
  ∧ Forall (λ c, (-1 <= c <= 9)%Z) (resultList g).

(** Player 0 is in the hand and its panel does not say "checking". *)
Definition seated (g : game) : Prop :=
  0%nat ∈ activePlayers g ∧ status g !! 0%nat ≠ Some checking.

(** From [g] to [g'] nobody has joined the hand, the categories have
    stayed categories, and player 0, if seated, has stayed seated. *)
Definition orderly (g g' : game) : Prop :=
  activePlayers g' `sublist_of` activePlayers g
  ∧ (categories g → categories g')
  ∧ (seated g → seated g').




(** How many community cards [buildCommunityCards(howMany)] has to
    add. *)
Definition missing (howMany : nat) (g : game) : nat :=
  howMany - length (communityCards g).

(** The distinct cards not in [used] among the cards of [deck] that the
    numbers [gens] pick. *)
Definition fresh_picks (deck used : list card) (gens : list nat) : list card :=
  remove_dups (filter (λ c, c ∉ used) (omap (λ n, deck !! n) gens)).

(** The cards of [deck] not in [used]. *)
Definition unused (deck used : list card) : list card :=
  filter (λ c, c ∉ used) deck.

End Frame.

(* ===================================================================== *)
(** ** Hands played out *)
(* ===================================================================== *)

Module Table.

Import Poker.

(** Modelled from the spec: the deck, the list [cards] that the page
    defines outside Poker.js. The specification gives its content, "52
    unique cards, one of each rank and suit"; the order, by suit and then
    by value, is an arbitrary choice and only fixes which number
    [generate] has to return for a given card. *)
Definition deck : list card :=
  s ← suitArr; v ← cardHeirarchy; [{| suit := s; value := v |}].

(** The number [generate(activeCards)] returns when it picks [c]. *)
Definition gen_of (c : card) : nat := Z.to_nat (indexOf deck c).

Definition of_ (v : value_name) (s : suit_name) : card :=
  {| suit := s; value := v |}.

(** The globals as the script initialises them, with the default balance
    of 500. *)
Definition start : game :=
  {| playersHands := [];
     communityCards := [];
     usedCardsArr := [];
     resultList := [0; 0; 0; 0]%Z;
     compareCards := [0; 0; 0; 0]%Z;
     activePlayers := [0; 1; 2; 3];
     playerHighCards := [0; 0; 0; 0]%Z;
     playerStraightHighCard := [0; 0; 0; 0]%Z;
     plyr1Pair := []; plyr2Pair := []; plyr3Pair := []; plyr4Pair := [];
     bestHoleCards := [];
     topHand := Null;
     thePot := 0;
     playerMoney := 500;
     status := [ready; ready; ready; ready];
     lastMove := [no_move; no_move; no_move; no_move];
     matchButton := 10;
     gameIncrement := 1;
     maxBetHit := false;
     dblBets := false;
     notices := [] |}.

(** The game a drawing loop has left; [start] when it has not. *)
Definition after (d : drawing game) : game :=
  match d with
  | Drawn g _ => g
  | _ => start
  end.

(** A hand to play: the hole cards of players 0 to 3 in the order they
    are drawn, the five community cards, and the value every call of
    [Math.random()] in the betting returns. The random bet [bet2] of the
    hand is 50, and player 0 always bets 10 (no button is active). *)
Record script := {
  holes : list card;
  board : list card;
  random : Q
}.

Definition dealt (s : script) : game :=
  after (deal deck deck (gen_of <$> holes s) (λ _, random s) 50 start).

Definition flop (s : script) : game :=
  after (match_ deck deck (gen_of <$> take 3 (board s)) (λ _, random s)
                10 (dealt s)).

Definition turn (s : script) : game :=
  after (match_ deck deck (gen_of <$> take 1 (drop 3 (board s)))
                (λ _, random s) 10 (flop s)).

(** The river card is on the table and no hand has been evaluated with
    it yet. *)
Definition river (s : script) : game :=
  after (match_cards deck deck (gen_of <$> drop 4 (board s)) (turn s)).

(** [evaluateHand(p, gameStep)] for the players [ps] in turn. *)
Definition evaluated (ps : list nat) (gameStep : Z) (g : game) : option game :=
  foldl (λ acc p, g ← acc; evaluateHand p gameStep g) (Some g) ps.

(** The game when all players in [ps] have been evaluated on the river. *)
Definition river_after (ps : list nat) (s : script) : game :=
  default start (evaluated ps 4 (river s)).

(** The seven cards of player [p] when all community cards are out. *)
Definition seven_cards (s : script) (p : nat) : list card :=
  take 2 (drop (2 * p) (holes s)) ++ board s.

(** Players 0, 1 and 2 hold ace-king, the board gives nobody a pair, a
    straight or a flush; player 3 holds three-four. *)
Definition three_way : script :=
  {| holes := [of_ ace spades; of_ king spades;
               of_ ace hearts; of_ king hearts;
               of_ ace diamonds; of_ king diamonds;
               of_ three clubs; of_ four clubs];
     board := [of_ two spades; of_ seven diamonds; of_ nine clubs;
               of_ jack hearts; of_ five diamonds];
     random := 6 # 10 |}.

(** Player 0 holds five hearts and the straight seven to jack, whose
    eight and ten are not hearts. *)
Definition flush_and_straight : script :=
  {| holes := [of_ seven hearts; of_ nine hearts;
               of_ two clubs; of_ three clubs;
               of_ four spades; of_ five spades;
               of_ six diamonds; of_ seven diamonds];
     board := [of_ two hearts; of_ jack hearts; of_ king hearts;
               of_ eight clubs; of_ ten diamonds];
     random := 6 # 10 |}.

(** Player 0 holds the straight two to six, player 1 the wheel; players
    2 and 3 fold before the flop. *)
Definition wheel_against_six : script :=
  {| holes := [of_ six spades; of_ king diamonds;
               of_ ace hearts; of_ queen hearts;
               of_ jack clubs; of_ eight diamonds;
               of_ ten spades; of_ seven diamonds];
     board := [of_ nine clubs; of_ two diamonds; of_ three spades;
               of_ four clubs; of_ five diamonds];
     random := 3 # 10 |}.

(** Player 0 holds the wheel with a second two; nobody else has a
    straight. *)
Definition paired_wheel : script :=
  {| holes := [of_ ace spades; of_ two diamonds;
               of_ king hearts; of_ queen hearts;
               of_ jack clubs; of_ eight diamonds;
               of_ ten spades; of_ seven diamonds];
     board := [of_ two clubs; of_ three hearts; of_ four spades;
               of_ five diamonds; of_ nine clubs];
     random := 3 # 10 |}.

(** Every other player folds before the flop. *)
Definition all_fold : script :=
  {| holes := [of_ king spades; of_ queen spades;
               of_ two clubs; of_ seven diamonds;
               of_ three spades; of_ eight hearts;
               of_ four diamonds; of_ nine clubs];
     board := [of_ two hearts; of_ jack hearts; of_ king hearts;
               of_ eight clubs; of_ ten diamonds];
     random := 3 # 10 |}.

(** Players 1 and 2 hold ace-king, player 0 holds two-seven; the board
    gives nobody a pair, a straight or a flush. Player 3 folds on the
    flop. *)
Definition opponents_tie : script :=
  {| holes := [of_ two clubs; of_ seven diamonds;
               of_ ace hearts; of_ king hearts;
               of_ ace diamonds; of_ king diamonds;
               of_ three clubs; of_ nine spades];
     board := [of_ four spades; of_ eight diamonds; of_ ten clubs;
               of_ jack hearts; of_ five diamonds];
     random := 6 # 10 |}.

(** The five cards of the board, ace to nine, are higher than every
    hole card of players 0 and 1; players 2 and 3 fold on the flop. *)
Definition board_plays : script :=
  {| holes := [of_ two clubs; of_ three diamonds;
               of_ four clubs; of_ five clubs;
               of_ six spades; of_ eight hearts;
               of_ seven diamonds; of_ two hearts];
     board := [of_ ace spades; of_ king diamonds; of_ queen clubs;
               of_ jack hearts; of_ nine diamonds];
     random := 6 # 10 |}.

(** Players 0 and 1 hold king-queen and make kings and queens with the
    board; player 3 holds a pair of aces and folds on the flop, as does
    player 2. *)
Definition two_pair_and_aces : script :=
  {| holes := [of_ king hearts; of_ queen hearts;
               of_ king diamonds; of_ queen diamonds;
               of_ six spades; of_ eight hearts;
               of_ ace clubs; of_ ace diamonds];
     board := [of_ king spades; of_ queen clubs; of_ seven clubs;
               of_ two diamonds; of_ three hearts];
     random := 6 # 10 |}.

(** All 52 cards of the deck have been dealt. *)
Definition exhausted : game :=
  set_usedCardsArr deck start.

(** The sample state of CFR.js before the flop: the two hole cards
    only, and "call" not allowed. *)
Definition preflop : CFR.GameState :=
  {| CFR.playerHand := CFR.playerHand CFR.getCurrentState;
     CFR.communityCards := [];
     CFR.potSize := of_Z 40;
     CFR.playerBet := of_Z 10;
     CFR.remainingPlayers := of_Z 3;
     CFR.canCheck := true;
     CFR.canCall := false;
     CFR.canRaise := true;
     CFR.canAllIn := true;
     CFR.canFold := true;
     CFR.raiseAmount := of_Z 20;
     CFR.playerStack := of_Z 1000;
     CFR.cardsDealt := of_Z 2 |}.

End Table.

(* ===================================================================== *)
(** * Properties *)
(* ===================================================================== *)

(** A decidable proposition about concrete data is settled by running its
    decision procedure. *)
Ltac by_compute :=
  match goal with
  | |- ?P => apply (@bool_decide_unpack P _); vm_compute; exact I
  end.

(** ** JavaScript numbers *)

Module NumFacts.

(** The special values behave as in JavaScript. *)
Lemma special_values :
  mul NegInf (Fin 0) = NaN
  ∧ mul NegInf (Fin (1 # 2)) = NegInf
  ∧ sub NegInf NegInf = NaN
  ∧ div (Fin 0) (Fin 0) = NaN
  ∧ div (Fin 1) (Fin 0) = PosInf
  ∧ max2 NaN (Fin 0) = NaN
  ∧ lt (Fin 0) NaN = false
  ∧ gt (Fin 0) NegInf = true
  ∧ max_of [] = NegInf.
Proof. repeat split. Qed.

Lemma same_refl (x : num) : same x x.
Proof. destruct x; simpl; [reflexivity | done..]. Qed.

(** A product with minus infinity is never finite. *)
Lemma mul_NegInf (x : num) :
  mul NegInf x = NegInf ∨ mul NegInf x = PosInf ∨ mul NegInf x = NaN.
Proof.
  destruct x as [q| | |]; simpl; auto.
  destruct (q ?= 0)%Q; simpl; auto.
Qed.

End NumFacts.

(** ** Regret matching *)

Module RegretFacts.

(** *** [updateRegrets] *)

(** The update loop of the class, on any list of distinct actions. *)
Lemma update_loop_spec (cf : gmap string num) (reward : num)
    (acts : list string) (rs : gmap string num) :
  NoDup acts →
  let rs' :=
    foldl (λ rs action,
             <[action := add (CFR.get rs action)
                             (sub (CFR.get cf action) reward)]> rs)
          rs acts in
  ∀ a,
    rs' !! a =
      if decide (a ∈ acts)
      then Some (add (CFR.get rs a) (sub (CFR.get cf a) reward))
      else rs !! a.
Proof.
  intros Hnd. revert rs. induction Hnd as [|x acts Hx Hnd IH]; intros rs rs' a.
  - subst rs'. cbn [foldl]. rewrite decide_False; [done | apply not_elem_of_nil].
  - subst rs'. cbn [foldl]. rewrite IH. clear IH.
    destruct (decide (a ∈ acts)) as [Ha|Ha].
    + rewrite decide_True by (by apply elem_of_cons; right).
      assert (x ≠ a) by (intros ->; contradiction).
      unfold CFR.get at 1. by rewrite lookup_insert_ne.
    + destruct (decide (a = x)) as [->|Hne].
      * rewrite decide_True by (by apply elem_of_cons; left).
        by rewrite lookup_insert_eq.
      * rewrite decide_False by (rewrite elem_of_cons; tauto).
        by rewrite lookup_insert_ne.
Qed.

Lemma obj_get_set_eq (k : string) (v : num) (o : CFRScript.object) :
  CFRScript.obj_get (CFRScript.obj_set k v o) k = v.
Proof.
  induction o as [|[k' v'] o IH]; simpl.
  - by rewrite String.eqb_refl.
  - destruct (String.eqb_spec k k') as [->|Hne]; simpl.
    + by rewrite String.eqb_refl.
    + by destruct (String.eqb_spec k k').
Qed.

Lemma obj_get_set_ne (k k' : string) (v : num) (o : CFRScript.object) :
  k ≠ k' → CFRScript.obj_get (CFRScript.obj_set k v o) k' = CFRScript.obj_get o k'.
Proof.
  intros Hne. induction o as [|[k0 v0] o IH]; simpl.
  - by destruct (String.eqb_spec k' k); [subst|].
  - destruct (String.eqb_spec k k0) as [->|Hk]; simpl.
    + by destruct (String.eqb_spec k' k0); [subst|].
    + by rewrite IH.
Qed.

Lemma keys_obj_set_in (k : string) (v : num) (o : CFRScript.object) :
  k ∈ CFRScript.keys o → CFRScript.keys (CFRScript.obj_set k v o) = CFRScript.keys o.
Proof.
  unfold CFRScript.keys. induction o as [|[k0 v0] o IH]; simpl; intros Hin.
  - by apply elem_of_nil in Hin.
  - destruct (String.eqb_spec k k0) as [->|Hk]; simpl; [done|].
    f_equal. apply IH. apply elem_of_cons in Hin as [?|?]; done.
Qed.

(** The update loop of the script, over any list of distinct keys of the
    object. *)
Lemma script_loop_spec (cf : CFRScript.object) (reward : num)
    (ks : list string) (rs : CFRScript.object) :
  NoDup ks → ks ⊆ CFRScript.keys rs →
  let rs' :=
    foldl (λ rs a,
             CFRScript.obj_set a
               (add (CFRScript.obj_get rs a)
                    (sub (CFRScript.obj_get cf a) reward)) rs)
          rs ks in
  CFRScript.keys rs' = CFRScript.keys rs ∧
  ∀ a,
    CFRScript.obj_get rs' a =
      if decide (a ∈ ks)
      then add (CFRScript.obj_get rs a) (sub (CFRScript.obj_get cf a) reward)
      else CFRScript.obj_get rs a.
Proof.
  intros Hnd. revert rs.
  induction Hnd as [|x ks Hx Hnd IH]; intros rs Hsub rs'.
  - subst rs'. cbn [foldl]. split; [done|]. intros a.
    rewrite decide_False; [done | apply not_elem_of_nil].
  - subst rs'. cbn [foldl].
    set (rs1 := CFRScript.obj_set x _ rs).
    assert (Hk1 : CFRScript.keys rs1 = CFRScript.keys rs).
    { apply keys_obj_set_in, Hsub. by left. }
    destruct (IH rs1) as [Hkeys Hget].
    { rewrite Hk1. intros y Hy. apply Hsub. by right. }
    split; [by rewrite Hkeys|]. intros a. rewrite Hget.
    destruct (decide (a ∈ ks)) as [Ha|Ha].
    + rewrite decide_True by (by right).
      assert (x ≠ a) by (intros ->; contradiction).
      subst rs1. by rewrite obj_get_set_ne.
    + destruct (decide (a = x)) as [->|Hne].
      * rewrite decide_True by (by left). subst rs1. by rewrite obj_get_set_eq.
      * rewrite decide_False by (rewrite elem_of_cons; tauto).
        subst rs1. by rewrite obj_get_set_ne.
Qed.

(** C10. [updateRegrets] changes the cumulative regrets and nothing else:
    the strategy sums and the action list are the ones before the call,
    the regret of every action [a] has grown by
    [counterfactualRewards[a] - reward], and no other property of
    [regretSum] is touched. This holds for the method of [CFRPlayer] and
    for the function of the stand-alone script. *)
Theorem updateRegrets_only_regrets
    (this : CFR.CFRPlayer) (g : CFRScript.globals)
    (actionTaken : string) (reward : num)
    (counterfactualRewards : gmap string num)
    (counterfactualRewards' : CFRScript.object) :
  NoDup (CFR.actions this) →
  NoDup (CFRScript.keys (CFRScript.regretSum g)) →
  let this' := CFR.updateRegrets this actionTaken reward counterfactualRewards in
  let g' := CFRScript.updateRegrets g actionTaken reward counterfactualRewards' in
  (CFR.strategySum this' = CFR.strategySum this
   ∧ CFR.actions this' = CFR.actions this
   ∧ CFR.numActions this' = CFR.numActions this
   ∧ (∀ a, a ∈ CFR.actions this →
        CFR.regretSum this' !! a =
          Some (add (CFR.get (CFR.regretSum this) a)
                    (sub (CFR.get counterfactualRewards a) reward)))
   ∧ (∀ a, a ∉ CFR.actions this →
        CFR.regretSum this' !! a = CFR.regretSum this !! a))
  ∧
  (CFRScript.strategySum g' = CFRScript.strategySum g
   ∧ CFRScript.keys (CFRScript.regretSum g') = CFRScript.keys (CFRScript.regretSum g)
   ∧ (∀ a, a ∈ CFRScript.keys (CFRScript.regretSum g) →
        CFRScript.obj_get (CFRScript.regretSum g') a =
          add (CFRScript.obj_get (CFRScript.regretSum g) a)
              (sub (CFRScript.obj_get counterfactualRewards' a) reward))
   ∧ (∀ a, a ∉ CFRScript.keys (CFRScript.regretSum g) →
        CFRScript.obj_get (CFRScript.regretSum g') a =
          CFRScript.obj_get (CFRScript.regretSum g) a)).
Proof.
  intros Hnd Hnd' this' g'. split.
  - repeat split; try reflexivity.
    + intros a Ha. subst this'. simpl.
      rewrite (update_loop_spec _ _ _ _ Hnd). by rewrite decide_True.
    + intros a Ha. subst this'. simpl.
      rewrite (update_loop_spec _ _ _ _ Hnd). by rewrite decide_False.
  - destruct (script_loop_spec counterfactualRewards' reward _
                (CFRScript.regretSum g) Hnd' (reflexivity _)) as [Hk Hg].
    repeat split; try reflexivity.
    + exact Hk.
    + intros a Ha. subst g'. simpl. rewrite Hg. by rewrite decide_True.
    + intros a Ha. subst g'. simpl. rewrite Hg. by rewrite decide_False.
Qed.

Lemma updateRegrets_only_regrets_witness :
  let this' := CFR.updateRegrets CFR.constructor "call" (of_Z 1)
                 {["call" := of_Z 1; "fold" := of_Z (-2)]} in
  CFR.strategySum this' = CFR.strategySum CFR.constructor
  ∧ CFR.regretSum this' !! "fold" = Some (add (of_Z 0) (sub (of_Z (-2)) (of_Z 1))).
Proof.
  destruct (updateRegrets_only_regrets CFR.constructor CFRScript.initial
              "call" (of_Z 1) {["call" := of_Z 1; "fold" := of_Z (-2)]}
              [("check", of_Z 0)])
    as [(Hs & _ & _ & Hin & _) _].
  - by_compute.
  - by_compute.
  - split; [exact Hs|]. apply (Hin "fold").
    by_compute.
Defined.

End RegretFacts.

Module SelectFacts.

Section Walk.

(** A loop over the actions that accumulates [mass] and returns at the
    first action whose accumulated mass exceeds [r]. *)
Variables (mass : string → num) (r : num).
Variable loop : num → list string → option string.
Hypothesis loop_nil : ∀ c, loop c [] = None.
Hypothesis loop_cons : ∀ c a rest,
  loop c (a :: rest) =
    if lt r (add c (mass a)) then Some a else loop (add c (mass a)) rest.

Lemma take_mass (pre : list string) (a : string) (rest : list string) :
  Spec.cumulative_mass mass (pre ++ a :: rest) (S (length pre)) =
  add (Spec.cumulative_mass mass (pre ++ a :: rest) (length pre)) (mass a).
Proof.
  unfold Spec.cumulative_mass.
  rewrite (take_S_r _ _ a); [by rewrite foldl_app|].
  by rewrite lookup_app_r, Nat.sub_diag.
Qed.

Lemma walk_from (rest pre : list string) :
  loop (Spec.cumulative_mass mass (pre ++ rest) (length pre)) rest =
  i ← Spec.first_index
         (λ i, lt r (Spec.cumulative_mass mass (pre ++ rest) (S i)))
         (length pre) (length rest);
  (pre ++ rest) !! i.
Proof.
  revert pre. induction rest as [|a rest IH]; intros pre.
  - by rewrite loop_nil.
  - rewrite loop_cons. cbn [length Spec.first_index].
    rewrite take_mass.
    destruct (lt r _) eqn:Hlt.
    + simpl. by rewrite lookup_app_r, Nat.sub_diag.
    + specialize (IH (pre ++ [a])).
      rewrite <- app_assoc in IH. simpl in IH.
      rewrite length_app in IH. simpl in IH.
      rewrite Nat.add_1_r in IH. rewrite <- IH. by rewrite take_mass.
Qed.

Lemma walk (acts : list string) :
  loop (Fin 0) acts = Spec.first_exceeding mass r acts.
Proof. exact (walk_from acts []). Qed.

End Walk.

(** C9 (as amended). [selectAction] walks the actions in their declared
    order, adding up the probabilities from the left, and returns the
    first action whose cumulative mass exceeds the draw. When no
    cumulative mass exceeds the draw, the method of [CFRPlayer] returns
    the last action of its list, and the function of the stand-alone
    script returns "check". *)
Theorem selectAction_walk
    (this : CFR.CFRPlayer) (strategy : gmap string num)
    (strategy' : CFRScript.object) (r : num) :
  CFR.selectAction this strategy r =
    match Spec.first_exceeding (CFR.get strategy) r (CFR.actions this) with
    | Some action => Some action
    | None => last (CFR.actions this)
    end
  ∧ CFRScript.selectAction strategy' r =
      default "check"
        (Spec.first_exceeding (CFRScript.obj_get strategy') r
                              (CFRScript.keys strategy')).
Proof.
  split.
  - unfold CFR.selectAction.
    by rewrite (walk (CFR.get strategy) r
                  (CFR.selectAction_loop strategy r)).
  - unfold CFRScript.selectAction.
    by rewrite (walk (CFRScript.obj_get strategy') r
                  (CFRScript.selectAction_loop strategy' r)).
Qed.

(** C9, the statement refuted: a draw that no cumulative mass exceeds
    makes the stand-alone [selectAction] return "check", which is the
    first action of the strategy and not the last one, "allin". *)
Lemma selectAction_script_returns_first :
  let strategy : CFRScript.object :=
    [("check", Fin (1 # 4)); ("match", Fin (1 # 4));
     ("raise", Fin (1 # 4)); ("allin", Fin (1 # 5))] in
  let r := Fin (99 # 100) in
  Spec.first_exceeding (CFRScript.obj_get strategy) r (CFRScript.keys strategy)
    = None
  ∧ last (CFRScript.keys strategy) = Some "allin"
  ∧ CFRScript.selectAction strategy r = "check"
  ∧ CFRScript.selectAction strategy r ≠ "allin".
Proof. vm_compute. repeat split; discriminate. Qed.

End SelectFacts.

Module RewardFacts.

(** A card array that makes [calculateHandStrength] throw makes
    [calculateOuts] throw as well. *)
Lemma outs_throw_with_strength (hand community : list (option CFR.Card)) :
  CFR.calculateHandStrength hand community = None →
  CFR.calculateOuts hand community = None.
Proof.
  unfold CFR.calculateHandStrength, CFR.calculateOuts.
  generalize (hand ++ community). intros l H.
  destruct (mapM id l) as [cards|] eqn:Hm; [discriminate|]. clear H.
  assert (Hnone : mapM (λ card : option CFR.Card,
                          c ← card; s ← CFR.suit c; Some (CFR.toLowerCase s)) l
                  = None); [|by rewrite Hnone].
  induction l as [|[c|] l IH]; simpl in *.
  - discriminate.
  - destruct (mapM id l); [discriminate|].
    rewrite IH by done. by destruct (CFR.suit c).
  - done.
Qed.

(** C7 (as amended). When [canFold] is true, the estimated reward of
    "fold" is the negated bet of the player, scaled by
    [2 / remainingPlayers] when more than one player remains, and then by
    the improvement factor. It depends neither on the hand strength nor
    on the pot, the raise amount or the stack. *)
Theorem fold_reward (currentState : CFR.GameState) :
  CFR.canFold currentState = true →
  CFR.calculateReward currentState "fold" =
    (improvementFactor ← CFR.getImprovementFactor currentState;
     Some (mul (CFR.players_adjust (CFR.remainingPlayers currentState)
                  (neg (CFR.playerBet currentState)))
               improvementFactor)).
Proof.
  intros Hfold. unfold CFR.calculateReward.
  destruct (CFR.calculateHandStrength _ _) as [handStrength|] eqn:Hs; simpl.
  - unfold CFR.action_reward. simpl. by rewrite Hfold.
  - unfold CFR.getImprovementFactor.
    by rewrite (outs_throw_with_strength _ _ Hs).
Qed.

Lemma fold_reward_witness :
  CFR.canFold CFR.getCurrentState = true
  ∧ CFR.calculateReward CFR.getCurrentState "fold" =
      Some (mul (mul (neg (of_Z 10)) (div (of_Z 2) (of_Z 3)))
                (min2 (mul (div (of_Z 9) (sub (of_Z 52) (of_Z 5))) (of_Z 2))
                      (of_Z 1))).
Proof.
  split; [reflexivity|].
  rewrite (fold_reward CFR.getCurrentState); reflexivity.
Defined.

(** C7, the statement refuted: in the sample state of the script
    ([playerBet] 10, three remaining players, nine outs) the reward of
    "fold" is not -10. *)
Lemma fold_reward_is_scaled :
  CFR.canFold CFR.getCurrentState = true
  ∧ ∃ reward, CFR.calculateReward CFR.getCurrentState "fold" = Some reward
              ∧ ¬ same reward (neg (CFR.playerBet CFR.getCurrentState)).
Proof.
  split; [reflexivity|].
  eexists. split; [vm_compute; reflexivity|].
  vm_compute. discriminate.
Qed.

(** C8, the code at the failing input: "call" is not allowed before the
    flop, no suit occurs three or four times, so the improvement factor
    is 0 and the reward is minus infinity times 0, which is NaN. *)
Theorem illegal_action_reward_NaN :
  CFR.canCall Table.preflop = false
  ∧ (∃ factor, CFR.getImprovementFactor Table.preflop = Some factor
               ∧ same factor (Fin 0))
  ∧ CFR.calculateReward Table.preflop "call" = Some NaN.
Proof.
  split; [reflexivity|]. split; [|vm_compute; reflexivity].
  eexists. split; [vm_compute; reflexivity|]. vm_compute. reflexivity.
Qed.

(** The rewards object does carry minus infinity for every action that
    is not allowed. *)
Lemma counterfactual_rewards_illegal (this : CFR.CFRPlayer)
    (currentState : CFR.GameState) (rewards : gmap string num) (a : string) :
  CFR.calculateCounterfactualRewards this currentState = Some rewards →
  a ∈ CFR.actions this →
  CFR.isValidAction currentState a = false →
  rewards !! a = Some NegInf.
Proof.
  unfold CFR.calculateCounterfactualRewards.
  generalize (CFR.actions this). intros acts.
  assert (Hgen : ∀ (acc : option (gmap string num)) (rewards : gmap string num),
    foldl (λ acc action,
             rewards ← acc;
             if CFR.isValidAction currentState action
             then r ← CFR.calculateReward currentState action;
                  Some (<[action := r]> rewards)
             else Some (<[action := NegInf]> rewards)) acc acts = Some rewards →
    CFR.isValidAction currentState a = false →
    (a ∈ acts ∨ ∃ m, acc = Some m ∧ m !! a = Some NegInf) →
    rewards !! a = Some NegInf).
  { induction acts as [|x acts IH]; intros acc rw Hf Hinv Hin.
    - simpl in Hf. destruct Hin as [Hin|(m & -> & Hm)].
      + by apply elem_of_nil in Hin.
      + by inversion Hf; subst.
    - simpl in Hf. apply (IH _ _ Hf Hinv).
      destruct acc as [m|]; simpl in *.
      2:{ exfalso. clear -Hf. induction acts; simpl in *; [discriminate|auto]. }
      destruct (decide (a = x)) as [->|Hne].
      + right. rewrite Hinv. eexists. split; [done|]. by rewrite lookup_insert_eq.
      + destruct Hin as [Hin|(m' & [= <-] & Hm)].
        * left. apply elem_of_cons in Hin as [?|?]; done.
        * destruct (CFR.isValidAction currentState x).
          -- destruct (CFR.calculateReward currentState x) as [r|]; simpl.
             ++ right. eexists. split; [done|]. by rewrite lookup_insert_ne.
             ++ exfalso. clear -Hf. simpl in Hf.
                induction acts; simpl in *; [discriminate|auto].
          -- right. eexists. split; [done|]. by rewrite lookup_insert_ne. }
  intros Hf Hin Hinv. apply (Hgen _ _ Hf Hinv). by left.
Qed.

End RewardFacts.

(** ** The evaluation of a hand *)

Module EvaluateFacts.

Import Poker Frame.
Local Open Scope Z_scope.

Lemma foldl_kept {B} (f : game → B → game) (l : list B) (g : game) :
  (∀ g b, kept (f g b) = kept g) → kept (foldl f g l) = kept g.
Proof.
  intros Hf. revert g. induction l as [|b l IH]; intros g; simpl; [done|].
  by rewrite IH.
Qed.

Lemma foldl_kept_fst {B C} (f : game * C → B → game * C) (l : list B)
    (acc : game * C) :
  (∀ acc b, kept (f acc b).1 = kept acc.1) →
  kept (foldl f acc l).1 = kept acc.1.
Proof.
  intros Hf. revert acc. induction l as [|b l IH]; intros acc; simpl; [done|].
  by rewrite IH.
Qed.

Ltac split_cases :=
  repeat match goal with
         | |- context [if ?b then _ else _] => destruct b
         | |- context [match ?x with _ => _ end] => destruct x
         end.

Lemma value_step_kept valueArr iteration gameStep g i :
  kept (value_step valueArr iteration gameStep g i) = kept g.
Proof.
  unfold value_step, push_pair. split_cases; reflexivity.
Qed.

Lemma count_phase_kept valueArr iteration gameStep g :
  kept (count_phase valueArr iteration gameStep g) = kept g.
Proof.
  unfold count_phase.
  assert (H := foldl_kept (value_step valueArr iteration gameStep)
                 (seq 0 (length valueArr)) g
                 (λ g b, value_step_kept valueArr iteration gameStep g b)).
  split_cases; exact H.
Qed.

Lemma straight_step_kept cardIndexes iteration acc i :
  kept (straight_step cardIndexes iteration acc i).1 = kept acc.1.
Proof.
  unfold straight_step. destruct acc as [g r].
  destruct (cardIndexes !! i); [|done]. simpl.
  split_cases; reflexivity.
Qed.

Lemma window_step_kept valueArr iteration acc i :
  kept (window_step valueArr iteration acc i).1 = kept acc.1.
Proof.
  unfold window_step. destruct acc as [g r]. split_cases; reflexivity.
Qed.

Lemma straight_phase_kept cardIndexes valueArr iteration g :
  kept (straight_phase cardIndexes valueArr iteration g).1 = kept g.
Proof.
  unfold straight_phase.
  match goal with
  | |- context [foldl (straight_step ?c ?i) ?a ?l] =>
      assert (H1 := foldl_kept_fst (straight_step c i) l a
                      (straight_step_kept c i));
      destruct (foldl (straight_step c i) a l) as [g1 r1]
  end.
  match goal with
  | |- context [foldl (window_step ?v ?i) ?a ?l] =>
      assert (H2 := foldl_kept_fst (window_step v i) l a
                      (window_step_kept v i));
      destruct (foldl (window_step v i) a l) as [g2 s2]
  end.
  simpl in *. rewrite <- H1, <- H2. split_cases; reflexivity.
Qed.

Lemma category_phase_kept valueArr suitedArr straight iteration g :
  kept (category_phase valueArr suitedArr straight iteration g) = kept g.
Proof.
  unfold category_phase, raise_result. split_cases; reflexivity.
Qed.

Lemma closing_phase_kept valueArr iteration gameStep g :
  kept (closing_phase valueArr iteration gameStep g) = kept g.
Proof.
  unfold closing_phase.
  match goal with
  | |- context [foldl ?f g ?l] =>
      assert (H : kept (foldl f g l) = kept g);
      [apply foldl_kept; intros; split_cases; reflexivity|];
      generalize dependent (foldl f g l)
  end.
  intros g1 H. rewrite <- H. split_cases; reflexivity.
Qed.

Lemma evaluate_kept cardsArr iteration gameStep g :
  kept (evaluate cardsArr iteration gameStep g).1 = kept g.
Proof.
  unfold evaluate.
  destruct (straight_phase _ _ _ _) as [g1 r1] eqn:Hs. simpl.
  rewrite closing_phase_kept, category_phase_kept.
  change g1 with (g1, r1).1. rewrite <- Hs.
  by rewrite straight_phase_kept, count_phase_kept.
Qed.

(** *** The score of the evaluated player stays a category *)

Lemma scored_set_result k c g :
  0 <= c → (k < 4)%nat → scored k g → scored k (set_result k c g).
Proof.
  intros Hc Hk [Hlen _]. unfold scored, result, set_result. simpl.
  rewrite length_insert. split; [done|].
  rewrite list_lookup_total_insert_eq by lia. done.
Qed.

Ltac scored_tac :=
  repeat first
    [ assumption
    | match goal with
      | H : scored ?k ?g |- scored ?k ?g' =>
          first [ exact H
                | apply scored_set_result; [lia | assumption |] ]
      end ].

Lemma foldl_scored {B} k (f : game → B → game) (l : list B) (g : game) :
  (∀ g b, scored k g → scored k (f g b)) →
  scored k g → scored k (foldl f g l).
Proof.
  intros Hf. revert g. induction l as [|b l IH]; intros g Hg; simpl; auto.
Qed.

Lemma foldl_scored_fst {B C} k (f : game * C → B → game * C) (l : list B)
    (acc : game * C) :
  (∀ acc b, scored k acc.1 → scored k (f acc b).1) →
  scored k acc.1 → scored k (foldl f acc l).1.
Proof.
  intros Hf. revert acc. induction l as [|b l IH]; intros acc Hg; simpl; auto.
Qed.

Lemma value_step_scored valueArr k gameStep g i :
  (k < 4)%nat → scored k g → scored k (value_step valueArr k gameStep g i).
Proof.
  intros Hk Hg. unfold value_step, push_pair. cbv zeta.
  split_cases; scored_tac.
Qed.

Lemma count_phase_scored valueArr k gameStep g :
  (k < 4)%nat → scored k g → scored k (count_phase valueArr k gameStep g).
Proof.
  intros Hk Hg. unfold count_phase.
  assert (H := foldl_scored k (value_step valueArr k gameStep)
                 (seq 0 (length valueArr)) g
                 (λ g b, value_step_scored valueArr k gameStep g b Hk) Hg).
  cbv zeta. split_cases; scored_tac.
Qed.

Lemma straight_step_scored cardIndexes k acc i :
  (k < 4)%nat → scored k acc.1 → scored k (straight_step cardIndexes k acc i).1.
Proof.
  intros Hk Hg. unfold straight_step. destruct acc as [g r]. simpl in Hg.
  destruct (cardIndexes !! i); [|done]. cbv zeta. simpl.
  split_cases; scored_tac.
Qed.

Lemma window_step_scored valueArr k acc i :
  (k < 4)%nat → scored k acc.1 → scored k (window_step valueArr k acc i).1.
Proof.
  intros Hk Hg. unfold window_step. destruct acc as [g r]. simpl in Hg.
  split_cases; simpl; scored_tac.
Qed.

Lemma straight_phase_scored cardIndexes valueArr k g :
  (k < 4)%nat → scored k g →
  scored k (straight_phase cardIndexes valueArr k g).1.
Proof.
  intros Hk Hg. unfold straight_phase.
  match goal with
  | |- context [foldl (straight_step ?c ?i) ?a ?l] =>
      assert (H1 := foldl_scored_fst k (straight_step c i) l a
                      (λ acc b, straight_step_scored c k acc b Hk) Hg);
      destruct (foldl (straight_step c i) a l) as [g1 r1]
  end.
  match goal with
  | |- context [foldl (window_step ?v ?i) ?a ?l] =>
      assert (H2 := foldl_scored_fst k (window_step v i) l a
                      (λ acc b, window_step_scored v k acc b Hk) H1);
      destruct (foldl (window_step v i) a l) as [g2 s2]
  end.
  simpl in *. split_cases; scored_tac.
Qed.

Lemma category_phase_scored valueArr suitedArr straight k g :
  (k < 4)%nat → scored k g →
  scored k (category_phase valueArr suitedArr straight k g).
Proof.
  intros Hk Hg. unfold category_phase, raise_result. cbv zeta.
  split_cases; scored_tac.
Qed.

(** *** A single active player *)

Lemma inactive_loop_sole k g :
  (k < 4)%nat → length (resultList g) = 4%nat → activePlayers g = [k] →
  resultList
    (foldl (λ g i, if bool_decide (i ∈ activePlayers g) then g
                   else set_compare i (-1) (set_result i (-1) g))
           g (seq 0 4))
  = <[k := result k g]> [-1; -1; -1; -1].
Proof.
  intros Hk Hlen Hact. unfold result.
  destruct g as [ph cc used rl cmp act phc psh p1 p2 p3 p4 bhc th pot pm st lm mbt gi mb db nt].
  simpl in Hlen, Hact. subst act.
  destruct rl as [|a [|b [|c [|d [|]]]]]; try discriminate.
  destruct k as [|[|[|[|]]]]; try lia; vm_compute; reflexivity.
Qed.

(** After the evaluation of the only active player, [resultList] holds
    the category of that player and -1 elsewhere. *)
Lemma closing_phase_sole valueArr k gameStep g :
  (k < 4)%nat → scored k g → activePlayers g = [k] →
  ∃ r, 0 <= r
       ∧ resultList (closing_phase valueArr k gameStep g)
         = <[k := r]> [-1; -1; -1; -1].
Proof.
  intros Hk [Hlen Hr] Hact. exists (result k g). split; [done|].
  rewrite <- (inactive_loop_sole k g Hk Hlen Hact).
  unfold closing_phase. cbv zeta. split_cases; reflexivity.
Qed.

Lemma evaluate_sole cardsArr k gameStep g :
  (k < 4)%nat → scored k g → activePlayers g = [k] →
  ∃ r, 0 <= r
       ∧ resultList (evaluate cardsArr k gameStep g).1
         = <[k := r]> [-1; -1; -1; -1].
Proof.
  intros Hk Hg Hact. unfold evaluate.
  destruct (straight_phase _ _ _ _) as [g1 r1] eqn:Hs. simpl.
  assert (Hg1 : scored k g1 ∧ kept g1 = kept g).
  { change g1 with (g1, r1).1. rewrite <- Hs. split.
    - by apply straight_phase_scored, count_phase_scored.
    - by rewrite straight_phase_kept, count_phase_kept. }
  destruct Hg1 as [Hg1 Hk1].
  apply closing_phase_sole; [done| |].
  - by apply category_phase_scored.
  - assert (H := category_phase_kept (valueArr_of cardsArr)
                   (suitedArr_of cardsArr) (straight r1) k g1).
    rewrite Hk1 in H. unfold kept in H. congruence.
Qed.

Lemma sole_result_max k r :
  (k < 4)%nat → 0 <= r →
  let l := <[k := r]> [-1; -1; -1; -1] in
  Math_max l = N r
  ∧ getOccurrence l (N r) = 1
  ∧ indexOf_val l (N r) = Z.of_nat k.
Proof.
  intros Hk Hr.
  destruct k as [|[|[|[|]]]]; try lia; simpl; unfold getOccurrence.
  all: repeat split.
  all: try (f_equal; lia).
  all: unfold indexOf_val, indexOf; simpl;
       repeat (rewrite filter_cons; simpl);
       repeat case_decide; simplify_eq; try lia; try reflexivity.
Qed.

Lemma showdown_sole k r g :
  (k < 4)%nat → 0 <= r → resultList g = <[k := r]> [-1; -1; -1; -1] →
  showdown g = Some (set_topHand (N (Z.of_nat k)) g, false).
Proof.
  intros Hk Hr Hres. unfold showdown. rewrite Hres.
  destruct (sole_result_max k r Hk Hr) as (-> & -> & ->). reflexivity.
Qed.

(** The betting part on the river, for the last active player. *)
Lemma betting_part_river valueArr suitedArr r k g :
  k ∈ activePlayers g →
  betting_part valueArr suitedArr r k 4 (Some k) g =
    (let g := if (3 <=? result k g) && negb (k =? 0)%nat
              then set_dblBets true g else g in
     g ← (if decide (topHand g = N 0) then Some (youWin false g)
          else youLose (topHand g) g);
     showPlayersCards g).
Proof.
  intros Hin. unfold betting_part.
  rewrite (bool_decide_true (k ∈ activePlayers g)) by done.
  rewrite (bool_decide_true (Some k = Some k)) by done.
  reflexivity.
Qed.

(** C2. When exactly one player is active, the showdown names that
    player the winner whatever the hand is worth and whichever of the
    seats 0 to 3 it is: [topHand] is that player, no split is declared
    and the pot is left whole. For player 0 the message is "You Won"
    with the full pot, which is added to the balance; for another player
    the panel of that player is marked as the winner. *)
Theorem sole_active_player_wins (k : nat) (g : game) :
  (k < 4)%nat →
  activePlayers g = [k] →
  scored k g →
  length (playersHands g) = 4%nat →
  (∀ i, (i < 5)%nat → array_get (communityCards g) i ≠ Undefined) →
  ∃ g', evaluateHand k 4 g = Some g'
        ∧ topHand g' = N (Z.of_nat k)
        ∧ thePot g' = thePot g
        ∧ notices g' =
            (if decide (k = 0%nat) then YouWon (thePot g) else YouLost k)
              :: notices g
        ∧ playerMoney g' =
            if decide (k = 0%nat) then (playerMoney g + thePot g)%Q
            else playerMoney g.
Proof.
  intros Hk Hact Hscore Hhands Hcards. unfold evaluateHand.
  destruct (lookup_lt_is_Some_2 (playersHands g) k) as [hand Hhand]; [lia|].
  rewrite Hhand. cbn [mbind option_bind].
  assert (Hdef : existsb is_Undefined (cardsArr_of hand 4 g) = false).
  { unfold cardsArr_of. simpl. rewrite !orb_false_iff.
    repeat split; try reflexivity.
    all: match goal with
         | |- is_Undefined (array_get _ ?i) = false =>
             specialize (Hcards i ltac:(lia));
             destruct (array_get (communityCards g) i); done
         end. }
  rewrite Hdef.
  destruct (evaluate (cardsArr_of hand 4 g) k 4 g) as [g1 r1] eqn:He.
  assert (Hkept : kept g1 = kept g).
  { change g1 with (g1, r1).1. rewrite <- He. apply evaluate_kept. }
  destruct (evaluate_sole (cardsArr_of hand 4 g) k 4 g Hk Hscore Hact)
    as (r & Hr & Hres).
  rewrite He in Hres. simpl in Hres.
  unfold kept in Hkept. injection Hkept as Hpot Hmoney Hnot Hact1 Hhands1.
  rewrite Hact. cbn [last]. rewrite bool_decide_true by done.
  change (4 =? 4) with true. cbn [andb].
  rewrite (showdown_sole k r g1 Hk Hr Hres). cbn [mbind option_bind].
  rewrite betting_part_river
    by (change (k ∈ activePlayers g1); rewrite Hact1, Hact; by left).
  cbv zeta.
  match goal with
  | |- context [youLose _ ?x] => set (g2 := x)
  end.
  assert (Hg2 : topHand g2 = N (Z.of_nat k) ∧ thePot g2 = thePot g
                ∧ playerMoney g2 = playerMoney g ∧ notices g2 = notices g
                ∧ length (playersHands g2) = 4%nat).
  { rewrite <- Hpot, <- Hmoney, <- Hnot, <- Hhands, <- Hhands1.
    subst g2. split_cases; done. }
  clearbody g2. destruct Hg2 as (Htop & Hpot2 & Hmoney2 & Hnot2 & Hhands2).
  rewrite Htop. destruct (decide (k = 0%nat)) as [->|Hne].
  - rewrite decide_True by done. cbn [mbind option_bind].
    unfold showPlayersCards. cbn [playersHands youWin set_playerMoney set_notices].
    rewrite Hhands2. cbn [Nat.leb].
    eexists. split; [reflexivity|]. simpl.
    rewrite Htop, Hpot2, Hmoney2, Hnot2. done.
  - rewrite decide_False by (intros [=]; lia).
    unfold youLose.
    replace ((0 <=? Z.of_nat k) && (Z.of_nat k <? 4)) with true
      by (symmetry; apply andb_true_iff; split; lia).
    cbn [mbind option_bind]. unfold showPlayersCards.
    cbn [playersHands set_notices]. rewrite Hhands2. cbn [Nat.leb].
    eexists. split; [reflexivity|]. simpl.
    rewrite Htop, Hpot2, Hmoney2, Hnot2, Nat2Z.id. done.
Qed.

(** *** Split pots *)

Lemma youWin_split g0 g :
  kept g = kept g0 → split_declared g0 (youWin true g).
Proof.
  unfold kept, split_declared. intros [= Hpot Hmoney Hnot Hact _]. simpl.
  by rewrite Hpot, Hmoney, Hnot, Hact.
Qed.

Lemma showPlayersCards_Some g g' : showPlayersCards g = Some g' → g' = g.
Proof. unfold showPlayersCards. by destruct (_ <=? _)%nat; intros [=]. Qed.

Lemma straight_tie_outcome g g' b :
  straight_tie g = Some (g', b) →
  if b then split_declared g g' else kept g' = kept g.
Proof.
  unfold straight_tie. cbv zeta.
  destruct (_ && _).
  - destruct (showPlayersCards _) as [g2|] eqn:Hs; [|discriminate].
    intros [= <- <-]. apply showPlayersCards_Some in Hs as ->.
    by apply youWin_split.
  - by intros [= <- <-].
Qed.

Lemma two_pair_tie_kept g : kept (two_pair_tie g) = kept g.
Proof.
  unfold two_pair_tie. cbv zeta.
  assert (Hstep : ∀ (x : jsval) (fill : list Z) (l : list nat)
                    (acc : game * list (list Z)),
    kept (foldl (λ '(g, pwp) i,
                   if bool_decide (indexOf_val (pwp !!! i) x ≠ -1) then (g, pwp)
                   else (set_result i (-1) (set_compare i (-1) g),
                         <[i := fill]> pwp)) acc l).1 = kept acc.1).
  { intros x fill l. induction l as [|i l IH]; intros [g0 pwp]; [done|].
    simpl. rewrite IH. by destruct (bool_decide _). }
  match goal with
  | |- context [foldl ?f (g, ?p) (seq 0 4)] =>
      assert (H1 := Hstep (Math_max (plyr1Pair g ++ plyr2Pair g ++ plyr3Pair g
                                     ++ plyr4Pair g)) [] (seq 0 4) (g, p));
      destruct (foldl f (g, p) (seq 0 4)) as [g1 pwp1]
  end.
  rewrite Hstep. exact H1.
Qed.

Lemma hole_loop_outcome multiWinMax rest : ∀ hiHole lowHole g0 g g' b,
  kept g = kept g0 →
  hole_loop multiWinMax hiHole lowHole rest g = Some (g', b) →
  if b then split_declared g0 g' else kept g' = kept g0.
Proof.
  induction rest as [|i rest IH]; intros hiHole lowHole g0 g g' b Hk; simpl.
  - by intros [= <- <-].
  - destruct (bestHoleCards g !!! i) as [lo hi]. intros H.
    repeat match type of H with
           | context [if ?c then _ else _] => destruct c; cbn beta iota in H
           end.
    all: try (destruct (showPlayersCards _) as [g2|] eqn:Hs; [|discriminate];
              injection H as <- <-; apply showPlayersCards_Some in Hs as ->;
              by apply youWin_split).
    all: by eapply IH; [|exact H]; rewrite <- Hk.
Qed.

Lemma drop_losers_kept winningHand g g' :
  drop_losers winningHand g = Some g' → kept g' = kept g.
Proof.
  unfold drop_losers. generalize (seq 0 (length (resultList g))). intros l.
  assert (Hgen : ∀ (acc : option game) g1,
    foldl (λ acc i,
             g ← acc;
             if bool_decide (N (resultList g !!! i) = winningHand) then Some g
             else if (i <? length (bestHoleCards g))%nat
                  then Some (set_bestHoleCards
                               (<[i := (-1, -1)]> (bestHoleCards g))
                               (set_compare i (-1) g))
                  else None) acc l = Some g1 →
    ∃ g0, acc = Some g0 ∧ kept g1 = kept g0).
  { induction l as [|i l IH]; intros acc g1; simpl.
    - intros ->. eauto.
    - intros Hf. destruct (IH _ _ Hf) as (g2 & Hacc & Hk).
      destruct acc as [g0|]; [|discriminate]. exists g0. split; [done|].
      rewrite Hk. simpl in Hacc.
      destruct (bool_decide _); [by injection Hacc as <-|].
      destruct (_ <? _)%nat; [by injection Hacc as <-|discriminate]. }
  intros Hf. by destruct (Hgen _ _ Hf) as (g0 & [= <-] & ?).
Qed.

Lemma hole_card_tie_outcome g0 g g' b :
  kept g = kept g0 →
  hole_card_tie g = Some (g', b) →
  if b then split_declared g0 g' else kept g' = kept g0.
Proof.
  intros Hk. unfold hole_card_tie.
  destruct (mapM _ _) as [winnersList|]; [|discriminate].
  cbn [mbind option_bind]. cbv zeta.
  destruct (1 <? _).
  - by apply hole_loop_outcome.
  - by intros [= <- <-].
Qed.

(** The showdown either declares a split, or changes neither the pot
    nor the balance nor the messages. *)
Lemma showdown_outcome g g' b :
  showdown g = Some (g', b) →
  if b then split_declared g g' else kept g' = kept g.
Proof.
  unfold showdown. cbv zeta.
  destruct (_ =? 1); [by intros [= <- <-]|].
  destruct (drop_losers _ g) as [g1|] eqn:Hd; [|discriminate].
  apply drop_losers_kept in Hd. cbn [mbind option_bind].
  destruct (1 <? _); [|intros [= <- <-]; by rewrite <- Hd].
  match goal with
  | |- context [set_topHand ?t g1] => set (g2 := set_topHand t g1)
  end.
  assert (H2 : kept g2 = kept g) by (by rewrite <- Hd).
  clearbody g2.
  assert (Htie : ∀ g3 : game, kept g3 = kept g →
            hole_card_tie (if decide (Math_max (resultList g) = N 2)
                           then two_pair_tie g3 else g3) = Some (g', b) →
            if b then split_declared g g' else kept g' = kept g).
  { intros g3 H3. apply hole_card_tie_outcome.
    destruct (decide _); [by rewrite two_pair_tie_kept|done]. }
  destruct (decide (Math_max (resultList g) = N 4)).
  - destruct (straight_tie g2) as [[g3 [|]]|] eqn:Hst; [| |discriminate];
      cbn [mbind option_bind]; apply straight_tie_outcome in Hst.
    + intros [= <- <-].
      unfold split_declared, kept in *. injection H2 as <- <- <- <- _. done.
    + apply Htie. by rewrite Hst.
  - cbn [mbind option_bind]. by apply Htie.
Qed.

Lemma no_split_since_refl g g' : notices g' = notices g → no_split_since g g'.
Proof. intros H. by exists []. Qed.

Lemma no_split_since_trans g1 g2 g3 :
  no_split_since g1 g2 → no_split_since g2 g3 → no_split_since g1 g3.
Proof.
  intros (l1 & H1 & F1) (l2 & H2 & F2). exists (l2 ++ l1).
  rewrite H2, H1, app_assoc. split; [done|].
  rewrite forallb_app. by rewrite F1, F2.
Qed.

Lemma removeActivePlyr_no_split plyrID g :
  no_split_since g (removeActivePlyr plyrID g).
Proof.
  unfold removeActivePlyr. cbv zeta. destruct (loosely_zero _).
  - eexists [_]. split; reflexivity.
  - by apply no_split_since_refl.
Qed.

Lemma fold_checking_no_split g : no_split_since g (fold_checking g).
Proof.
  unfold fold_checking. destruct (bool_decide _); [|by apply no_split_since_refl].
  generalize (filter (λ p, status g !! p = Some checking)
                     (seq 0 (length (status g)))).
  intros l. revert g. induction l as [|p l IH]; intros g; simpl.
  - by apply no_split_since_refl.
  - eapply no_split_since_trans; [|apply IH].
    eapply no_split_since_trans; [apply (removeActivePlyr_no_split p)|].
    by apply no_split_since_refl.
Qed.

Lemma betting_part_no_split valueArr suitedArr r iteration gameStep last g g' :
  betting_part valueArr suitedArr r iteration gameStep last g = Some g' →
  no_split_since g g'.
Proof.
  unfold betting_part. cbv zeta.
  destruct (bool_decide (iteration ∈ activePlayers g));
    [|intros [= <-]; by apply no_split_since_refl].
  match goal with
  | |- (if ?c then Some (fold_checking ?x) else _) = _ → _ =>
      destruct c;
      [intros [= <-];
       eapply no_split_since_trans; [|apply fold_checking_no_split];
       apply no_split_since_refl; split_cases; reflexivity|]
  end.
  match goal with
  | |- (if ?c then Some (fold_checking ?x) else _) = _ → _ =>
      destruct c
  end.
  { intros [= <-].
    eapply no_split_since_trans; [|apply fold_checking_no_split].
    apply no_split_since_refl. split_cases; reflexivity. }
  match goal with
  | |- (if ?c then _ else Some ?x) = _ → _ =>
      set (g1 := x);
      assert (H1 : notices g1 = notices g)
        by (subst g1; split_cases; reflexivity);
      clearbody g1; destruct c
  end.
  2:{ intros [= <-]. by apply no_split_since_refl. }
  destruct (decide (topHand g1 = N 0)); cbn [mbind option_bind].
  - intros Hs. apply showPlayersCards_Some in Hs as ->.
    exists [YouWon (thePot g1)]. simpl. by rewrite H1.
  - unfold youLose. destruct (topHand g1) as [| |z]; try discriminate.
    destruct (_ && _); [|discriminate]. cbn [mbind option_bind].
    intros Hs. apply showPlayersCards_Some in Hs as ->.
    exists [YouLost (Z.to_nat z)]. simpl. by rewrite H1.
Qed.

(** Whenever [evaluateHand] declares a split pot, the pot is halved and
    that half is what the message shows and what is added to the balance
    of player 0; no other player is credited. *)
Theorem split_pot_pays_half (iteration : nat) (gameStep : Z) (g g' : game)
    (won : Q) :
  evaluateHand iteration gameStep g = Some g' →
  notices g' = SplitPot won :: notices g →
  won = (thePot g / 2)%Q
  ∧ thePot g' = (thePot g / 2)%Q
  ∧ playerMoney g' = (playerMoney g + thePot g / 2)%Q.
Proof.
  unfold evaluateHand.
  destruct (playersHands g !! iteration) as [hand|]; [|discriminate].
  cbn [mbind option_bind]. destruct (existsb _ _); [discriminate|]. cbv zeta.
  destruct (evaluate _ _ _ g) as [g1 r1] eqn:He.
  assert (Hk : kept g1 = kept g).
  { change g1 with (g1, r1).1. rewrite <- He. apply evaluate_kept. }
  assert (Hquiet : ∀ g2 valueArr,
            kept g2 = kept g →
            betting_part valueArr (suitedArr_of (cardsArr_of hand gameStep g))
              r1 iteration gameStep (last (activePlayers g)) g2 = Some g' →
            notices g' = SplitPot won :: notices g → False).
  { intros g2 valueArr H2 Hb Hn.
    destruct (betting_part_no_split _ _ _ _ _ _ _ _ Hb) as (l & Hl & Hf).
    assert (Hn2 : notices g2 = notices g) by (unfold kept in H2; congruence).
    rewrite Hn2, Hn in Hl.
    change (SplitPot won :: notices g) with ([SplitPot won] ++ notices g) in Hl.
    apply app_inv_tail in Hl. subst l. discriminate. }
  destruct (_ && _).
  - destruct (showdown g1) as [[g2 returned]|] eqn:Hs; [|discriminate].
    cbn [mbind option_bind]. apply showdown_outcome in Hs.
    destruct returned.
    + intros [= <-] Hn. destruct Hs as (Hpot & Hmoney & Hnot & _).
      unfold kept in Hk. injection Hk as Hp Hm Hno _ _.
      rewrite Hpot, Hmoney, Hp, Hm. repeat split.
      rewrite Hnot, Hno, Hp in Hn. by injection Hn as <-.
    + intros Hb Hn. exfalso. eapply Hquiet; [|exact Hb|exact Hn].
      by rewrite Hs.
  - intros Hb Hn. exfalso. by eapply Hquiet.
Qed.

(** *** The active players only ever leave *)

Lemma removeActivePlyr_active plyrID g :
  (length (activePlayers (removeActivePlyr plyrID g))
   ≤ length (activePlayers g))%nat.
Proof.
  unfold removeActivePlyr. cbv zeta.
  destruct (loosely_zero _); simpl; apply length_filter.
Qed.

Lemma fold_checking_active g :
  (length (activePlayers (fold_checking g)) ≤ length (activePlayers g))%nat.
Proof.
  unfold fold_checking. destruct (bool_decide _); [|done].
  generalize (filter (λ p, status g !! p = Some checking)
                     (seq 0 (length (status g)))).
  intros l. revert g. induction l as [|p l IH]; intros g; simpl; [done|].
  etrans; [apply IH|]. apply (removeActivePlyr_active p g).
Qed.

Lemma betting_part_active valueArr suitedArr r iteration gameStep last g g' :
  betting_part valueArr suitedArr r iteration gameStep last g = Some g' →
  (length (activePlayers g') ≤ length (activePlayers g))%nat.
Proof.
  unfold betting_part. cbv zeta.
  destruct (bool_decide (iteration ∈ activePlayers g)); [|by intros [= <-]].
  match goal with
  | |- (if ?c then Some (fold_checking ?x) else _) = _ → _ =>
      assert (Hx : activePlayers x = activePlayers g)
        by (split_cases; reflexivity);
      destruct c
  end.
  { intros [= <-]. rewrite <- Hx. apply fold_checking_active. }
  clear Hx.
  match goal with
  | |- (if ?c then Some (fold_checking ?x) else _) = _ → _ =>
      assert (Hx : activePlayers x = activePlayers g)
        by (split_cases; reflexivity);
      destruct c
  end.
  { intros [= <-]. rewrite <- Hx. apply fold_checking_active. }
  clear Hx.
  match goal with
  | |- (if ?c then _ else Some ?x) = _ → _ =>
      set (g1 := x);
      assert (H1 : activePlayers g1 = activePlayers g)
        by (subst g1; split_cases; reflexivity);
      clearbody g1; destruct c
  end.
  2:{ intros [= <-]. by rewrite H1. }
  destruct (decide (topHand g1 = N 0)); cbn [mbind option_bind].
  - intros Hs. apply showPlayersCards_Some in Hs as ->. simpl. by rewrite H1.
  - unfold youLose. destruct (topHand g1) as [| |z]; try discriminate.
    destruct (_ && _); [|discriminate]. cbn [mbind option_bind].
    intros Hs. apply showPlayersCards_Some in Hs as ->. simpl. by rewrite H1.
Qed.

Lemma evaluateHand_active iteration gameStep g g' :
  evaluateHand iteration gameStep g = Some g' →
  (length (activePlayers g') ≤ length (activePlayers g))%nat.
Proof.
  unfold evaluateHand.
  destruct (playersHands g !! iteration) as [hand|]; [|discriminate].
  cbn [mbind option_bind]. destruct (existsb _ _); [discriminate|]. cbv zeta.
  destruct (evaluate _ _ _ g) as [g1 r1] eqn:He.
  assert (Hk : activePlayers g1 = activePlayers g).
  { assert (H : kept g1 = kept g)
      by (change g1 with (g1, r1).1; rewrite <- He; apply evaluate_kept).
    unfold kept in H. congruence. }
  destruct (_ && _).
  - destruct (showdown g1) as [[g2 returned]|] eqn:Hs; [|discriminate].
    cbn [mbind option_bind]. apply showdown_outcome in Hs.
    destruct returned.
    + intros [= <-]. destruct Hs as (_ & _ & _ & ->). by rewrite Hk.
    + intros Hb. apply betting_part_active in Hb.
      unfold kept in Hs. injection Hs as _ _ _ Hact _. congruence.
  - intros Hb. apply betting_part_active in Hb. congruence.
Qed.

(** The loop of [match] over the active players has left after as many
    rounds as there were active players on entry: further rounds change
    nothing. *)
Lemma evaluate_active_rounds gameStep rounds : ∀ i evaled g more,
  (length (activePlayers g) ≤ i + rounds)%nat →
  evaluate_active (rounds + more) i evaled gameStep g
  = evaluate_active rounds i evaled gameStep g.
Proof.
  induction rounds as [|rounds IH]; intros i evaled g more Hlen.
  - simpl. destruct more as [|more]; [done|]. simpl.
    by rewrite lookup_ge_None_2 by lia.
  - simpl. destruct (activePlayers g !! i) as [player|]; [|done].
    destruct (bool_decide _).
    + apply IH. lia.
    + destruct (evaluateHand player gameStep g) as [g'|] eqn:He; [|done].
      cbn [mbind option_bind]. apply IH.
      apply evaluateHand_active in He. lia.
Qed.

(** *** Supporting facts *)

(** The entry pushed onto [bestHoleCards] before the flop is the pair of
    the indexes of the two hole cards, lower first. *)
Lemma tempObj_hole_cards (c0 c1 : card) :
  tempObj_of (valueArr_of [Obj c0; Obj c1])
  = (indexOf cardHeirarchy (value c0) `min` indexOf cardHeirarchy (value c1),
     indexOf cardHeirarchy (value c0) `max` indexOf cardHeirarchy (value c1)).
Proof.
  destruct c0 as [s0 v0], c1 as [s1 v1]. destruct v0, v1; reflexivity.
Qed.

(** When the fold of an opponent leaves player 0 alone, [removeActivePlyr]
    declares the win at once: the whole pot goes to the balance. *)
Lemma last_opponent_folds (plyrID : nat) (g : game) :
  filter (λ p, p ≠ plyrID) (activePlayers g) = [0%nat] →
  let g' := removeActivePlyr plyrID g in
  activePlayers g' = [0%nat]
  ∧ thePot g' = thePot g
  ∧ playerMoney g' = (playerMoney g + thePot g)%Q
  ∧ notices g' = YouWon (thePot g) :: notices g.
Proof.
  intros Hf. unfold removeActivePlyr. cbv zeta. simpl. rewrite Hf. done.
Qed.

End EvaluateFacts.

(** ** Drawing cards *)

Module DrawFacts.

Import Poker Frame.

Lemma fresh_picks_used deck used n c gens :
  deck !! n = Some c → c ∈ used →
  fresh_picks deck used (n :: gens) = fresh_picks deck used gens.
Proof.
  intros Hn Hc. unfold fresh_picks. simpl. rewrite Hn. simpl.
  by rewrite filter_cons_False by (intros H; by apply H).
Qed.

Lemma fresh_picks_new deck used n c gens :
  deck !! n = Some c → c ∉ used →
  length (fresh_picks deck used (n :: gens))
  = S (length (fresh_picks deck (used ++ [c]) gens)).
Proof.
  intros Hn Hc. unfold fresh_picks. simpl. rewrite Hn. simpl.
  rewrite filter_cons_True by done.
  set (L := omap (λ n, deck !! n) gens).
  change (S (length ?l)) with (length (c :: l)).
  apply Permutation_length, NoDup_Permutation.
  - apply NoDup_remove_dups.
  - constructor; [|apply NoDup_remove_dups].
    rewrite elem_of_remove_dups, list_elem_of_filter, elem_of_app.
    intros [H _]. apply H. right. by left.
  - intros x. rewrite elem_of_remove_dups, !elem_of_cons, elem_of_remove_dups.
    rewrite !list_elem_of_filter, elem_of_app, list_elem_of_singleton.
    destruct (decide (x = c)) as [->|Hne]; [tauto|]. tauto.
Qed.

Lemma fresh_picks_unused deck used gens :
  length (fresh_picks deck used gens) ≤ length (unused deck used).
Proof.
  apply submseteq_length, NoDup_submseteq; [apply NoDup_remove_dups|].
  intros x. unfold fresh_picks, unused.
  rewrite elem_of_remove_dups, !list_elem_of_filter.
  intros [Hx Hin]. split; [done|].
  apply list_elem_of_omap in Hin as (n & _ & Hn).
  by eapply list_elem_of_lookup_2.
Qed.

(** The loop leaves exactly when the numbers supplied pick enough
    distinct unused cards. *)
Lemma buildCommunityCards_picks deck howMany gens : ∀ g,
  Forall (λ n, n < length deck) gens →
  if decide (missing howMany g ≤ length (fresh_picks deck (usedCardsArr g) gens))
  then ∃ g' rest,
         buildCommunityCards deck deck howMany gens g = Drawn g' rest
         ∧ length (communityCards g') = howMany `max` length (communityCards g)
  else buildCommunityCards deck deck howMany gens g = Pending.
Proof.
  induction gens as [|n gens IH]; intros g Hrange.
  - unfold missing, fresh_picks. simpl.
    destruct (length (communityCards g) <? howMany) eqn:Hlt.
    + apply Nat.ltb_lt in Hlt. rewrite decide_False by lia. done.
    + apply Nat.ltb_ge in Hlt. rewrite decide_True by lia.
      eexists _, _. split; [done|]. lia.
  - apply Forall_cons in Hrange as [Hn Hrange].
    destruct (lookup_lt_is_Some_2 deck n Hn) as [c Hc].
    cbn [buildCommunityCards]. rewrite Hc.
    destruct (length (communityCards g) <? howMany) eqn:Hlt.
    2:{ apply Nat.ltb_ge in Hlt. unfold missing.
        rewrite decide_True by lia. eexists _, _. split; [done|]. lia. }
    apply Nat.ltb_lt in Hlt.
    destruct (decide (c ∈ usedCardsArr g)) as [Hused|Hnew].
    + rewrite bool_decide_true by done.
      rewrite (fresh_picks_used _ _ _ _ _ Hc Hused). by apply IH.
    + rewrite bool_decide_false by done.
      set (g1 := set_usedCardsArr _ _).
      specialize (IH g1 Hrange).
      assert (Hm : missing howMany g = S (missing howMany g1)).
      { unfold missing. subst g1. simpl. rewrite length_app. simpl. lia. }
      assert (Hf := fresh_picks_new deck (usedCardsArr g) n c gens Hc Hnew).
      change (usedCardsArr g ++ [c]) with (usedCardsArr g1) in Hf.
      rewrite Hm, Hf.
      destruct (decide (missing howMany g1 ≤ _)) as [Hle|Hgt].
      * rewrite decide_True by lia.
        destruct IH as (g' & rest & Hb & Hlen). exists g', rest.
        split; [done|]. rewrite Hlen. subst g1. simpl.
        rewrite length_app. simpl. lia.
      * rewrite decide_False by lia. done.
Qed.

(** The loop of [generatePlayer] likewise, for the two hole cards. *)
Lemma draw_hole_cards_picks deck gens : ∀ playersCards g,
  Forall (λ n, n < length deck) gens →
  if decide (2 - length playersCards
             ≤ length (fresh_picks deck (usedCardsArr g) gens))
  then ∃ hole g' rest,
         draw_hole_cards deck deck playersCards gens g = Drawn (hole, g') rest
         ∧ length hole = 2 `max` length playersCards
  else draw_hole_cards deck deck playersCards gens g = Pending.
Proof.
  induction gens as [|n gens IH]; intros playersCards g Hrange.
  - unfold fresh_picks. simpl.
    destruct (length playersCards <? 2) eqn:Hlt.
    + apply Nat.ltb_lt in Hlt. rewrite decide_False by lia. done.
    + apply Nat.ltb_ge in Hlt. rewrite decide_True by lia.
      eexists _, _, _. split; [done|]. lia.
  - apply Forall_cons in Hrange as [Hn Hrange].
    destruct (lookup_lt_is_Some_2 deck n Hn) as [c Hc].
    cbn [draw_hole_cards]. rewrite Hc.
    destruct (length playersCards <? 2) eqn:Hlt.
    2:{ apply Nat.ltb_ge in Hlt.
        rewrite decide_True by lia. eexists _, _, _. split; [done|]. lia. }
    apply Nat.ltb_lt in Hlt.
    destruct (decide (c ∈ usedCardsArr g)) as [Hused|Hnew].
    + rewrite bool_decide_true by done.
      rewrite (fresh_picks_used _ _ _ _ _ Hc Hused). by apply IH.
    + rewrite bool_decide_false by done.
      set (g1 := set_usedCardsArr _ _).
      specialize (IH (playersCards ++ [c]) g1 Hrange).
      rewrite length_app in IH. cbn [length] in IH.
      assert (Hf := fresh_picks_new deck (usedCardsArr g) n c gens Hc Hnew).
      change (usedCardsArr g ++ [c]) with (usedCardsArr g1) in Hf.
      rewrite Hf.
      destruct (decide (2 - (length playersCards + 1) ≤ _)) as [Hle|Hgt].
      * rewrite decide_True by lia.
        destruct IH as (hole & g' & rest & Hb & Hlen). exists hole, g', rest.
        split; [done|]. lia.
      * rewrite decide_False by lia. done.
Qed.

(** C6 (as amended). The drawing loops of [buildCommunityCards] and of
    [generatePlayer] have no signal for an exhausted deck. Each returns
    at once when nothing is missing; otherwise it returns, with the
    requested number of cards, as soon as the random numbers have picked
    as many distinct unused cards as are missing, and it is still drawing
    as long as they have not. When fewer unused cards are left in the deck
    than are missing, it is still drawing after any sequence of random
    numbers: it does not terminate. *)
Theorem draw_loop_termination (deck : list card) (howMany : nat)
    (gens : list nat) (g : game) :
  Forall (λ n, n < length deck) gens →
  ((missing howMany g ≤ length (fresh_picks deck (usedCardsArr g) gens) →
      ∃ g' rest,
        buildCommunityCards deck deck howMany gens g = Drawn g' rest
        ∧ length (communityCards g') = howMany `max` length (communityCards g))
   ∧ (length (fresh_picks deck (usedCardsArr g) gens) < missing howMany g →
        buildCommunityCards deck deck howMany gens g = Pending)
   ∧ (length (unused deck (usedCardsArr g)) < missing howMany g →
        buildCommunityCards deck deck howMany gens g = Pending))
  ∧
  ((2 ≤ length (fresh_picks deck (usedCardsArr g) gens) →
      ∃ hole g' rest,
        draw_hole_cards deck deck [] gens g = Drawn (hole, g') rest
        ∧ length hole = 2)
   ∧ (length (fresh_picks deck (usedCardsArr g) gens) < 2 →
        draw_hole_cards deck deck [] gens g = Pending)
   ∧ (length (unused deck (usedCardsArr g)) < 2 →
        draw_hole_cards deck deck [] gens g = Pending)).
Proof.
  intros Hrange.
  assert (H := buildCommunityCards_picks deck howMany gens g Hrange).
  assert (H' := draw_hole_cards_picks deck gens [] g Hrange).
  assert (Hu := fresh_picks_unused deck (usedCardsArr g) gens).
  simpl in H'. split; repeat split.
  - intros Hle. by rewrite decide_True in H.
  - intros Hlt. by rewrite decide_False in H by lia.
  - intros Hlt. by rewrite decide_False in H by lia.
  - intros Hle. by rewrite decide_True in H'.
  - intros Hlt. by rewrite decide_False in H' by lia.
  - intros Hlt. by rewrite decide_False in H' by lia.
Qed.

Lemma draw_loop_termination_witness :
  ∃ g' rest,
    buildCommunityCards Table.deck Table.deck 3
      (Table.gen_of <$> [Table.of_ ace spades; Table.of_ two hearts;
                         Table.of_ two hearts; Table.of_ king clubs;
                         Table.of_ nine diamonds])
      (Table.dealt Table.three_way) = Drawn g' rest
    ∧ length (communityCards g')
      = 3 `max` length (communityCards (Table.dealt Table.three_way)).
Proof.
  apply (draw_loop_termination Table.deck 3
           (Table.gen_of <$> [Table.of_ ace spades; Table.of_ two hearts;
                              Table.of_ two hearts; Table.of_ king clubs;
                              Table.of_ nine diamonds])
           (Table.dealt Table.three_way)).
  - by_compute.
  - vm_compute. lia.
Defined.

(** C6, the statement refuted: with all 52 cards used and one community
    card requested, the loop is still drawing whatever numbers it is
    given; there is no sequence of random numbers after which it has
    returned or signalled anything. *)
Lemma draw_loop_never_signals :
  length (unused Table.deck (usedCardsArr Table.exhausted)) = 0
  ∧ ¬ ∃ gens, Forall (λ n, n < length Table.deck) gens
              ∧ buildCommunityCards Table.deck Table.deck 1 gens Table.exhausted
                ≠ Pending.
Proof.
  split; [reflexivity|]. intros (gens & Hrange & Hne). apply Hne.
  assert (H := buildCommunityCards_picks Table.deck 1 gens Table.exhausted Hrange).
  assert (Hu := fresh_picks_unused Table.deck (usedCardsArr Table.exhausted) gens).
  change (length (unused Table.deck (usedCardsArr Table.exhausted))) with 0 in Hu.
  change (missing 1 Table.exhausted) with 1 in H.
  by rewrite decide_False in H by lia.
Qed.

End DrawFacts.

(** ** Hands played out *)

Module TableFacts.

Import Poker Frame Table.
Local Open Scope Z_scope.

(** The scripted hands play out: every drawing loop returns, having
    consumed exactly the numbers supplied, and nothing throws. *)
Lemma scripts_play_out (s : script) :
  s ∈ [three_way; flush_and_straight; wheel_against_six; paired_wheel;
       all_fold] →
  deal deck deck (gen_of <$> holes s) (λ _, random s) 50 start
    = Drawn (dealt s) []
  ∧ match_ deck deck (gen_of <$> take 3 (board s)) (λ _, random s) 10
           (dealt s) = Drawn (flop s) []
  ∧ match_ deck deck (gen_of <$> take 1 (drop 3 (board s))) (λ _, random s)
           10 (flop s) = Drawn (turn s) []
  ∧ match_cards deck deck (gen_of <$> drop 4 (board s)) (turn s)
    = Drawn (river s) []
  ∧ gameIncrement (river s) = 4.
Proof.
  rewrite !elem_of_cons, elem_of_nil.
  intros [->|[->|[->|[->|[->|[]]]]]]; vm_compute; repeat split.
Qed.


Lemma split_pot_pays_half_witness :
  let g := river_after [0; 1; 2]%nat three_way in
  let g' := river_after [0; 1; 2; 3]%nat three_way in
  (360 # 2)%Q = (thePot g / 2)%Q
  ∧ thePot g' = (thePot g / 2)%Q
  ∧ playerMoney g' = (playerMoney g + thePot g / 2)%Q.
Proof.
  intros g g'.
  assert (He : evaluateHand 3 4 g = Some g') by (vm_compute; reflexivity).
  assert (Hn : notices g' = SplitPot (360 # 2) :: notices g)
    by (vm_compute; reflexivity).
  exact (EvaluateFacts.split_pot_pays_half 3 4 g g' (360 # 2) He Hn).
Defined.

Lemma sole_active_player_wins_witness :
  ∃ g', evaluateHand 0 4 (river all_fold) = Some g'
        ∧ topHand g' = N 0
        ∧ thePot g' = thePot (river all_fold)
        ∧ notices g' = YouWon (thePot (river all_fold))
                         :: notices (river all_fold).
Proof.
  destruct (EvaluateFacts.sole_active_player_wins 0 (river all_fold))
    as (g' & He & Htop & Hpot & Hnot & _).
  - lia.
  - reflexivity.
  - split; [reflexivity|]. vm_compute. discriminate.
  - reflexivity.
  - intros i Hi.
    destruct i as [|[|[|[|[|]]]]]; try lia; vm_compute; discriminate.
  - exists g'. repeat split; done.
Defined.

(** C3, the code at the failing input: player 0 holds five hearts
    (seven, nine, two, jack, king) and the straight seven to jack whose
    eight and ten are a club and a diamond. No five cards of one suit are
    consecutive, and the hand is scored 8, "straight-flush". *)
Theorem offsuit_straight_scored_straight_flush :
  let g := river flush_and_straight in
  let cards := seven_cards flush_and_straight 0 in
  cardsArr_of (of_ seven hearts, of_ nine hearts) 4 g = Obj <$> cards
  ∧ playersHands g !! 0%nat = Some (of_ seven hearts, of_ nine hearts)
  ∧ Spec.straight_flush cards = false
  ∧ ∃ g', evaluateHand 0 4 g = Some g' ∧ result 0 g' = 8.
Proof.
  vm_compute. repeat split. eexists. split; reflexivity.
Qed.

(** C4, the code at the failing inputs. First hand: player 0 holds the
    straight two to six and player 1 the wheel; both are scored 4, the
    highest straight cards on record are six (index 4) and five (index
    3), and the showdown names player 1, the wheel, the winner. Second
    hand: player 0 holds ace, two, two, three, four, five (and a nine),
    which is a wheel, and is scored 1, a pair. *)
Theorem wheel_not_ranked_below_six_high :
  (let s := wheel_against_six in
   Spec.straight_top (Spec.indexes_of (seven_cards s 0)) = Some 4
   ∧ Spec.straight_top (Spec.indexes_of (seven_cards s 1)) = Some 3
   ∧ communityCards (river s) = Obj <$> board s
   ∧ activePlayers (river s) = [0; 1]%nat
   ∧ ∃ g', evaluated [0; 1]%nat 4 (river s) = Some g'
           ∧ resultList g' = [4; 4; -1; -1]
           ∧ playerStraightHighCard g' = [4; 3; 0; 0]
           ∧ topHand g' = N 1
           ∧ notices g' = [YouLost 1])
  ∧
  (let s := paired_wheel in
   Spec.straight_top (Spec.indexes_of (seven_cards s 0)) = Some 3
   ∧ communityCards (river s) = Obj <$> board s
   ∧ ∃ g', evaluateHand 0 4 (river s) = Some g'
           ∧ result 0 g' = 1
           ∧ playerStraightHighCard g' !! 0%nat = Some 0).
Proof.
  vm_compute. repeat split; eexists; repeat split.
Qed.

(** C5, the code at the failing input: on the river of the first hand
    above the five community cards are on the table, and the evaluation
    of player 0, who holds a straight, replaces the first of them, the
    nine of clubs, by the number 1. *)
Theorem evaluation_overwrites_community_card :
  let g := river wheel_against_six in
  communityCards g = Obj <$> board wheel_against_six
  ∧ ∃ g', evaluateHand 0 4 g = Some g'
          ∧ communityCards g' = <[0%nat := Number 1]> (communityCards g)
          ∧ communityCards g' ≠ communityCards g.
Proof.
  vm_compute. split; [reflexivity|]. eexists. repeat split. discriminate.
Qed.

End TableFacts.

(** ** The strategy of the CFR player *)

Module StrategyFacts.

Import CFR Distribution.

(** *** Finite numbers *)

Lemma lt_Fin (a b : Q) : lt (Fin a) (Fin b) = true ↔ (a < b)%Q.
Proof. simpl. rewrite Qlt_alt. destruct (a ?= b)%Q; split; congruence. Qed.

Lemma lt_Fin_false (a b : Q) : lt (Fin a) (Fin b) = false ↔ (b <= a)%Q.
Proof.
  rewrite <- not_true_iff_false, lt_Fin.
  split; [apply Qnot_lt_le | apply Qle_not_lt].
Qed.

Lemma div_Fin (a b : Q) : ¬ (b == 0)%Q → div (Fin a) (Fin b) = Fin (a / b).
Proof.
  intros Hb. simpl. destruct (Qeq_bool b 0) eqn:He; [|done].
  by apply Qeq_bool_iff in He.
Qed.

(** The positive part of a regret that is not NaN or plus infinity is a
    finite number, zero or more. *)
Lemma positive_part (x : num) :
  bounded_above x = true → ∃ q, max2 x (of_Z 0) = Fin q ∧ (0 <= q)%Q.
Proof.
  unfold bounded_above. destruct x as [q| | |]; try discriminate; intros _.
  - unfold max2. destruct (lt (Fin q) (of_Z 0)) eqn:Hlt.
    + exists 0%Q. split; [done|]. apply Qle_refl.
    + exists q. split; [done|]. by apply lt_Fin_false in Hlt.
  - exists 0%Q. split; [done|]. apply Qle_refl.
Qed.

(** *** Sums of finite masses *)

Lemma total_from (mass : string → num) (f : string → Q) (acts : list string) :
  (∀ a, a ∈ acts → mass a = Fin (f a)) →
  ∀ q0, foldl (λ s a, add s (mass a)) (Fin q0) acts
        = Fin (foldl (λ s a, s + f a)%Q q0 acts).
Proof.
  induction acts as [|x acts IH]; intros Hm q0; simpl; [done|].
  rewrite (Hm x) by (by left). simpl. apply IH.
  intros a Ha. apply Hm. by right.
Qed.

Lemma sum_shift (f : string → Q) (acts : list string) (q0 : Q) :
  (foldl (λ s a, s + f a) q0 acts == q0 + foldl (λ s a, s + f a) 0 acts)%Q.
Proof.
  revert q0. induction acts as [|x acts IH]; intros q0; simpl.
  - ring.
  - rewrite (IH (q0 + f x)%Q), (IH (0 + f x)%Q). ring.
Qed.

Lemma sum_nonneg (f : string → Q) (acts : list string) :
  (∀ a, a ∈ acts → 0 <= f a)%Q →
  (0 <= foldl (λ s a, s + f a) 0 acts)%Q
  ∧ ∀ a, a ∈ acts → (f a <= foldl (λ s a, s + f a) 0 acts)%Q.
Proof.
  induction acts as [|x acts IH]; intros Hf; simpl.
  - split; [apply Qle_refl|]. intros a Ha. by apply elem_of_nil in Ha.
  - destruct IH as [IH0 IH1]; [intros a Ha; apply Hf; by right|].
    assert (Hx : (0 <= f x)%Q) by (apply Hf; by left).
    split.
    + rewrite sum_shift. lra.
    + intros a Ha. rewrite sum_shift.
      apply elem_of_cons in Ha as [->|Ha]; [lra|].
      specialize (IH1 a Ha). lra.
Qed.

Lemma sum_scaled (f : string → Q) (c : Q) (acts : list string) :
  (foldl (λ s a, s + f a / c) 0 acts == foldl (λ s a, s + f a) 0 acts / c)%Q.
Proof.
  induction acts as [|x acts IH]; simpl.
  - unfold Qdiv. ring.
  - rewrite (sum_shift (λ a, f a / c)%Q), (sum_shift f), IH.
    unfold Qdiv. ring.
Qed.

Lemma sum_constant (c : Q) (acts : list string) :
  (foldl (λ s (_ : string), s + c) 0 acts
   == c * inject_Z (Z.of_nat (length acts)))%Q.
Proof.
  induction acts as [|x acts IH].
  - simpl. ring.
  - cbn [foldl length]. rewrite (sum_shift (λ _, c)), IH.
    rewrite Nat2Z.inj_succ. unfold Z.succ. rewrite inject_Z_plus. ring.
Qed.

(** *** The two loops of [getStrategy] *)

(** A loop that assigns [F a] to every key [a] it visits. *)
Lemma assign_loop (F : string → num) (acts : list string) :
  ∀ (s0 : gmap string num) (a : string),
    foldl (λ s x, <[x := F x]> s) s0 acts !! a
    = if decide (a ∈ acts) then Some (F a) else s0 !! a.
Proof.
  induction acts as [|x acts IH]; intros s0 a; cbn [foldl].
  - rewrite decide_False; [done | apply not_elem_of_nil].
  - rewrite IH. destruct (decide (a ∈ acts)) as [Ha|Ha].
    + by rewrite decide_True by (by right).
    + destruct (decide (a = x)) as [->|Hne].
      * rewrite decide_True by (by left). by rewrite lookup_insert_eq.
      * rewrite decide_False by (rewrite elem_of_cons; tauto).
        by rewrite lookup_insert_ne.
Qed.

(** The first loop: the positive parts of the regrets, and their sum. *)
Lemma weights_loop (reg : gmap string num) (acts : list string) :
  ∀ (s0 : gmap string num) (n0 : num),
    foldl (λ '(strategy, normalizingSum) action,
             let w := max2 (get reg action) (of_Z 0) in
             (<[action := w]> strategy, add normalizingSum w))
          (s0, n0) acts
    = (foldl (λ s x, <[x := max2 (get reg x) (of_Z 0)]> s) s0 acts,
       foldl (λ n x, add n (max2 (get reg x) (of_Z 0))) n0 acts).
Proof.
  induction acts as [|x acts IH]; intros s0 n0; simpl; [done|]. apply IH.
Qed.

(** The second loop, over distinct actions: every action is given the
    share [P] computes from its weight, and the share is added to its
    strategy sum. *)
Lemma shares_loop (P : num → num) (acts : list string) :
  NoDup acts →
  ∀ (st ss : gmap string num),
    let r := foldl (λ '(strategy, ssum) action,
                      let p := P (get strategy action) in
                      (<[action := p]> strategy,
                       <[action := add (get ssum action) p]> ssum))
                   (st, ss) acts in
    (∀ a, r.1 !! a = if decide (a ∈ acts) then Some (P (get st a)) else st !! a)
    ∧ (∀ a, r.2 !! a = if decide (a ∈ acts)
                       then Some (add (get ss a) (P (get st a))) else ss !! a).
Proof.
  intros Hnd. induction Hnd as [|x acts Hx Hnd IH]; intros st ss r.
  - subst r. cbn [foldl fst snd]. split; intros a;
      (rewrite decide_False; [done | apply not_elem_of_nil]).
  - subst r. cbn [foldl].
    destruct (IH (<[x := P (get st x)]> st)
                 (<[x := add (get ss x) (P (get st x))]> ss)) as [H1 H2].
    split; intros a.
    + rewrite H1. destruct (decide (a ∈ acts)) as [Ha|Ha].
      * rewrite decide_True by (by right).
        assert (x ≠ a) by (intros ->; contradiction).
        unfold get at 1. by rewrite lookup_insert_ne.
      * destruct (decide (a = x)) as [->|Hne].
        -- rewrite decide_True by (by left). by rewrite lookup_insert_eq.
        -- rewrite decide_False by (rewrite elem_of_cons; tauto).
           by rewrite lookup_insert_ne.
    + rewrite H2. destruct (decide (a ∈ acts)) as [Ha|Ha].
      * rewrite decide_True by (by right).
        assert (x ≠ a) by (intros ->; contradiction).
        unfold get. by rewrite !lookup_insert_ne.
      * destruct (decide (a = x)) as [->|Hne].
        -- rewrite decide_True by (by left). by rewrite lookup_insert_eq.
        -- rewrite decide_False by (rewrite elem_of_cons; tauto).
           by rewrite lookup_insert_ne.
Qed.

(** The share of an action with weight [w] when the weights add up to
    [normalizingSum]. *)
Lemma getStrategy_unfold (this : CFRPlayer) :
  let w x := max2 (get (regretSum this) x) (of_Z 0) in
  let normalizingSum := foldl (λ n x, add n (w x)) (of_Z 0) (actions this) in
  let P v := if gt normalizingSum (of_Z 0) then div v normalizingSum
             else div (Fin 1%Q) (of_nat (numActions this)) in
  let r := foldl (λ '(strategy, ssum) action,
                    let p := P (get strategy action) in
                    (<[action := p]> strategy,
                     <[action := add (get ssum action) p]> ssum))
                 (foldl (λ s x, <[x := w x]> s) ∅ (actions this),
                  strategySum this) (actions this) in
  getStrategy this
  = (r.1, {| actions := actions this; regretSum := regretSum this;
             strategySum := r.2; numActions := numActions this |}).
Proof.
  intros w normalizingSum P r. unfold getStrategy.
  rewrite weights_loop.
  assert (H : ∀ x : gmap string num * gmap string num,
    (let '(strategy, strategySum') := x in
     (strategy, {| actions := actions this; regretSum := regretSum this;
                   strategySum := strategySum';
                   numActions := numActions this |}))
    = (x.1, {| actions := actions this; regretSum := regretSum this;
               strategySum := x.2; numActions := numActions this |}))
    by (by intros [??]).
  exact (H r).

Qed.


(** What [getStrategy] returns and what it leaves in [strategySum], for
    distinct actions. *)
Lemma getStrategy_spec (this : CFRPlayer) :
  NoDup (actions this) →
  let w x := max2 (get (regretSum this) x) (of_Z 0) in
  let normalizingSum := foldl (λ n x, add n (w x)) (of_Z 0) (actions this) in
  let P v := if gt normalizingSum (of_Z 0) then div v normalizingSum
             else div (Fin 1%Q) (of_nat (numActions this)) in
  (∀ a, (getStrategy this).1 !! a
        = if decide (a ∈ actions this) then Some (P (w a)) else None)
  ∧ (∀ a, strategySum (getStrategy this).2 !! a
          = if decide (a ∈ actions this)
            then Some (add (get (strategySum this) a) (P (w a)))
            else strategySum this !! a).
Proof.
  intros Hnd w normalizingSum P. rewrite getStrategy_unfold. cbn [fst snd].
  destruct (shares_loop P (actions this) Hnd
              (foldl (λ s x, <[x := w x]> s) ∅ (actions this))
              (strategySum this)) as [H1 H2].
  assert (Hw : ∀ a, a ∈ actions this →
            get (foldl (λ s x, <[x := w x]> s) ∅ (actions this)) a = w a).
  { intros a Ha. unfold get. rewrite (assign_loop w).
    by rewrite decide_True. }
  split; intros a.
  - etrans; [apply H1|]. destruct (decide (a ∈ actions this)) as [Ha|Ha].
    + by rewrite Hw.
    + rewrite (assign_loop w). by rewrite decide_False.
  - etrans; [apply H2|]. destruct (decide (a ∈ actions this)) as [Ha|Ha];
      [by rewrite Hw | done].
Qed.

(** When the sum of the weights is not positive, every action gets the
    share [1 / numActions], whether the actions are distinct or not. *)
Lemma getStrategy_uniform_share (this : CFRPlayer) :
  gt (foldl (λ n x, add n (max2 (get (regretSum this) x) (of_Z 0)))
            (of_Z 0) (actions this)) (of_Z 0) = false →
  ∀ a, a ∈ actions this →
    (getStrategy this).1 !! a
    = Some (div (Fin 1%Q) (of_nat (numActions this))).
Proof.
  intros Hgt a Ha. rewrite getStrategy_unfold. cbn [fst snd].
  generalize (strategySum this).
  generalize (foldl (λ (s : gmap string num) x,
                       <[x := max2 (get (regretSum this) x) (of_Z 0)]> s)
                    ∅ (actions this)).
  rewrite Hgt. revert Ha. generalize (actions this). intros acts.
  assert (Hgen : ∀ st ss : gmap string num,
    (a ∈ acts ∨ st !! a = Some (div (Fin 1%Q) (of_nat (numActions this)))) →
    (foldl (λ '(strategy, ssum) action,
              let p := div (Fin 1%Q) (of_nat (numActions this)) in
              (<[action := p]> strategy,
               <[action := add (get ssum action) p]> ssum))
           (st, ss) acts).1 !! a
    = Some (div (Fin 1%Q) (of_nat (numActions this)))).
  { induction acts as [|x acts IH]; intros st ss Hin; cbn [foldl].
    - destruct Hin as [Hin|Hin]; [by apply elem_of_nil in Hin | done].
    - apply IH. destruct (decide (a = x)) as [->|Hne].
      + right. by rewrite lookup_insert_eq.
      + destruct Hin as [Hin|Hin].
        * left. apply elem_of_cons in Hin as [?|?]; done.
        * right. by rewrite lookup_insert_ne. }
  intros Ha st ss. apply Hgen. by left.
Qed.

(** A sum of weights none of which is positive is zero or NaN. *)
Lemma no_positive_weight (mass : string → num) (acts : list string) :
  Forall (λ a, gt (mass a) (of_Z 0) = false) acts →
  gt (foldl (λ n x, add n (max2 (mass x) (of_Z 0))) (of_Z 0) acts)
     (of_Z 0) = false.
Proof.
  assert (Hgen : ∀ n0 : num,
    (n0 = NaN ∨ ∃ q, n0 = Fin q ∧ (q == 0)%Q) →
    Forall (λ a, gt (mass a) (of_Z 0) = false) acts →
    gt (foldl (λ n x, add n (max2 (mass x) (of_Z 0))) n0 acts)
       (of_Z 0) = false).
  { induction acts as [|x acts IH]; intros n0 Hn0 Hall; cbn [foldl].
    - destruct Hn0 as [->|(q & -> & Hq)]; [done|].
      unfold gt. apply lt_Fin_false. rewrite Hq. apply Qle_refl.
    - apply Forall_cons in Hall as [Hx Hall]. apply IH; [|done].
      assert (Hw : max2 (mass x) (of_Z 0) = NaN
                   ∨ ∃ q, max2 (mass x) (of_Z 0) = Fin q ∧ (q == 0)%Q).
      { destruct (mass x) as [q| | |]; [|discriminate|right|by left].
        - right. unfold gt in Hx. apply lt_Fin_false in Hx.
          unfold max2. destruct (lt (Fin q) (of_Z 0)) eqn:Hlt.
          + by exists (inject_Z 0).
          + exists q. split; [done|]. apply lt_Fin_false in Hlt.
            by apply Qle_antisym.
        - by exists (inject_Z 0). }
      destruct Hn0 as [->|(q0 & -> & Hq0)]; [by left|].
      destruct Hw as [->|(q & -> & Hq)]; [by left|].
      right. exists (q0 + q)%Q. split; [done|]. rewrite Hq0, Hq. ring. }
  apply Hgen. right. by exists (inject_Z 0).
Qed.

(** A sum of weights one of which is NaN is NaN. *)
Lemma NaN_weight (reg : gmap string num) (acts : list string) (a : string) :
  a ∈ acts → get reg a = NaN →
  foldl (λ n x, add n (max2 (get reg x) (of_Z 0))) (of_Z 0) acts = NaN.
Proof.
  intros Ha Hnan. generalize (of_Z 0) at 2. intros n0.
  assert (Hgen : ∀ n0 : num, (a ∈ acts ∨ n0 = NaN) →
    foldl (λ n x, add n (max2 (get reg x) (of_Z 0))) n0 acts = NaN).
  { clear Ha n0. induction acts as [|x acts IH]; intros n0 Hin; cbn [foldl].
    - destruct Hin as [Hin|Hin]; [by apply elem_of_nil in Hin | done].
    - apply IH. destruct Hin as [Hin| ->]; [|by right].
      apply elem_of_cons in Hin as [<-|Hin]; [|by left].
      right. rewrite Hnan. by destruct n0. }
  apply Hgen. by left.
Qed.


(** Weights that are not negative, divided by their sum when it is
    positive and replaced by [1 / n] when it is not, are probabilities that
    add up to 1. *)
Lemma shares_distribution (wq : string → Q) (acts : list string) (n : nat)
    (share : string → num) :
  acts ≠ [] → n = length acts →
  (∀ a, a ∈ acts → 0 <= wq a)%Q →
  let Σ := foldl (λ s a, (s + wq a)%Q) 0%Q acts in
  (∀ a, a ∈ acts →
     share a = if gt (Fin Σ) (of_Z 0) then div (Fin (wq a)) (Fin Σ)
               else div (Fin 1%Q) (of_nat n)) →
  (∀ a, a ∈ acts → probability (share a))
  ∧ same (total share acts) (Fin 1).
Proof.
  intros Hne Hnum Hw Σ Hshare.
  destruct (sum_nonneg wq acts Hw) as [HΣ0 HΣa]. fold Σ in HΣ0, HΣa.
  assert (Hn : (0 < inject_Z (Z.of_nat n))%Q).
  { rewrite Hnum. destruct acts; [done|].
    rewrite <- (Zlt_Qlt 0). cbn [length]. lia. }
  destruct (Qlt_le_dec 0 Σ) as [Hpos|Hzero].
  - assert (Hgt : gt (Fin Σ) (of_Z 0) = true) by (by apply lt_Fin).
    assert (Hp : ∀ a, a ∈ acts → share a = Fin (wq a / Σ)).
    { intros a Ha. rewrite Hshare, Hgt by done.
      apply div_Fin. intros H0. rewrite H0 in Hpos. by apply Qlt_irrefl in Hpos. }
    split.
    + intros a Ha. exists (wq a / Σ)%Q. split; [by apply Hp|].
      specialize (Hw a Ha). specialize (HΣa a Ha). split.
      * apply Qle_shift_div_l; [done|]. lra.
      * apply Qle_shift_div_r; [done|]. lra.
    + unfold total. rewrite (total_from _ (λ a, wq a / Σ)%Q _ Hp).
      simpl. rewrite sum_scaled. fold Σ. field.
      intros H0. rewrite H0 in Hpos. by apply Qlt_irrefl in Hpos.
  - assert (Hgt : gt (Fin Σ) (of_Z 0) = false) by (by apply lt_Fin_false).
    set (c := (1 / inject_Z (Z.of_nat n))%Q).
    assert (Hp : ∀ a, a ∈ acts → share a = Fin c).
    { intros a Ha. rewrite Hshare, Hgt by done. apply div_Fin.
      intros H0. rewrite H0 in Hn. by apply Qlt_irrefl in Hn. }
    split.
    + intros a Ha. exists c. split; [by apply Hp|]. subst c. split.
      * apply Qle_shift_div_l; [done|]. lra.
      * apply Qle_shift_div_r; [done|]. rewrite Qmult_1_l.
        rewrite <- (Zle_Qle 1). rewrite Hnum.
        destruct acts; [done|]. cbn [length]. lia.
    + unfold total. rewrite (total_from _ (λ _, c) _ Hp).
      simpl. rewrite sum_constant. subst c. rewrite <- Hnum. field.
      intros H0. rewrite H0 in Hn. by apply Qlt_irrefl in Hn.
Qed.

(** X1. Regret matching: when the sum of the positive parts of the
    regrets is positive, [getStrategy] gives every one of the distinct
    actions the positive part of its regret divided by that sum, the sum
    being taken over the actions from left to right; an action whose
    regret is a number that is not positive gets the probability 0. *)
Theorem getStrategy_regret_matching (this : CFRPlayer) (a : string) :
  NoDup (actions this) →
  a ∈ actions this →
  let positive x := max2 (get (regretSum this) x) (of_Z 0) in
  let normalizingSum :=
    foldl (λ n x, add n (positive x)) (of_Z 0) (actions this) in
  gt normalizingSum (of_Z 0) = true →
  (getStrategy this).1 !! a = Some (div (positive a) normalizingSum)
  ∧ (gt (get (regretSum this) a) (of_Z 0) = false →
     get (regretSum this) a ≠ NaN →
     same (get (getStrategy this).1 a) (Fin 0)).
Proof.
  intros Hnd Ha positive normalizingSum Hpos.
  destruct (getStrategy_spec this Hnd) as [Hst _].
  assert (Hval : (getStrategy this).1 !! a
                 = Some (div (positive a) normalizingSum)).
  { transitivity
      (Some (if gt normalizingSum (of_Z 0)
             then div (positive a) normalizingSum
             else div (Fin 1%Q) (of_nat (numActions this)))).
    - etrans; [apply Hst|]. by rewrite decide_True.
    - by rewrite Hpos. }
  split; [exact Hval|].
  intros Hreg Hnan. unfold get at 1. rewrite Hval. cbn [default].
  assert (Hzero : ∃ q, positive a = Fin q ∧ (q == 0)%Q).
  { subst positive. cbv beta.
    destruct (get (regretSum this) a) as [q| | |]; try done.
    - unfold gt in Hreg. apply lt_Fin_false in Hreg.
      unfold max2. destruct (lt (Fin q) (of_Z 0)) eqn:Hlt.
      + by exists (inject_Z 0).
      + exists q. split; [done|]. apply lt_Fin_false in Hlt.
        by apply Qle_antisym.
    - by exists (inject_Z 0). }
  destruct Hzero as (q & -> & Hq).
  destruct normalizingSum as [s| | |]; try discriminate Hpos.
  - unfold gt in Hpos. apply lt_Fin in Hpos.
    rewrite div_Fin by (intros H0; rewrite H0 in Hpos; by apply Qlt_irrefl in Hpos).
    change (q / s == 0)%Q. unfold Qdiv. rewrite Hq. apply Qmult_0_l.
  - reflexivity.
Qed.

Lemma getStrategy_regret_matching_witness :
  let this := updateRegrets constructor "check" (of_Z 1)
                {["check" := of_Z 1; "call" := NegInf; "raise" := of_Z 4;
                  "allin" := of_Z 2; "fold" := of_Z (-9)]} in
  same (get (getStrategy this).1 "fold") (Fin 0).
Proof.
  intros this.
  destruct (getStrategy_regret_matching this "fold") as [_ H].
  - by_compute.
  - by_compute.
  - vm_compute. reflexivity.
  - apply H; [vm_compute; reflexivity | vm_compute; discriminate].
Defined.

(** X2. When no cumulative regret is positive, as for a new player,
    [getStrategy] gives every action the same probability,
    [1 / numActions]. *)
Theorem getStrategy_uniform (this : CFRPlayer) (a : string) :
  Forall (λ a, gt (get (regretSum this) a) (of_Z 0) = false) (actions this) →
  a ∈ actions this →
  (getStrategy this).1 !! a = Some (div (Fin 1%Q) (of_nat (numActions this))).
Proof.
  intros Hreg Ha. apply getStrategy_uniform_share; [|done].
  by apply no_positive_weight.
Qed.

Lemma getStrategy_uniform_witness :
  (getStrategy constructor).1 !! "raise" = Some (div (Fin 1%Q) (of_nat 5)).
Proof.
  apply (getStrategy_uniform constructor "raise"); by_compute.
Defined.

(** X3. [getStrategy] leaves the regrets and the action list alone and
    accumulates the strategy it returns: for distinct actions, the
    strategy sum of every action grows by the probability returned for
    it, the strategy has exactly the actions as its keys, and no other
    property of [strategySum] is touched. *)
Theorem getStrategy_accumulates (this : CFRPlayer) :
  NoDup (actions this) →
  let strategy := (getStrategy this).1 in
  let this' := (getStrategy this).2 in
  actions this' = actions this
  ∧ numActions this' = numActions this
  ∧ regretSum this' = regretSum this
  ∧ (∀ a, a ∈ actions this →
       is_Some (strategy !! a)
       ∧ strategySum this' !! a
         = Some (add (get (strategySum this) a) (get strategy a)))
  ∧ (∀ a, a ∉ actions this →
       strategy !! a = None
       ∧ strategySum this' !! a = strategySum this !! a).
Proof.
  intros Hnd strategy this'.
  destruct (getStrategy_spec this Hnd) as [Hst Hss].
  fold strategy in Hst. fold this' in Hss.
  assert (Hu := getStrategy_unfold this). cbv zeta in Hu.
  split; [subst this'; by rewrite Hu|].
  split; [subst this'; by rewrite Hu|].
  split; [subst this'; by rewrite Hu|].
  split; intros a Ha.
  - split; [rewrite Hst, decide_True by done; by eexists|].
    rewrite Hss, decide_True by done. f_equal. f_equal.
    unfold get. by rewrite Hst, decide_True by done.
  - by rewrite Hst, Hss, !decide_False by done.
Qed.

Lemma getStrategy_accumulates_witness :
  strategySum (getStrategy constructor).2 !! "fold"
  = Some (add (get (strategySum constructor) "fold")
              (get (getStrategy constructor).1 "fold")).
Proof.
  destruct (getStrategy_accumulates constructor) as (_ & _ & _ & Hin & _).
  - by_compute.
  - apply (Hin "fold"). by_compute.
Defined.


(** *** [getAverageStrategy] and [recommendAction] *)

Lemma getAverageStrategy_spec (this : CFRPlayer) (a : string) :
  let normalizingSum :=
    foldl (λ n x, add n (get (strategySum this) x)) (of_Z 0) (actions this) in
  getAverageStrategy this !! a
  = if decide (a ∈ actions this)
    then Some (if gt normalizingSum (of_Z 0)
               then div (get (strategySum this) a) normalizingSum
               else div (Fin 1%Q) (of_nat (numActions this)))
    else None.
Proof.
  intros normalizingSum. unfold getAverageStrategy. fold normalizingSum.
  rewrite (assign_loop
             (λ x, if gt normalizingSum (of_Z 0)
                   then div (get (strategySum this) x) normalizingSum
                   else div (Fin 1%Q) (of_nat (numActions this)))).
  destruct (decide _); done.
Qed.

Lemma finite_nonneg_Fin (x : num) :
  finite_nonneg x = true → ∃ q, x = Fin q ∧ (0 <= q)%Q.
Proof.
  unfold finite_nonneg, ge. destruct x as [q| | |]; try discriminate.
  intros H. exists q. split; [done|].
  apply andb_true_iff in H as [H _]. apply orb_true_iff in H as [H|H].
  - apply lt_Fin in H. by apply Qlt_le_weak.
  - simpl in H. apply Qeq_bool_iff in H. rewrite H. apply Qle_refl.
Qed.

(** The average strategy of a player whose strategy sums are finite and
    not negative: finite probabilities that add up to 1. *)
Lemma average_distribution (this : CFRPlayer) :
  actions this ≠ [] →
  numActions this = length (actions this) →
  Forall (λ a, finite_nonneg (get (strategySum this) a) = true) (actions this) →
  (∀ a, a ∈ actions this → probability (get (getAverageStrategy this) a))
  ∧ same (total (get (getAverageStrategy this)) (actions this)) (Fin 1).
Proof.
  intros Hne Hnum Hsum.
  set (wq (a : string) :=
         match get (strategySum this) a with Fin q => q | _ => 0%Q end).
  assert (Hw : ∀ a, a ∈ actions this →
            get (strategySum this) a = Fin (wq a) ∧ (0 <= wq a)%Q).
  { intros a Ha. rewrite Forall_forall in Hsum.
    destruct (finite_nonneg_Fin _ (Hsum a Ha)) as (q & Hq & Hq0).
    subst wq. cbv beta. by rewrite Hq. }
  assert (HS : foldl (λ n x, add n (get (strategySum this) x)) (of_Z 0)
                     (actions this)
               = Fin (foldl (λ s a, (s + wq a)%Q) 0%Q (actions this))).
  { apply (total_from _ wq). intros a Ha. by apply Hw. }
  apply (shares_distribution wq (actions this) (numActions this));
    [done | done | intros a Ha; by apply Hw |].
  intros a Ha. unfold get at 1.
  rewrite getAverageStrategy_spec, decide_True by done. cbn [default].
  rewrite HS. by destruct (Hw a Ha) as [-> _].
Qed.

(** A sum of numbers none of which is positive is not positive. *)
Lemma no_positive_sum (mass : string → num) (acts : list string) :
  Forall (λ a, gt (mass a) (of_Z 0) = false) acts →
  gt (foldl (λ n x, add n (mass x)) (of_Z 0) acts) (of_Z 0) = false.
Proof.
  assert (Hgen : ∀ n0 : num,
    gt n0 (of_Z 0) = false → n0 ≠ PosInf →
    Forall (λ a, gt (mass a) (of_Z 0) = false) acts →
    gt (foldl (λ n x, add n (mass x)) n0 acts) (of_Z 0) = false).
  { induction acts as [|x acts IH]; intros n0 Hn0 Hinf Hall; cbn [foldl];
      [done|].
    apply Forall_cons in Hall as [Hx Hall].
    apply IH; [| |done].
    - destruct n0 as [p| | |], (mass x) as [q| | |]; try done.
      unfold gt in *. change (add (Fin p) (Fin q)) with (Fin (p + q)).
      apply lt_Fin_false in Hn0, Hx. apply lt_Fin_false.
      change (inject_Z 0) with 0%Q in *. lra.
    - destruct n0 as [p| | |], (mass x) as [q| | |]; try done. }
  apply Hgen; [|done]. unfold gt. apply lt_Fin_false. apply Qle_refl.
Qed.

(** X4. [getAverageStrategy] returns an object whose keys are exactly the
    actions: every action gets its strategy sum divided by the sum of
    all of them, taken from left to right, when that sum is positive,
    and [1 / numActions] when it is not. In particular the average
    strategy is uniform as long as no strategy sum is positive, as for
    a new player. *)
Theorem getAverageStrategy_shares (this : CFRPlayer) (a : string) :
  let normalizingSum :=
    foldl (λ n x, add n (get (strategySum this) x)) (of_Z 0) (actions this) in
  getAverageStrategy this !! a
  = (if decide (a ∈ actions this)
     then Some (if gt normalizingSum (of_Z 0)
                then div (get (strategySum this) a) normalizingSum
                else div (Fin 1%Q) (of_nat (numActions this)))
     else None)
  ∧ (Forall (λ x, gt (get (strategySum this) x) (of_Z 0) = false)
            (actions this) →
     a ∈ actions this →
     getAverageStrategy this !! a
     = Some (div (Fin 1%Q) (of_nat (numActions this)))).
Proof.
  intros normalizingSum. split; [apply getAverageStrategy_spec|].
  intros Hall Ha. rewrite getAverageStrategy_spec, decide_True by done.
  fold normalizingSum. subst normalizingSum.
  by rewrite (no_positive_sum (get (strategySum this))).
Qed.

Lemma getAverageStrategy_shares_witness :
  getAverageStrategy constructor !! "raise"
  = Some (div (Fin 1%Q) (of_nat 5)).
Proof.
  destruct (getAverageStrategy_shares constructor "raise") as [_ H].
  apply H; by_compute.
Defined.

(** The [reduce] of [recommendAction] over finite masses: it returns the
    last of the entries that carry the greatest mass. *)
Lemma reduce_max_last (mass : string → num) (arr : list string) :
  arr ≠ [] →
  (∀ a, a ∈ arr → ∃ q, mass a = Fin q) →
  ∃ pre best post,
    arr = pre ++ best :: post
    ∧ reduce_max mass arr = Some best
    ∧ (∀ b, b ∈ pre → gt (mass b) (mass best) = false)
    ∧ (∀ b, b ∈ post → gt (mass best) (mass b) = true).
Proof.
  intros Hne Hfin. destruct arr as [|a0 rest]; [done|]. clear Hne.
  cbn [reduce_max].
  assert (Hgen : ∀ rest pre cur post,
    (∀ a, a ∈ pre ++ cur :: post ++ rest → ∃ q, mass a = Fin q) →
    (∀ b, b ∈ pre → gt (mass b) (mass cur) = false) →
    (∀ b, b ∈ post → gt (mass cur) (mass b) = true) →
    ∃ pre' best post',
      pre ++ cur :: post ++ rest = pre' ++ best :: post'
      ∧ foldl (λ a b, if gt (mass a) (mass b) then a else b) cur rest = best
      ∧ (∀ b, b ∈ pre' → gt (mass b) (mass best) = false)
      ∧ (∀ b, b ∈ post' → gt (mass best) (mass b) = true)).
  { clear. induction rest as [|b rest IH]; intros pre cur post Hfin Hpre Hpost.
    - exists pre, cur, post. by rewrite app_nil_r.
    - cbn [foldl]. destruct (gt (mass cur) (mass b)) eqn:Hgt.
      + destruct (IH pre cur (post ++ [b])) as (pre' & best & post' & He & H).
        * intros a. rewrite <- app_assoc. apply Hfin.
        * done.
        * intros x Hx. apply elem_of_app in Hx as [Hx|Hx]; [by apply Hpost|].
          by apply list_elem_of_singleton in Hx as ->.
        * exists pre', best, post'. by rewrite <- app_assoc in He.
      + destruct (IH (pre ++ cur :: post) b []) as (pre' & best & post' & He & H).
        * intros a. rewrite <- app_assoc. apply Hfin.
        * destruct (Hfin b) as [qb Hb];
            [rewrite !elem_of_app, !elem_of_cons, !elem_of_app, elem_of_cons;
             auto 10|].
          destruct (Hfin cur) as [qc Hc];
            [rewrite !elem_of_app, !elem_of_cons; auto|].
          rewrite Hb, Hc in Hgt. unfold gt in Hgt. apply lt_Fin_false in Hgt.
          intros x Hx. destruct (Hfin x) as [qx Hqx].
          { revert Hx.
            rewrite !elem_of_app, !elem_of_cons, !elem_of_app, elem_of_cons.
            tauto. }
          rewrite Hqx, Hb. unfold gt. apply lt_Fin_false.
          apply elem_of_app in Hx as [Hx|Hx].
          -- specialize (Hpre x Hx). rewrite Hqx, Hc in Hpre.
             unfold gt in Hpre. apply lt_Fin_false in Hpre. lra.
          -- apply elem_of_cons in Hx as [->|Hx].
             ++ rewrite Hc in Hqx. injection Hqx as ->. done.
             ++ specialize (Hpost x Hx). rewrite Hqx, Hc in Hpost.
                unfold gt in Hpost. apply lt_Fin in Hpost. lra.
        * intros x Hx. by apply elem_of_nil in Hx.
        * exists pre', best, post'. rewrite <- app_assoc in He. done. }
  destruct (Hgen rest [] a0 []) as (pre & best & post & He & Hf & H).
  - done.
  - intros b Hb. by apply elem_of_nil in Hb.
  - intros b Hb. by apply elem_of_nil in Hb.
  - exists pre, best, post. simpl in He. by rewrite Hf.
Qed.

(** X5. When the strategy sums are finite and not negative,
    [recommendAction] recommends an action whose average probability is
    the greatest; of several actions with the greatest average
    probability it recommends the last one in the action list. *)
Theorem recommendAction_greatest (this : CFRPlayer) :
  actions this ≠ [] →
  numActions this = length (actions this) →
  Forall (λ a, finite_nonneg (get (strategySum this) a) = true) (actions this) →
  let averageStrategy := getAverageStrategy this in
  ∃ pre best post,
    actions this = pre ++ best :: post
    ∧ recommendAction this = Some (best, averageStrategy)
    ∧ (∀ b, b ∈ pre →
         gt (get averageStrategy b) (get averageStrategy best) = false)
    ∧ (∀ b, b ∈ post →
         gt (get averageStrategy best) (get averageStrategy b) = true).
Proof.
  intros Hne Hnum Hsum averageStrategy.
  destruct (average_distribution this Hne Hnum Hsum) as [Hp _].
  destruct (reduce_max_last (get averageStrategy) (actions this) Hne)
    as (pre & best & post & He & Hr & H).
  { intros a Ha. destruct (Hp a Ha) as (q & Hq & _). by exists q. }
  exists pre, best, post. split; [done|]. split; [|done].
  unfold recommendAction. fold averageStrategy. by rewrite Hr.
Qed.

Lemma recommendAction_greatest_witness :
  ∃ pre best post,
    actions constructor = pre ++ best :: post
    ∧ recommendAction constructor = Some (best, getAverageStrategy constructor)
    ∧ (∀ b, b ∈ pre →
         gt (get (getAverageStrategy constructor) b)
            (get (getAverageStrategy constructor) best) = false)
    ∧ (∀ b, b ∈ post →
         gt (get (getAverageStrategy constructor) best)
            (get (getAverageStrategy constructor) b) = true).
Proof.
  apply (recommendAction_greatest constructor).
  - discriminate.
  - reflexivity.
  - by_compute.
Defined.

End StrategyFacts.

(** ** Training the CFR player *)

Module TrainFacts.

Import CFR.

(** *** [calculateCounterfactualRewards] *)

(** The loop of [calculateCounterfactualRewards] once a reward has
    thrown. *)
Lemma rewards_loop_thrown (currentState : GameState) (acts : list string) :
  foldl (λ acc action,
           rewards ← acc;
           if isValidAction currentState action
           then r ← calculateReward currentState action;
                Some (<[action := r]> rewards)
           else Some (<[action := NegInf]> rewards))
        (None : option (gmap string num)) acts = None.
Proof. induction acts as [|x acts IH]; [done | exact IH]. Qed.

Lemma rewards_loop (currentState : GameState) (acts : list string) :
  ∀ acc : gmap string num,
    match foldl (λ acc action,
                   rewards ← acc;
                   if isValidAction currentState action
                   then r ← calculateReward currentState action;
                        Some (<[action := r]> rewards)
                   else Some (<[action := NegInf]> rewards))
                (Some acc) acts with
    | Some rewards =>
        ∀ a, if decide (a ∈ acts)
             then if isValidAction currentState a
                  then ∃ r, calculateReward currentState a = Some r
                            ∧ rewards !! a = Some r
                  else rewards !! a = Some NegInf
             else rewards !! a = acc !! a
    | None =>
        ∃ a, a ∈ acts ∧ isValidAction currentState a = true
             ∧ calculateReward currentState a = None
    end.
Proof.
  induction acts as [|x acts IH]; intros acc; cbn [foldl].
  - intros a. rewrite decide_False; [done | apply not_elem_of_nil].
  - cbn [mbind option_bind].
    assert (Hstep : ∀ acc' : gmap string num,
      (if isValidAction currentState x
       then ∃ r, calculateReward currentState x = Some r
                 ∧ acc' !! x = Some r
       else acc' !! x = Some NegInf) →
      (∀ a, a ≠ x → acc' !! a = acc !! a) →
      match foldl (λ acc action,
                     rewards ← acc;
                     if isValidAction currentState action
                     then r ← calculateReward currentState action;
                          Some (<[action := r]> rewards)
                     else Some (<[action := NegInf]> rewards))
                  (Some acc') acts with
      | Some rewards =>
          ∀ a, if decide (a ∈ x :: acts)
               then if isValidAction currentState a
                    then ∃ r, calculateReward currentState a = Some r
                              ∧ rewards !! a = Some r
                    else rewards !! a = Some NegInf
               else rewards !! a = acc !! a
      | None =>
          ∃ a, a ∈ x :: acts ∧ isValidAction currentState a = true
               ∧ calculateReward currentState a = None
      end).
    { intros acc' Hx Hother. specialize (IH acc').
      destruct (foldl _ _ acts) as [rewards|].
      - intros a. specialize (IH a).
        destruct (decide (a ∈ acts)) as [Ha|Ha].
        + by rewrite decide_True by (by right).
        + destruct (decide (a = x)) as [->|Hne].
          * rewrite decide_True by (by left). rewrite IH.
            destruct (isValidAction currentState x); done.
          * rewrite decide_False by (rewrite elem_of_cons; tauto).
            rewrite IH. by apply Hother.
      - destruct IH as (a & Ha & H). exists a. split; [by right | done]. }
    destruct (isValidAction currentState x) eqn:Hv.
    + destruct (calculateReward currentState x) as [r|] eqn:Hr;
        cbn [mbind option_bind].
      * apply Hstep.
        -- exists r. by rewrite lookup_insert_eq.
        -- intros a Hne. by rewrite lookup_insert_ne.
      * rewrite rewards_loop_thrown.
        exists x. split; [by left | done].
    + apply Hstep.
      * by rewrite lookup_insert_eq.
      * intros a Hne. by rewrite lookup_insert_ne.
Qed.

(** X6. [calculateCounterfactualRewards] returns an object whose keys are
    exactly the actions of the player: minus infinity for an action that
    is not allowed, the value that [calculateReward] returns for one
    that is. It throws when, and only when, [calculateReward] throws for
    an allowed action. *)
Theorem calculateCounterfactualRewards_spec (this : CFRPlayer)
    (currentState : GameState) :
  match calculateCounterfactualRewards this currentState with
  | Some rewards =>
      ∀ a, if decide (a ∈ actions this)
           then if isValidAction currentState a
                then ∃ r, calculateReward currentState a = Some r
                          ∧ rewards !! a = Some r
                else rewards !! a = Some NegInf
           else rewards !! a = None
  | None =>
      ∃ a, a ∈ actions this ∧ isValidAction currentState a = true
           ∧ calculateReward currentState a = None
  end.
Proof. exact (rewards_loop currentState (actions this) ∅). Qed.

(** *** [train] *)

Lemma selectAction_loop_elem (strategy : gmap string num) (r : num)
    (rest : list string) : ∀ (c : num) (a : string),
  selectAction_loop strategy r c rest = Some a → a ∈ rest.
Proof.
  induction rest as [|x rest IH]; intros c a; simpl; [done|].
  destruct (lt r _).
  - intros [= <-]. by left.
  - intros H. right. by eapply IH.
Qed.

Lemma selectAction_elem (this : CFRPlayer) (strategy : gmap string num)
    (r : num) (a : string) :
  selectAction this strategy r = Some a → a ∈ actions this.
Proof.
  unfold selectAction.
  destruct (selectAction_loop _ _ _ _) as [x|] eqn:Hl.
  - intros [= <-]. by eapply selectAction_loop_elem.
  - apply last_Some_elem_of.
Qed.

(** What one round of [train] leaves of the player, for distinct
    actions. *)
Lemma train_round_spec (currentState : GameState) (this this' : CFRPlayer)
    (r : num) :
  NoDup (actions this) →
  train_round currentState this r = Some this' →
  ∃ rewards,
    calculateCounterfactualRewards this currentState = Some rewards
    ∧ actions this' = actions this
    ∧ numActions this' = numActions this
    ∧ ∀ a, a ∈ actions this →
        regretSum this' !! a
        = Some (add (get (regretSum this) a)
                    (sub (get rewards a)
                         (get rewards
                              (key_of (selectAction (getStrategy this).2
                                         (getStrategy this).1 r))))).
Proof.
  intros Hnd. unfold train_round.
  assert (Hu := StrategyFacts.getStrategy_unfold this). cbv zeta in Hu.
  destruct (getStrategy this) as [strategy this1] eqn:Hg.
  injection Hu as Hs H1. cbn [fst snd].
  assert (Hact : actions this1 = actions this) by (by rewrite H1).
  assert (Hreg : regretSum this1 = regretSum this) by (by rewrite H1).
  assert (Hnum : numActions this1 = numActions this) by (by rewrite H1).
  assert (Hcf : calculateCounterfactualRewards this1 currentState
                = calculateCounterfactualRewards this currentState).
  { unfold calculateCounterfactualRewards. by rewrite Hact. }
  rewrite Hcf.
  destruct (calculateCounterfactualRewards this currentState)
    as [rewards|]; [|discriminate].
  cbn [mbind option_bind]. intros [= <-]. exists rewards.
  split; [done|]. split; [done|]. split; [done|].
  intros a Ha. cbn [regretSum updateRegrets]. rewrite Hact, Hreg.
  rewrite (RegretFacts.update_loop_spec _ _ _ _ Hnd).
  by rewrite decide_True.
Qed.

(** X7. A round of [train] in which [selectAction] picks an action that is
    not allowed turns the cumulative regret of every action that is not
    allowed into NaN: its counterfactual reward and the reward of the
    action taken are both minus infinity, and their difference is NaN. *)
Theorem illegal_choice_makes_regrets_NaN (this this' : CFRPlayer)
    (currentState : GameState) (random : nat → num) (a : string) :
  NoDup (actions this) →
  selectAction (getStrategy this).2 (getStrategy this).1 (random 0%nat)
    = Some a →
  isValidAction currentState a = false →
  train this 1 currentState random = Some this' →
  ∀ b, b ∈ actions this → isValidAction currentState b = false →
       regretSum this' !! b = Some NaN.
Proof.
  intros Hnd Hsel Hinv Htrain b Hb Hbinv.
  unfold train in Htrain. cbn [seq foldl mbind option_bind] in Htrain.
  destruct (train_round_spec _ _ _ _ Hnd Htrain)
    as (rewards & Hcf & _ & _ & Hreg).
  rewrite (Hreg b Hb), Hsel. cbn [key_of default].
  assert (Ha : a ∈ actions this).
  { apply selectAction_elem in Hsel.
    assert (Hu := StrategyFacts.getStrategy_unfold this). cbv zeta in Hu.
    by rewrite Hu in Hsel. }
  assert (Hlook : ∀ x, x ∈ actions this →
            isValidAction currentState x = false → get rewards x = NegInf).
  { intros x Hx Hxinv. unfold get.
    by rewrite (RewardFacts.counterfactual_rewards_illegal
                  this currentState rewards x Hcf Hx Hxinv). }
  change (id a) with a. rewrite (Hlook a Ha Hinv), (Hlook b Hb Hbinv).
  by destruct (get (regretSum this) b).
Qed.

Lemma illegal_choice_makes_regrets_NaN_witness :
  ∃ this', train constructor 1 getCurrentState (λ _, Fin (3 # 10)) = Some this'
           ∧ regretSum this' !! "call" = Some NaN.
Proof.
  eexists. split; [vm_compute; reflexivity|].
  apply (illegal_choice_makes_regrets_NaN constructor _ getCurrentState
           (λ _, Fin (3 # 10)) "call").
  - by_compute.
  - vm_compute. reflexivity.
  - reflexivity.
  - vm_compute. reflexivity.
  - by_compute.
  - reflexivity.
Defined.

(** The rounds of [train] keep the action list, and a regret that is NaN
    stays NaN. *)
Lemma train_rounds_NaN (currentState : GameState) (random : nat → num)
    (a : string) (rounds : list nat) : ∀ this this' : CFRPlayer,
  NoDup (actions this) → a ∈ actions this →
  get (regretSum this) a = NaN →
  foldl (λ acc i, this ← acc; train_round currentState this (random i))
        (Some this) rounds = Some this' →
  actions this' = actions this ∧ numActions this' = numActions this
  ∧ get (regretSum this') a = NaN.
Proof.
  induction rounds as [|i rounds IH]; intros this this' Hnd Ha Hnan;
    cbn [foldl mbind option_bind].
  - by intros [= <-].
  - destruct (train_round currentState this (random i)) as [this1|] eqn:Hr.
    2:{ intros H. exfalso. clear -H.
        induction rounds as [|j rounds IH]; [discriminate | auto]. }
    destruct (train_round_spec _ _ _ _ Hnd Hr) as (rw & _ & Hact & Hnum & Hreg).
    intros Hf. destruct (IH this1 this') as (H1 & H2 & H3).
    + by rewrite Hact.
    + by rewrite Hact.
    + unfold get. by rewrite (Hreg a Ha), Hnan.
    + done.
    + rewrite H1, H2, Hact, Hnum. done.
Qed.

(** X8. A cumulative regret that is NaN stays NaN however long the player
    is trained, and from then on [getStrategy] gives every action the
    probability [1 / numActions], whatever the other regrets are. *)
Theorem NaN_regret_is_permanent (this this' : CFRPlayer) (iterations : nat)
    (currentState : GameState) (random : nat → num) (a : string) :
  NoDup (actions this) →
  a ∈ actions this →
  get (regretSum this) a = NaN →
  train this iterations currentState random = Some this' →
  get (regretSum this') a = NaN
  ∧ ∀ b, b ∈ actions this' →
      (getStrategy this').1 !! b
      = Some (div (Fin 1%Q) (of_nat (numActions this'))).
Proof.
  intros Hnd Ha Hnan Htrain.
  destruct (train_rounds_NaN _ _ a _ _ _ Hnd Ha Hnan Htrain)
    as (Hact & Hnum & Hnan').
  split; [done|]. intros b Hb.
  apply StrategyFacts.getStrategy_uniform_share; [|done].
  rewrite (StrategyFacts.NaN_weight (regretSum this') (actions this') a);
    [done | by rewrite Hact | done].
Qed.

Lemma NaN_regret_is_permanent_witness :
  let poisoned :=
    default constructor
      (train constructor 1 getCurrentState (λ _, Fin (3 # 10))) in
  ∃ this', train poisoned 3 getCurrentState (λ _, Fin (1 # 10)) = Some this'
           ∧ get (regretSum this') "call" = NaN.
Proof.
  intros poisoned. eexists. split; [vm_compute; reflexivity|].
  apply (NaN_regret_is_permanent poisoned _ 3 getCurrentState
           (λ _, Fin (1 # 10)) "call").
  - by_compute.
  - by_compute.
  - vm_compute. reflexivity.
  - vm_compute. reflexivity.
Defined.

End TrainFacts.

(** ** Hand strength, outs and rewards of the CFR player *)

Module HandFacts.

Import CFR Distribution.

(** *** When the helpers throw *)

(** X9. [calculateReward] throws exactly when an entry of the hand or of
    the community cards is [undefined] or is a card without a [suit],
    whatever the action is: [calculateHandStrength] reads the suit of every
    entry and [calculateOuts] lower-cases it. *)
Theorem calculateReward_throws (currentState : GameState) (action : string) :
  calculateReward currentState action = None
  ↔ ∃ card, card ∈ playerHand currentState ++ communityCards currentState
            ∧ (card = None ∨ ∃ c, card = Some c ∧ suit c = None).
Proof.
  unfold calculateReward, getImprovementFactor, calculateHandStrength,
    calculateOuts.
  generalize (playerHand currentState ++ communityCards currentState).
  intros l. split.
  - intros H.
    assert (Hout : mapM (λ card : option Card,
                           c ← card; s ← suit c; Some (toLowerCase s)) l = None).
    { destruct (mapM id l) as [cards|] eqn:Hid.
      - cbn [mbind option_bind] in H.
        destruct (mapM (λ card : option Card, _) l); [discriminate | done].
      - apply mapM_None. apply mapM_None in Hid.
        apply Exists_exists in Hid as (x & Hx & Hnone).
        apply Exists_exists. exists x. split; [done|].
        unfold id in Hnone. by subst x. }
    apply mapM_None, Exists_exists in Hout as (card & Hin & Hnone).
    exists card. split; [done|]. destruct card as [c|]; [|by left].
    right. exists c. split; [done|]. cbn [mbind option_bind] in Hnone.
    by destruct (suit c).
  - intros (card & Hin & Hbad).
    assert (Hout : mapM (λ card : option Card,
                           c ← card; s ← suit c; Some (toLowerCase s)) l = None).
    { apply mapM_None, Exists_exists. exists card. split; [done|].
      destruct Hbad as [->|(c & -> & Hs)]; [done|].
      cbn [mbind option_bind]. by rewrite Hs. }
    rewrite Hout. by destruct (mapM id l).
Qed.

(** *** The improvement factor *)

Lemma outs_values (hand community : list (option Card)) (outs : num) :
  calculateOuts hand community = Some outs →
  outs = of_Z 9 ∨ outs = of_Z 10 ∨ outs = of_Z 0.
Proof.
  unfold calculateOuts. destruct (mapM _ _) as [suits|]; [|discriminate].
  cbn [mbind option_bind]. intros [= <-].
  destruct (_ =? 4)%nat; [by left|]. destruct (_ =? 3)%nat; auto.
Qed.

(** X10. The improvement factor is capped at 1: it is never greater than 1,
    and when fewer than 52 cards have been dealt it is a number between 0
    and 1. *)
Theorem improvement_factor_range (currentState : GameState) (factor : num) :
  getImprovementFactor currentState = Some factor →
  gt factor (of_Z 1) = false
  ∧ ∀ d, cardsDealt currentState = Fin d → (d < 52)%Q → probability factor.
Proof.
  unfold getImprovementFactor.
  destruct (calculateOuts _ _) as [outs|] eqn:Houts; [|discriminate].
  intros H.
  assert (Hf : factor = min2 (mul (div outs (sub (of_Z 52)
                                                 (cardsDealt currentState)))
                                  (of_Z 2)) (of_Z 1))
    by (symmetry; exact (Some_inj _ _ H)).
  clear H. subst factor. split.
  - generalize (mul (div outs (sub (of_Z 52) (cardsDealt currentState)))
                    (of_Z 2)).
    intros x. unfold min2, gt. destruct x as [q| | |]; try reflexivity.
    destruct (lt (of_Z 1) (Fin q)) eqn:Hlt; [reflexivity | exact Hlt].
  - intros d Hd Hlt. rewrite Hd.
    assert (Ho : ∃ o, outs = Fin o ∧ (0 <= o)%Q).
    { destruct (outs_values _ _ _ Houts) as [->|[->| ->]];
        eexists; (split; [reflexivity | done]). }
    destruct Ho as (o & -> & Ho).
    assert (Hrem : sub (of_Z 52) (Fin d) = Fin (52 - d)) by reflexivity.
    rewrite Hrem, StrategyFacts.div_Fin by lra.
    change (probability (min2 (Fin (o / (52 - d) * inject_Z 2))
                              (Fin (inject_Z 1)))).
    unfold min2.
    assert (Hq : (0 <= o / (52 - d) * inject_Z 2)%Q).
    { apply Qmult_le_0_compat; [|done].
      apply Qle_shift_div_l; lra. }
    destruct (lt _ _) eqn:Hcap.
    + exists (inject_Z 1). split; [done|]. split; done.
    + apply StrategyFacts.lt_Fin_false in Hcap.
      eexists. split; [reflexivity|]. split; [done|]. exact Hcap.
Qed.

Lemma improvement_factor_range_witness :
  ∃ factor, getImprovementFactor getCurrentState = Some factor
            ∧ gt factor (of_Z 1) = false ∧ probability factor.
Proof.
  eexists. split; [vm_compute; reflexivity|].
  destruct (improvement_factor_range getCurrentState _ eq_refl) as [Hcap Hp].
  split; [exact Hcap|]. apply (Hp (inject_Z 5)); [reflexivity | done].
Defined.

(** *** Straights *)

Lemma insert_sorted_perm (x : Z) (l : list Z) : insert_sorted x l ≡ₚ x :: l.
Proof.
  induction l as [|y l IH]; simpl; [done|].
  destruct (x <=? y)%Z; [done|]. rewrite IH. apply Permutation_swap.
Qed.

Lemma sort_numeric_perm (l : list Z) : sort_numeric l ≡ₚ l.
Proof.
  unfold sort_numeric. induction l as [|x l IH]; simpl; [done|].
  by rewrite insert_sorted_perm, IH.
Qed.

Lemma insert_sorted_sorted (x : Z) (l : list Z) :
  StronglySorted Z.le l → StronglySorted Z.le (insert_sorted x l).
Proof.
  induction 1 as [|y l Hs IH Hall]; simpl.
  - repeat constructor.
  - destruct (x <=? y)%Z eqn:Hle.
    + apply Z.leb_le in Hle. constructor; [by constructor|].
      constructor; [done|]. eapply Forall_impl; [exact Hall|].
      intros z Hz. simpl in Hz. lia.
    + apply Z.leb_gt in Hle. constructor; [done|].
      rewrite insert_sorted_perm. constructor; [lia | done].
Qed.

Lemma sort_numeric_sorted (l : list Z) : StronglySorted Z.le (sort_numeric l).
Proof.
  unfold sort_numeric. induction l as [|x l IH]; simpl; [constructor|].
  by apply insert_sorted_sorted.
Qed.

(** In a sorted list of distinct integers, entries [k] places apart
    differ by [k] at least. *)
Lemma sorted_distinct_gap (s : list Z) :
  StronglySorted Z.le s → NoDup s →
  ∀ (i k : nat) (a b : Z),
    s !! i = Some a → s !! (i + k)%nat = Some b → (a + Z.of_nat k <= b)%Z.
Proof.
  intros Hs Hnd.
  assert (Hstep : ∀ (i : nat) (a b : Z),
            s !! i = Some a → s !! S i = Some b → (a + 1 <= b)%Z).
  { clear -Hs Hnd. induction Hs as [|y s Hs IH Hall]; intros i a b Ha Hb.
    - done.
    - apply NoDup_cons in Hnd as [Hy Hnd]. destruct i as [|i].
      + simpl in Ha, Hb. injection Ha as <-.
        assert (Hin : b ∈ s) by (by eapply list_elem_of_lookup_2).
        rewrite Forall_forall in Hall. specialize (Hall b Hin).
        assert (y ≠ b) by (intros ->; contradiction). lia.
      + simpl in Ha, Hb. by eapply IH. }
  intros i k. induction k as [|k IH]; intros a b Ha Hb.
  - rewrite Nat.add_0_r in Hb. rewrite Ha in Hb. injection Hb as <-. lia.
  - rewrite Nat.add_succ_r in Hb.
    destruct (s !! (i + k)%nat) as [c|] eqn:Hc.
    + specialize (IH a c Ha eq_refl). specialize (Hstep _ _ _ Hc Hb). lia.
    + apply lookup_ge_None in Hc. apply lookup_lt_Some in Hb. lia.
Qed.

(** X11. For distinct rank indices, [calculateHandStrength] finds a
    straight exactly when five consecutive indices are among them: the
    test on the sorted indices, "two entries four places apart differ by
    4", is then the same as "five entries in a row". *)
Theorem isStraight_distinct_ranks (rankIndices : list Z) :
  NoDup rankIndices →
  isStraight (sort_numeric rankIndices) = true
  ↔ ∃ x, ∀ k, (0 <= k < 5)%Z → (x + k)%Z ∈ rankIndices.
Proof.
  intros Hnd.
  assert (Hperm := sort_numeric_perm rankIndices).
  assert (Hs := sort_numeric_sorted rankIndices).
  assert (Hnd' : NoDup (sort_numeric rankIndices)) by (by rewrite Hperm).
  assert (Hgap := sorted_distinct_gap _ Hs Hnd').
  set (s := sort_numeric rankIndices) in *.
  unfold isStraight. rewrite existsb_exists. split.
  - intros (i & Hi & Hwin). apply in_seq in Hi.
    destruct (s !! (i + 4)%nat) as [hi|] eqn:Hhi; [|discriminate].
    destruct (s !! i) as [lo|] eqn:Hlo; [|discriminate].
    apply Z.eqb_eq in Hwin. exists lo. intros k Hk.
    assert (Hik : ∃ c, s !! (i + Z.to_nat k)%nat = Some c).
    { apply lookup_lt_is_Some_2. apply lookup_lt_Some in Hhi. lia. }
    destruct Hik as [c Hc].
    assert (H1 := Hgap i (Z.to_nat k) lo c Hlo Hc).
    assert (H2 := Hgap (i + Z.to_nat k)%nat (4 - Z.to_nat k)%nat c hi Hc).
    replace (i + Z.to_nat k + (4 - Z.to_nat k))%nat with (i + 4)%nat in H2 by lia.
    specialize (H2 Hhi).
    assert (c = (lo + k)%Z) as -> by lia.
    rewrite <- Hperm. by eapply list_elem_of_lookup_2.
  - intros (x & Hx).
    assert (Hidx : ∀ k, (k < 5)%nat → ∃ j, s !! j = Some (x + Z.of_nat k)%Z).
    { intros k Hk. apply list_elem_of_lookup. rewrite Hperm. apply Hx. lia. }
    destruct (Hidx 0%nat) as [i Hi]; [lia|]. rewrite Z.add_0_r in Hi.
    assert (Hrun : ∀ k, (k < 5)%nat → s !! (i + k)%nat = Some (x + Z.of_nat k)%Z).
    { induction k as [|k IH]; intros Hk.
      - by rewrite Nat.add_0_r, Z.add_0_r.
      - specialize (IH ltac:(lia)).
        destruct (Hidx (S k) Hk) as [j Hj].
        assert (Hlt : (i + k < j)%nat).
        { destruct (decide (i + k < j)%nat) as [|Hge]; [done|]. exfalso.
          assert (H := Hgap j (i + k - j)%nat _ (x + Z.of_nat k)%Z Hj).
          replace (j + (i + k - j))%nat with (i + k)%nat in H by lia.
          specialize (H IH). lia. }
        destruct (s !! (i + S k)%nat) as [c|] eqn:Hc.
        + assert (H1 := Hgap (i + k)%nat 1%nat _ c IH).
          replace (i + k + 1)%nat with (i + S k)%nat in H1 by lia.
          specialize (H1 Hc).
          assert (H2 := Hgap (i + S k)%nat (j - (i + S k))%nat c
                          (x + Z.of_nat (S k))%Z Hc).
          replace (i + S k + (j - (i + S k)))%nat with j in H2 by lia.
          specialize (H2 Hj). f_equal. lia.
        + apply lookup_ge_None in Hc. apply lookup_lt_Some in Hj. lia. }
    exists i. split.
    + apply in_seq. assert (H4 := Hrun 4%nat ltac:(lia)).
      apply lookup_lt_Some in H4. lia.
    + rewrite (Hrun 4%nat) by lia. rewrite Hi. apply Z.eqb_eq. lia.
Qed.

Lemma isStraight_distinct_ranks_witness :
  isStraight (sort_numeric [12; 3; 11; 8; 10; 9; 0]%Z) = true.
Proof.
  apply (isStraight_distinct_ranks [12; 3; 11; 8; 10; 9; 0]%Z).
  - by_compute.
  - exists 8%Z. intros k Hk.
    assert (k = 0 ∨ k = 1 ∨ k = 2 ∨ k = 3 ∨ k = 4)%Z as H by lia.
    destruct H as [->|[->|[->|[->| ->]]]]; by_compute.
Defined.

End HandFacts.

(** ** The stand-alone script *)

Module ScriptFacts.
Import CFRScript Distribution.

Lemma keys_obj_set_new (k : string) (v : num) (o : object) :
  k ∉ keys o → keys (obj_set k v o) = keys o ++ [k].
Proof.
  unfold keys. induction o as [|[k' v'] o IH]; intros Hk; [done|].
  cbn [obj_set]. destruct (String.eqb_spec k k') as [->|Hne].
  - exfalso. apply Hk. by left.
  - cbn [fmap list_fmap fst app]. f_equal. apply IH.
    intros Hin. apply Hk. by right.
Qed.

(** The first loop of [getStrategy]: the keys of [regretSum] become the
    keys of the strategy, in the same order, each with the positive part
    of its regret. *)
Lemma script_weights_loop (rs : object) (ks : list string) :
  ∀ (s0 : object) (n0 : num),
    NoDup (keys s0 ++ ks) →
    let r := foldl (λ '(strategy, normalizingSum) action,
                      let w := max2 (obj_get rs action) (of_Z 0) in
                      (obj_set action w strategy, add normalizingSum w))
                   (s0, n0) ks in
    keys r.1 = keys s0 ++ ks
    ∧ (∀ a, obj_get r.1 a = if decide (a ∈ ks)
                            then max2 (obj_get rs a) (of_Z 0)
                            else obj_get s0 a)
    ∧ r.2 = foldl (λ n x, add n (max2 (obj_get rs x) (of_Z 0))) n0 ks.
Proof.
  induction ks as [|x ks IH]; intros s0 n0 Hnd; cbv zeta; cbn [foldl].
  - cbn [fst snd]. rewrite app_nil_r. split; [done|]. split; [|done].
    intros a. rewrite decide_False; [done | apply not_elem_of_nil].
  - apply NoDup_app in Hnd as (Hs0 & Hdis & Hks).
    apply NoDup_cons in Hks as [Hx Hks].
    assert (Hnew : x ∉ keys s0).
    { intros Hin. apply (Hdis x Hin). by left. }
    destruct (IH (obj_set x (max2 (obj_get rs x) (of_Z 0)) s0)
                 (add n0 (max2 (obj_get rs x) (of_Z 0)))) as (Hk & Hv & Hn).
    { rewrite keys_obj_set_new by done. rewrite <- app_assoc. cbn [app].
      apply NoDup_app. split; [done|]. split; [|by apply NoDup_cons].
      exact Hdis. }
    split; [|split].
    + etrans; [exact Hk|]. rewrite keys_obj_set_new by done.
      by rewrite <- app_assoc.
    + intros a. etrans; [apply Hv|]. destruct (decide (a ∈ ks)) as [Ha|Ha].
      * by rewrite decide_True by (by right).
      * destruct (decide (a = x)) as [->|Hne].
        -- rewrite decide_True by (by left).
           apply RegretFacts.obj_get_set_eq.
        -- rewrite decide_False by (rewrite elem_of_cons; tauto).
           by apply RegretFacts.obj_get_set_ne.
    + exact Hn.
Qed.

(** The second loop of [getStrategy], over distinct keys of the strategy:
    every key is given its share, the share is added to [strategySum],
    and the keys of the strategy stay as they are. *)
Lemma script_shares_loop (normalizingSum : num) (ks : list string) :
  NoDup ks →
  ∀ (st ss : object),
    ks ⊆ keys st →
    let P v := if gt normalizingSum (of_Z 0) then div v normalizingSum
               else div (Fin 1) (of_nat (length (keys st))) in
    let r := foldl (λ '(strategy, ssum) action,
                      let p := if gt normalizingSum (of_Z 0)
                               then div (obj_get strategy action) normalizingSum
                               else div (Fin 1)
                                      (of_nat (length (keys strategy))) in
                      (obj_set action p strategy,
                       obj_set action (add (obj_get ssum action) p) ssum))
                   (st, ss) ks in
    keys r.1 = keys st
    ∧ (∀ a, obj_get r.1 a = if decide (a ∈ ks) then P (obj_get st a)
                            else obj_get st a)
    ∧ (∀ a, obj_get r.2 a = if decide (a ∈ ks)
                            then add (obj_get ss a) (P (obj_get st a))
                            else obj_get ss a).
Proof.
  intros Hnd. induction Hnd as [|x ks Hx Hnd IH]; intros st ss Hsub P; cbv zeta.
  - cbn [foldl fst snd]. split; [done|].
    split; intros a; rewrite decide_False; try done; apply not_elem_of_nil.
  - cbn [foldl]. fold (P (obj_get st x)).
    set (p := P (obj_get st x)).
    assert (Hin : x ∈ keys st) by (apply Hsub; by left).
    assert (Hkeys : keys (obj_set x p st) = keys st)
      by (by apply RegretFacts.keys_obj_set_in).
    destruct (IH (obj_set x p st) (obj_set x (add (obj_get ss x) p) ss))
      as (Hk & H1 & H2).
    { rewrite Hkeys. intros a Ha. apply Hsub. by right. }
    rewrite Hkeys in H1, H2. fold P in H1, H2.
    split; [by etrans; [exact Hk|]|].
    split; intros a.
    + etrans; [apply H1|]. destruct (decide (a ∈ ks)) as [Ha|Ha].
      * rewrite decide_True by (by right).
        rewrite RegretFacts.obj_get_set_ne; [done|]. by intros ->.
      * destruct (decide (a = x)) as [->|Hne].
        -- rewrite decide_True by (by left).
           apply RegretFacts.obj_get_set_eq.
        -- rewrite decide_False by (rewrite elem_of_cons; tauto).
           by apply RegretFacts.obj_get_set_ne.
    + etrans; [apply H2|]. destruct (decide (a ∈ ks)) as [Ha|Ha].
      * rewrite decide_True by (by right).
        rewrite !RegretFacts.obj_get_set_ne; [done|by intros ->..].
      * destruct (decide (a = x)) as [->|Hne].
        -- rewrite decide_True by (by left).
           apply RegretFacts.obj_get_set_eq.
        -- rewrite decide_False by (rewrite elem_of_cons; tauto).
           by apply RegretFacts.obj_get_set_ne.
Qed.

(** What [getStrategy] of the script returns and what it leaves in the
    global objects. *)
Lemma script_getStrategy_spec (g : globals) :
  NoDup (keys (regretSum g)) →
  let ks := keys (regretSum g) in
  let w x := max2 (obj_get (regretSum g) x) (of_Z 0) in
  let normalizingSum := foldl (λ n x, add n (w x)) (of_Z 0) ks in
  let P v := if gt normalizingSum (of_Z 0) then div v normalizingSum
             else div (Fin 1) (of_nat (length ks)) in
  keys (getStrategy g).1 = ks
  ∧ (∀ a, a ∈ ks → obj_get (getStrategy g).1 a = P (w a))
  ∧ regretSum (getStrategy g).2 = regretSum g
  ∧ (∀ a, obj_get (strategySum (getStrategy g).2) a
          = if decide (a ∈ ks)
            then add (obj_get (strategySum g) a) (P (w a))
            else obj_get (strategySum g) a).
Proof.
  intros Hnd ks w normalizingSum P.
  destruct (script_weights_loop (regretSum g) ks [] (of_Z 0) Hnd)
    as (Hk & Hv & Hn).
  unfold getStrategy. fold ks.
  match goal with
  | |- context [foldl ?f (@nil ?T, ?z) ks] =>
      set (r1 := foldl f (@nil T, z) ks)
  end.
  assert (Hk' : keys r1.1 = ks) by exact Hk.
  assert (Hv' : ∀ a, a ∈ ks → obj_get r1.1 a = w a).
  { intros a Ha. etrans; [exact (Hv a)|]. by rewrite decide_True. }
  assert (Hn' : r1.2 = normalizingSum) by exact Hn.
  clearbody r1. clear Hk Hv Hn. destruct r1 as [st N].
  cbn [fst snd] in Hk', Hv', Hn'. subst N. cbv beta iota.
  assert (Hnd' : NoDup (keys st)) by (by rewrite Hk').
  destruct (script_shares_loop normalizingSum (keys st) Hnd' st
              (strategySum g)) as (Hk2 & H1 & H2); [done|].
  match goal with
  | |- context [foldl ?f (st, ?i) (keys st)] =>
      set (r2 := foldl f (st, i) (keys st))
  end.
  assert (Hk2' : keys r2.1 = ks) by (etrans; [exact Hk2 | exact Hk']).
  assert (H1' : ∀ a, a ∈ ks → obj_get r2.1 a = P (w a)).
  { intros a Ha. etrans; [exact (H1 a)|].
    rewrite decide_True by (by rewrite Hk'). rewrite Hk'.
    fold (P (obj_get st a)). by rewrite Hv'. }
  assert (H2' : ∀ a, obj_get r2.2 a
                     = if decide (a ∈ ks)
                       then add (obj_get (strategySum g) a) (P (w a))
                       else obj_get (strategySum g) a).
  { intros a. etrans; [exact (H2 a)|]. rewrite Hk'.
    destruct (decide (a ∈ ks)) as [Ha|Ha]; [|done].
    fold (P (obj_get st a)). by rewrite Hv'. }
  clearbody r2. clear Hk2 H1 H2. destruct r2 as [st2 ss2].
  cbn [fst snd regretSum strategySum] in *. done.
Qed.

(** X12. [getStrategy] of the stand-alone script returns an object with
    the keys of [regretSum], in the same order. Every key gets the
    positive part of its regret divided by the sum of the positive
    parts, taken over the keys from left to right, when that sum is
    positive, and [1 / n] for [n] keys when it is not. [regretSum] is
    left as it is, and what a key gets is added to its entry of
    [strategySum]. *)
Theorem script_getStrategy_shares (g : globals) :
  NoDup (keys (regretSum g)) →
  let ks := keys (regretSum g) in
  let positive x := max2 (obj_get (regretSum g) x) (of_Z 0) in
  let normalizingSum := foldl (λ n x, add n (positive x)) (of_Z 0) ks in
  let share x := if gt normalizingSum (of_Z 0)
                 then div (positive x) normalizingSum
                 else div (Fin 1) (of_nat (length ks)) in
  keys (getStrategy g).1 = ks
  ∧ (∀ a, a ∈ ks → obj_get (getStrategy g).1 a = share a)
  ∧ regretSum (getStrategy g).2 = regretSum g
  ∧ (∀ a, obj_get (strategySum (getStrategy g).2) a
          = if decide (a ∈ ks)
            then add (obj_get (strategySum g) a) (share a)
            else obj_get (strategySum g) a).
Proof. exact (script_getStrategy_spec g). Qed.

Lemma script_getStrategy_shares_witness :
  let g := updateRegrets initial "check" (of_Z 1)
             [("check", of_Z 1); ("match", NegInf); ("raise", of_Z 4);
              ("allin", of_Z 2)] in
  keys (getStrategy g).1 = ["check"; "match"; "raise"; "allin"].
Proof.
  intros g. destruct (script_getStrategy_shares g) as [H _].
  - by_compute.
  - exact H.
Defined.

(** X13. As long as no regret is positive, as before the first round, the
    script gives every action the probability [1 / n] and
    [recommendAction] shows the last key of [regretSum], "allin" for the
    objects the script starts with: of equal probabilities the [reduce]
    keeps the later one. *)
Theorem script_untrained_recommendation (g : globals) (a : string) :
  NoDup (keys (regretSum g)) →
  last (keys (regretSum g)) = Some a →
  Forall (λ a, gt (obj_get (regretSum g) a) (of_Z 0) = false)
         (keys (regretSum g)) →
  recommendAction g = Some (a, (getStrategy g).2)
  ∧ ∀ b, b ∈ keys (regretSum g) →
      obj_get (getStrategy g).1 b
      = div (Fin 1) (of_nat (length (keys (regretSum g)))).
Proof.
  intros Hnd Hlast Hreg.
  destruct (script_getStrategy_spec g Hnd) as (Hk & Hst & _).
  rewrite (StrategyFacts.no_positive_weight (obj_get (regretSum g))) in Hst
    by done.
  split; [|exact Hst].
  unfold recommendAction. destruct (getStrategy g) as [strategy g'].
  cbn [fst snd] in *. rewrite Hk.
  set (ks := keys (regretSum g)) in *.
  assert (Hne : ks ≠ []) by (by intros E; rewrite E in Hlast).
  assert (Hn : (0 < inject_Z (Z.of_nat (length ks)))%Q).
  { destruct ks; [done|]. rewrite <- (Zlt_Qlt 0). cbn [length]. lia. }
  assert (Hc : ∀ b, b ∈ ks →
            obj_get strategy b = Fin (1 / inject_Z (Z.of_nat (length ks)))).
  { intros b Hb. rewrite (Hst b Hb). apply StrategyFacts.div_Fin.
    intros H0. rewrite H0 in Hn. by apply Qlt_irrefl in Hn. }
  destruct (StrategyFacts.reduce_max_last (obj_get strategy) ks Hne)
    as (pre & best & post & He & Hr & _ & Hpost).
  { intros b Hb. eexists. by apply Hc. }
  rewrite Hr. cbn [mbind option_bind].
  destruct post as [|b post].
  - rewrite He, last_snoc in Hlast. by injection Hlast as ->.
  - exfalso. specialize (Hpost b ltac:(by left)).
    rewrite !Hc in Hpost
      by (rewrite He, elem_of_app, !elem_of_cons; auto).
    unfold gt in Hpost. apply StrategyFacts.lt_Fin in Hpost.
    by apply Qlt_irrefl in Hpost.
Qed.

Lemma script_untrained_recommendation_witness :
  fst <$> recommendAction initial = Some "allin".
Proof.
  destruct (script_untrained_recommendation initial "allin") as [H _];
    [by_compute | reflexivity | by_compute |].
  rewrite H. reflexivity.
Defined.

End ScriptFacts.

(** ** The bets of the opponents *)

Module BettingFacts.

Import Poker.
Local Open Scope Z_scope.

(** *** The strength of two hole cards *)

(** X14. For the two hole cards of a player, [calculateHandStrength] of
    Poker.js returns 8 when the cards are of one suit and next to each
    other in value, 5 when they are of one suit, 4 when they are next to
    each other, 1 for a pair and 0 otherwise: two cards of one suit count
    as a flush, two neighbours as a straight, and the scores 2, 3, 6 and 7
    never occur. The ace is next to the king only. *)
Theorem hole_cards_strength (c0 c1 : card) :
  let v0 := indexOf cardHeirarchy (value c0) in
  let v1 := indexOf cardHeirarchy (value c1) in
  let suited := bool_decide (suit c0 = suit c1) in
  let connected := bool_decide (Z.abs (v0 - v1) = 1) in
  calculateHandStrength [c0; c1]
  = if suited && connected then 8
    else if suited then 5
    else if connected then 4
    else if bool_decide (value c0 = value c1) then 1
    else 0.
Proof.
  destruct c0 as [s0 v0], c1 as [s1 v1].
  destruct s0, s1, v0, v1; reflexivity.
Qed.

(** The score of two hole cards reaches 4 exactly when they are of one
    suit or next to each other, and it is never 2 or 3. *)
Lemma hole_cards_four (c0 c1 : card) :
  let sc := calculateHandStrength [c0; c1] in
  (4 <=? sc) = bool_decide (suit c0 = suit c1)
               || bool_decide (Z.abs (indexOf cardHeirarchy (value c0)
                                      - indexOf cardHeirarchy (value c1)) = 1)
  ∧ (2 <=? sc) = (4 <=? sc).
Proof.
  destruct c0 as [s0 v0], c1 as [s1 v1].
  destruct s0, s1, v0, v1; split; reflexivity.
Qed.

(** *** Who folds *)

Lemma removeActivePlyr_players (plyrID : nat) (g : game) :
  activePlayers (removeActivePlyr plyrID g)
  = filter (λ p, p ≠ plyrID) (activePlayers g)
  ∧ playersHands (removeActivePlyr plyrID g) = playersHands g.
Proof.
  unfold removeActivePlyr. cbv zeta. by destruct (loosely_zero _).
Qed.

Lemma hand_of_Some (g : game) (i : nat) (c0 c1 : card) :
  playersHands g !! i = Some (c0, c1) → hand_of g i = [c0; c1].
Proof. unfold hand_of. by intros ->. Qed.

(** X15. In the betting of [match] an opponent stays in the hand exactly
    when the two hole cards are of one suit or next to each other in
    value: the random factor decides between a bet and a check, never
    about the fold, and the community cards play no part. An opponent
    holding a pair of aces folds. *)
Theorem match_bets_fold_rule (gameStep : Z) (playerDecisionFactor : nat → Q)
    (g : game) (i : nat) (c0 c1 : card) :
  gameStep < 4 →
  (1 ≤ i ≤ 3)%nat →
  playersHands g !! i = Some (c0, c1) →
  i ∈ activePlayers (match_bets gameStep playerDecisionFactor g)
  ↔ i ∈ activePlayers g
    ∧ (suit c0 = suit c1
       ∨ Z.abs (indexOf cardHeirarchy (value c0)
                - indexOf cardHeirarchy (value c1)) = 1).
Proof.
  intros Hstep Hi Hhand. unfold match_bets.
  match goal with |- context [foldl ?f g _] => set (step := f) end.
  assert (Hs : ∀ (g : game) (j : nat),
    playersHands (step g j) = playersHands g
    ∧ (j ≠ i → activePlayers (step g j) = activePlayers g
               ∨ activePlayers (step g j)
                 = filter (λ p, p ≠ j) (activePlayers g))
    ∧ (j = i → playersHands g !! i = Some (c0, c1) →
         i ∈ activePlayers (step g j)
         ↔ i ∈ activePlayers g
           ∧ (suit c0 = suit c1
              ∨ Z.abs (indexOf cardHeirarchy (value c0)
                       - indexOf cardHeirarchy (value c1)) = 1))).
  { clear g Hhand. intros g j. subst step. cbv beta.
    destruct (bool_decide (j ∈ activePlayers g)) eqn:Hact.
    2:{ split; [done|]. split; [by left|]. intros -> _.
        apply bool_decide_eq_false in Hact. tauto. }
    apply bool_decide_eq_true in Hact.
    assert (Hge : (4 <=? gameStep) = false) by (apply Z.leb_gt; lia).
    rewrite Hge.
    destruct ((8 <=? _) || _) eqn:Hbet.
    { split; [done|]. split; [by left|]. intros -> Hh. cbn.
      rewrite (hand_of_Some _ _ _ _ Hh) in Hbet.
      destruct (hole_cards_four c0 c1) as [H4 H2].
      assert (H : (4 <=? calculateHandStrength [c0; c1]) = true).
      { apply orb_true_iff in Hbet as [H|H].
        - apply Z.leb_le in H. apply Z.leb_le. lia.
        - apply andb_true_iff in H as [H _].
          apply Z.leb_le in H. apply Z.leb_le. lia. }
      rewrite H4 in H. apply orb_true_iff in H.
      rewrite !bool_decide_eq_true in H. tauto. }
    destruct ((4 <=? _) || _) eqn:Hcheck.
    { split; [done|]. split; [by left|]. intros -> Hh. cbn.
      rewrite (hand_of_Some _ _ _ _ Hh) in Hcheck.
      destruct (hole_cards_four c0 c1) as [H4 H2].
      assert (H : (4 <=? calculateHandStrength [c0; c1]) = true).
      { apply orb_true_iff in Hcheck as [H|H]; [done|].
        apply andb_true_iff in H as [H _]. by rewrite H2 in H. }
      rewrite H4 in H. apply orb_true_iff in H.
      rewrite !bool_decide_eq_true in H. tauto. }
    destruct (removeActivePlyr_players j
                (set_lastMove (<[j := fold_move]> (lastMove g))
                   (set_panel j folded g))) as [Ha Hp].
    rewrite Ha, Hp. split; [done|]. split; [by right|].
    intros -> Hh. cbn. rewrite (hand_of_Some _ _ _ _ Hh) in Hcheck.
    destruct (hole_cards_four c0 c1) as [H4 H2].
    apply orb_false_iff in Hcheck as [H _]. rewrite H4 in H.
    apply orb_false_iff in H as [Hs0 Hc0].
    apply bool_decide_eq_false in Hs0, Hc0.
    rewrite list_elem_of_filter. tauto. }
  assert (Hother : ∀ (g : game) (j : nat), j ≠ i →
    (i ∈ activePlayers (step g j) ↔ i ∈ activePlayers g)).
  { intros g0 j Hj. destruct (Hs g0 j) as (_ & Hd & _).
    destruct (Hd Hj) as [->| ->]; [done|].
    rewrite list_elem_of_filter. split; [tauto|]. intros H. split; [lia | done]. }
  cbn [foldl].
  destruct (Hs g 1%nat) as (Hh1 & _ & Hi1).
  destruct (Hs (step g 1%nat) 2%nat) as (Hh2 & _ & Hi2).
  destruct (Hs (step (step g 1%nat) 2%nat) 3%nat) as (Hh3 & _ & Hi3).
  destruct i as [|[|[|[|]]]]; try lia.
  - rewrite (Hother _ 3%nat), (Hother _ 2%nat) by lia. by apply Hi1.
  - rewrite (Hother _ 3%nat) by lia. rewrite Hi2, (Hother _ 1%nat) by
      (try lia; try done; by rewrite Hh1). done.
  - rewrite Hi3 by (try done; by rewrite Hh2, Hh1).
    rewrite (Hother _ 2%nat), (Hother _ 1%nat) by lia. done.
Qed.


Lemma match_bets_fold_rule_witness :
  let g := Table.dealt Table.three_way in
  3%nat ∈ activePlayers (match_bets 2 (λ _, 6 # 10)%Q g)
  ↔ 3%nat ∈ activePlayers g
    ∧ (clubs = clubs
       ∨ Z.abs (indexOf cardHeirarchy three - indexOf cardHeirarchy four) = 1).
Proof.
  intros g.
  apply (match_bets_fold_rule 2 (λ _, 6 # 10)%Q g 3
           (Table.of_ three clubs) (Table.of_ four clubs)).
  - lia.
  - lia.
  - vm_compute. reflexivity.
Defined.

Lemma Qgt_true (a b : Q) : Qgt a b = true ↔ (b < a)%Q.
Proof.
  unfold Qgt. rewrite negb_true_iff, <- not_true_iff_false, Qle_bool_iff.
  split; [apply Qnot_le_lt | apply Qlt_not_le].
Qed.

(** X16. In the betting of [deal] an opponent stays in the hand exactly
    when the two hole cards are of one suit or next to each other in
    value, or the random number drawn for the opponent is above 0.5. *)
Theorem deal_bets_fold_rule (betDecision : nat → Q) (bet2 : Q) (g : game)
    (i : nat) (c0 c1 : card) :
  (1 ≤ i ≤ 3)%nat →
  playersHands g !! i = Some (c0, c1) →
  i ∈ activePlayers (deal_bets betDecision bet2 g).1
  ↔ i ∈ activePlayers g
    ∧ (suit c0 = suit c1
       ∨ Z.abs (indexOf cardHeirarchy (value c0)
                - indexOf cardHeirarchy (value c1)) = 1
       ∨ (1 # 2 < betDecision i)%Q).
Proof.
  intros Hi Hhand. unfold deal_bets.
  match goal with |- context [foldl ?f _ _] => set (step := f) end.
  assert (Hs : ∀ (acc : game * Q) (j : nat),
    playersHands (step acc j).1 = playersHands acc.1
    ∧ (j ≠ i → activePlayers (step acc j).1 = activePlayers acc.1
               ∨ activePlayers (step acc j).1
                 = filter (λ p, p ≠ j) (activePlayers acc.1))
    ∧ (j = i → playersHands acc.1 !! i = Some (c0, c1) →
         i ∈ activePlayers (step acc j).1
         ↔ i ∈ activePlayers acc.1
           ∧ (suit c0 = suit c1
              ∨ Z.abs (indexOf cardHeirarchy (value c0)
                       - indexOf cardHeirarchy (value c1)) = 1
              ∨ (1 # 2 < betDecision i)%Q))).
  { clear g Hhand. intros [g m] j. subst step. cbv beta iota. cbn [fst].
    destruct ((8 <=? _) || _) eqn:Hbet.
    { split; [done|]. split; [by left|]. intros -> Hh. cbn.
      rewrite (hand_of_Some _ _ _ _ Hh) in Hbet.
      destruct (hole_cards_four c0 c1) as [H4 H2].
      assert (H : (4 <=? calculateHandStrength [c0; c1]) = true
                  ∨ (1 # 2 < betDecision i)%Q).
      { apply orb_true_iff in Hbet as [H|H].
        - left. apply Z.leb_le in H. apply Z.leb_le. lia.
        - right. apply Qgt_true in H. lra. }
      rewrite H4 in H. rewrite orb_true_iff, !bool_decide_eq_true in H. tauto. }
    destruct ((4 <=? _) || _) eqn:Hcheck.
    { split; [done|]. split; [by left|]. intros -> Hh. cbn.
      rewrite (hand_of_Some _ _ _ _ Hh) in Hcheck.
      destruct (hole_cards_four c0 c1) as [H4 H2].
      rewrite H4 in Hcheck.
      rewrite !orb_true_iff, !bool_decide_eq_true, Qgt_true in Hcheck.
      assert ((5 # 10 < betDecision i)%Q → (1 # 2 < betDecision i)%Q)
        by (intros; lra).
      tauto. }
    cbn [fst].
    destruct (removeActivePlyr_players j
                (set_lastMove (<[j := fold_move]> (lastMove g))
                   (set_panel j folded g))) as [Ha Hp].
    rewrite Ha, Hp. split; [done|]. split; [by right|].
    intros -> Hh. cbn. rewrite (hand_of_Some _ _ _ _ Hh) in Hcheck.
    destruct (hole_cards_four c0 c1) as [H4 H2].
    rewrite H4 in Hcheck.
    rewrite !orb_false_iff, !bool_decide_eq_false in Hcheck.
    destruct Hcheck as [[Hs0 Hc0] Hr].
    assert (¬ (1 # 2 < betDecision i)%Q).
    { intros Hlt. apply not_true_iff_false in Hr. apply Hr.
      apply Qgt_true. lra. }
    rewrite list_elem_of_filter. tauto. }
  assert (Hother : ∀ (acc : game * Q) (j : nat), j ≠ i →
    (i ∈ activePlayers (step acc j).1 ↔ i ∈ activePlayers acc.1)).
  { intros acc j Hj. destruct (Hs acc j) as (_ & Hd & _).
    destruct (Hd Hj) as [->| ->]; [done|].
    rewrite list_elem_of_filter. split; [tauto|]. intros H. split; [lia | done]. }
  cbn [foldl].
  destruct (Hs (g, 10%Q) 1%nat) as (Hh1 & _ & Hi1).
  destruct (Hs (step (g, 10%Q) 1%nat) 2%nat) as (Hh2 & _ & Hi2).
  destruct (Hs (step (step (g, 10%Q) 1%nat) 2%nat) 3%nat) as (Hh3 & _ & Hi3).
  cbn [fst] in *.
  destruct i as [|[|[|[|]]]]; try lia.
  - rewrite (Hother _ 3%nat), (Hother _ 2%nat) by lia. by apply Hi1.
  - rewrite (Hother _ 3%nat) by lia. rewrite Hi2, (Hother _ 1%nat) by
      (try lia; try done; by rewrite Hh1). done.
  - rewrite Hi3 by (try done; by rewrite Hh2, Hh1).
    rewrite (Hother _ 2%nat), (Hother _ 1%nat) by lia. done.
Qed.


Lemma deal_bets_fold_rule_witness :
  let g := Table.dealt Table.all_fold in
  1%nat ∈ activePlayers (deal_bets (λ _, 3 # 10)%Q 50 g).1
  ↔ 1%nat ∈ activePlayers g
    ∧ (clubs = diamonds
       ∨ Z.abs (indexOf cardHeirarchy two - indexOf cardHeirarchy seven) = 1
       ∨ (1 # 2 < 3 # 10)%Q).
Proof.
  intros g.
  apply (deal_bets_fold_rule (λ _, 3 # 10)%Q 50 g 1
           (Table.of_ two clubs) (Table.of_ seven diamonds)).
  - lia.
  - vm_compute. reflexivity.
Defined.

Lemma filter_all {A} (P : A → Prop) `{∀ x, Decision (P x)} (l : list A) :
  Forall P l → filter P l = l.
Proof.
  induction 1 as [|x l Hx Hl IH]; [done|].
  by rewrite filter_cons_True, IH.
Qed.

(** The folds at the start of [match], over any list of players. *)
Lemma fold_loop_players (cond : nat → bool) (players : list nat) :
  ∀ g : game,
    activePlayers
      (foldl (λ g player,
                if cond player
                then removeActivePlyr player (set_panel player folded g)
                else g) g players)
    = filter (λ p, ¬ (p ∈ players ∧ cond p = true)) (activePlayers g).
Proof.
  induction players as [|x players IH]; intros g; cbn [foldl].
  - symmetry. apply filter_all. apply Forall_forall. intros p _ [H _].
    by apply elem_of_nil in H.
  - rewrite IH. destruct (cond x) eqn:Hx.
    + destruct (removeActivePlyr_players x (set_panel x folded g)) as [-> _].
      cbn [activePlayers set_panel set_status].
      rewrite list_filter_filter. apply list_filter_iff. intros p.
      rewrite elem_of_cons. split.
      * intros [H1 H2] [[->|H3] H4]; [done | tauto].
      * intros H. split; [tauto|]. intros ->. tauto.
    + apply list_filter_iff. intros p. rewrite elem_of_cons. split.
      * intros H [[->|H3] H4]; [congruence | tauto].
      * tauto.
Qed.

(** X17. At the start of [match], when an active opponent's last move is a
    bet, exactly the active opponents whose last move is a check leave the
    hand; player 0 and the opponents who bet stay. When no active opponent
    has bet, nobody leaves. *)
Theorem fold_on_raise_rule (g : game) (p : nat) :
  let raised :=
    ∃ q, q ∈ activePlayers g ∧ q ≠ 0%nat ∧ lastMove g !! q = Some bet_move in
  p ∈ activePlayers (fold_on_raise g)
  ↔ p ∈ activePlayers g
    ∧ ¬ (raised ∧ p ≠ 0%nat ∧ lastMove g !! p = Some check_move).
Proof.
  intros raised. unfold fold_on_raise.
  pose (did (m : move) (player : nat) :=
          negb (player =? 0)%nat
          && bool_decide (lastMove g !! player = Some m)).
  change (p ∈ activePlayers
                (if existsb (did bet_move) (activePlayers g)
                 then foldl (λ g player,
                               if did check_move player
                               then removeActivePlyr player
                                      (set_panel player folded g)
                               else g) g (activePlayers g)
                 else g)
          ↔ p ∈ activePlayers g
            ∧ ¬ (raised ∧ p ≠ 0%nat ∧ lastMove g !! p = Some check_move)).
  assert (Hdid : ∀ m q, did m q = true ↔ q ≠ 0%nat ∧ lastMove g !! q = Some m).
  { intros m q. subst did. cbv beta.
    rewrite andb_true_iff, negb_true_iff, Nat.eqb_neq, bool_decide_eq_true.
    done. }
  destruct (existsb (did bet_move) (activePlayers g)) eqn:He.
  - assert (Hr : raised).
    { apply existsb_exists in He as (q & Hq & Hd). exists q.
      apply Hdid in Hd. by rewrite list_elem_of_In. }
    rewrite (fold_loop_players (did check_move)).
    rewrite list_elem_of_filter, Hdid. tauto.
  - assert (Hr : ¬ raised).
    { intros (q & Hq & Hq0 & Hm).
      apply not_true_iff_false in He. apply He.
      apply existsb_exists. exists q. split; [by apply list_elem_of_In|].
      by apply Hdid. }
    tauto.
Qed.

End BettingFacts.

(** ** The showdown *)

Module ShowdownFacts.

Import Poker.
Local Open Scope Z_scope.

(** [Math.max] of a non-empty array is one of its entries and no entry
    is greater. *)
Lemma Math_max_greatest (arr : list Z) (m : Z) :
  Math_max arr = N m → m ∈ arr ∧ Forall (λ x, x <= m) arr.
Proof.
  destruct arr as [|x arr]; [discriminate|]. cbn [Math_max]. intros [= <-].
  revert x. induction arr as [|y arr IH]; intros x; cbn [foldl].
  - split; [by left|]. by repeat constructor.
  - destruct (IH (x `max` y)) as [Hin Hall].
    apply Forall_cons in Hall as [Hxy Hall]. split.
    + apply elem_of_cons in Hin as [Hin|Hin]; [|by right; right].
      rewrite Hin. destruct (Z.max_spec x y) as [[_ ->]|[_ ->]];
        [right; by left | by left].
    + constructor; [lia|]. constructor; [lia | done].
Qed.

(** [indexOf] returns the first place of an entry of the array. *)
Lemma indexOf_first {A} `{EqDecision A} (arr : list A) (x : A) :
  x ∈ arr →
  ∃ k : nat, indexOf arr x = Z.of_nat k ∧ arr !! k = Some x.
Proof.
  unfold indexOf. intros Hin.
  assert (Hgen : ∀ i : Z, ∃ k : nat,
            indexOf_from i x arr = i + Z.of_nat k ∧ arr !! k = Some x).
  { induction arr as [|y arr IH]; [by apply elem_of_nil in Hin|].
    intros i. cbn [indexOf_from]. destruct (decide (x = y)) as [->|Hne].
    - exists 0%nat. split; [lia | done].
    - apply elem_of_cons in Hin as [?|Hin]; [done|].
      destruct (IH Hin (i + 1)) as (k & Hk & Hl). exists (S k).
      split; [lia | done]. }
  destruct (Hgen 0) as (k & Hk & Hl). exists k. split; [lia | done].
Qed.

(** An entry that occurs once occurs at one place only. *)
Lemma single_occurrence (arr : list Z) (m : Z) (i j : nat) :
  getOccurrence arr (N m) = 1 →
  arr !! i = Some m → arr !! j = Some m → i = j.
Proof.
  unfold getOccurrence. revert i j.
  induction arr as [|x arr IH]; intros i j Hocc Hi Hj; [done|].
  assert (Hpos : ∀ k, arr !! k = Some m →
            (0 < length (filter (λ v, N v = N m) arr))%nat).
  { intros k Hk. apply list_elem_of_lookup_2 in Hk.
    assert (Hf : m ∈ filter (λ v, N v = N m) arr)
      by (by apply list_elem_of_filter).
    destruct (filter _ arr); [by apply elem_of_nil in Hf | simpl; lia]. }
  destruct (decide (N x = N m)) as [Hx|Hx].
  - rewrite filter_cons_True in Hocc by done. cbn [length] in Hocc.
    destruct i as [|i], j as [|j]; [done| | |].
    + specialize (Hpos j Hj). lia.
    + specialize (Hpos i Hi). lia.
    + specialize (Hpos i Hi). lia.
  - rewrite filter_cons_False in Hocc by done.
    destruct i as [|i]; [simpl in Hi; congruence|].
    destruct j as [|j]; [simpl in Hj; congruence|].
    f_equal. by apply IH.
Qed.

(** X18. When exactly one player holds the highest category of
    [resultList], the showdown names that player, without a look at the
    cards compared in a tie: [topHand] is the place of the one entry that
    is greater than all others, and no split is declared. *)
Theorem showdown_single_best (g : game) :
  getOccurrence (resultList g) (Math_max (resultList g)) = 1 →
  ∃ (i : nat) (best : Z),
    showdown g = Some (set_topHand (N (Z.of_nat i)) g, false)
    ∧ resultList g !! i = Some best
    ∧ ∀ (j : nat) (x : Z), j ≠ i → resultList g !! j = Some x → x < best.
Proof.
  intros Hocc. unfold showdown. cbv zeta. rewrite Hocc. cbn [Z.eqb Pos.eqb].
  destruct (Math_max (resultList g)) as [| |m] eqn:Hmax.
  - by destruct (resultList g).
  - destruct (resultList g); [discriminate Hocc | discriminate Hmax].
  - destruct (Math_max_greatest _ _ Hmax) as [Hin Hall].
    destruct (indexOf_first _ _ Hin) as (i & Hidx & Hi).
    exists i, m. cbn [indexOf_val]. rewrite Hidx. split; [done|].
    split; [done|]. intros j x Hj Hx.
    rewrite Forall_forall in Hall.
    assert (x <= m) by (apply Hall; by eapply list_elem_of_lookup_2).
    assert (x ≠ m).
    { intros ->. apply Hj. by eapply (single_occurrence _ m). }
    lia.
Qed.

Lemma showdown_single_best_witness :
  let g := Table.river_after [0%nat] Table.wheel_against_six in
  ∃ (i : nat) (best : Z),
    showdown g = Some (set_topHand (N (Z.of_nat i)) g, false)
    ∧ resultList g !! i = Some best
    ∧ ∀ (j : nat) (x : Z), j ≠ i → resultList g !! j = Some x → x < best.
Proof.
  intros g. apply (showdown_single_best g). vm_compute. reflexivity.
Defined.

End ShowdownFacts.

(** ** Ties at the showdown *)

Module TieFacts.

Import Poker Frame Table EvaluateFacts ShowdownFacts.
Local Open Scope Z_scope.










Lemma tie_scripts_play_out (s : script) :
  s ∈ [opponents_tie; board_plays; two_pair_and_aces] →
  deal deck deck (gen_of <$> holes s) (λ _, random s) 50 start
    = Drawn (dealt s) []
  ∧ match_ deck deck (gen_of <$> take 3 (board s)) (λ _, random s) 10
           (dealt s) = Drawn (flop s) []
  ∧ match_ deck deck (gen_of <$> take 1 (drop 3 (board s))) (λ _, random s)
           10 (flop s) = Drawn (turn s) []
  ∧ match_cards deck deck (gen_of <$> drop 4 (board s)) (turn s)
    = Drawn (river s) []
  ∧ gameIncrement (river s) = 4.
Proof.
  rewrite !elem_of_cons, elem_of_nil.
  intros [->|[->|[->|[]]]]; vm_compute; repeat split.
Qed.






End TieFacts.

(** ** What the evaluation never writes *)

Module FrameFacts.

Import Poker Frame EvaluateFacts.
Local Open Scope Z_scope.

(** *** What the evaluation and the showdown never write *)

Lemma foldl_same {S B T} (π : S → T) (f : S → B → S) (l : list B) (s : S) :
  (∀ s b, π (f s b) = π s) → π (foldl f s l) = π s.
Proof.
  intros Hf. revert s. induction l as [|b l IH]; intros s; simpl; [done|].
  by rewrite IH.
Qed.

Lemma value_step_seats valueArr iteration gameStep g i :
  seats (value_step valueArr iteration gameStep g i) = seats g.
Proof. unfold value_step, push_pair. split_cases; reflexivity. Qed.

Lemma count_phase_seats valueArr iteration gameStep g :
  seats (count_phase valueArr iteration gameStep g) = seats g.
Proof.
  unfold count_phase.
  assert (H := foldl_same seats (value_step valueArr iteration gameStep)
                 (seq 0 (length valueArr)) g
                 (λ g b, value_step_seats valueArr iteration gameStep g b)).
  split_cases; exact H.
Qed.

Lemma straight_step_seats cardIndexes iteration acc i :
  seats (straight_step cardIndexes iteration acc i).1 = seats acc.1.
Proof.
  unfold straight_step. destruct acc as [g r].
  destruct (cardIndexes !! i); [|done]. simpl.
  split_cases; reflexivity.
Qed.

Lemma window_step_seats valueArr iteration acc i :
  seats (window_step valueArr iteration acc i).1 = seats acc.1.
Proof.
  unfold window_step. destruct acc as [g r]. split_cases; reflexivity.
Qed.

Lemma straight_phase_seats cardIndexes valueArr iteration g :
  seats (straight_phase cardIndexes valueArr iteration g).1 = seats g.
Proof.
  unfold straight_phase.
  match goal with
  | |- context [foldl (straight_step ?c ?i) ?a ?l] =>
      assert (H1 := foldl_same (λ acc : game * runs, seats acc.1)
                      (straight_step c i) l a (straight_step_seats c i));
      destruct (foldl (straight_step c i) a l) as [g1 r1]
  end.
  match goal with
  | |- context [foldl (window_step ?v ?i) ?a ?l] =>
      assert (H2 := foldl_same (λ acc : game * bool, seats acc.1)
                      (window_step v i) l a (window_step_seats v i));
      destruct (foldl (window_step v i) a l) as [g2 s2]
  end.
  simpl in *. rewrite <- H1, <- H2. split_cases; reflexivity.
Qed.

Lemma category_phase_seats valueArr suitedArr straight iteration g :
  seats (category_phase valueArr suitedArr straight iteration g) = seats g.
Proof. unfold category_phase, raise_result. split_cases; reflexivity. Qed.

Lemma closing_phase_seats valueArr iteration gameStep g :
  seats (closing_phase valueArr iteration gameStep g) = seats g.
Proof.
  unfold closing_phase.
  match goal with
  | |- context [foldl ?f g ?l] =>
      assert (H : seats (foldl f g l) = seats g);
      [apply (foldl_same seats); intros; split_cases; reflexivity|];
      generalize dependent (foldl f g l)
  end.
  intros g1 H. rewrite <- H. split_cases; reflexivity.
Qed.

Lemma evaluate_seats cardsArr iteration gameStep g :
  seats (evaluate cardsArr iteration gameStep g).1 = seats g.
Proof.
  unfold evaluate.
  destruct (straight_phase _ _ _ _) as [g1 r1] eqn:Hs. simpl.
  rewrite closing_phase_seats, category_phase_seats.
  change g1 with (g1, r1).1. rewrite <- Hs.
  by rewrite straight_phase_seats, count_phase_seats.
Qed.

Lemma straight_tie_seats g g' b :
  straight_tie g = Some (g', b) → seats g' = seats g.
Proof.
  unfold straight_tie. cbv zeta.
  destruct (_ && _).
  - destruct (showPlayersCards _) as [g2|] eqn:Hs; [|discriminate].
    intros [= <- <-]. by apply showPlayersCards_Some in Hs as ->.
  - by intros [= <- <-].
Qed.

Lemma two_pair_tie_seats g : seats (two_pair_tie g) = seats g.
Proof.
  unfold two_pair_tie. cbv zeta.
  assert (Hstep : ∀ (x : jsval) (fill : list Z) (l : list nat)
                    (acc : game * list (list Z)),
    seats (foldl (λ '(g, pwp) i,
                    if bool_decide (indexOf_val (pwp !!! i) x ≠ -1) then (g, pwp)
                    else (set_result i (-1) (set_compare i (-1) g),
                          <[i := fill]> pwp)) acc l).1 = seats acc.1).
  { intros x fill l. induction l as [|i l IH]; intros [g0 pwp]; [done|].
    simpl. rewrite IH. by destruct (bool_decide _). }
  match goal with
  | |- context [foldl ?f (g, ?p) (seq 0 4)] =>
      assert (H1 := Hstep (Math_max (plyr1Pair g ++ plyr2Pair g ++ plyr3Pair g
                                     ++ plyr4Pair g)) [] (seq 0 4) (g, p));
      destruct (foldl f (g, p) (seq 0 4)) as [g1 pwp1]
  end.
  rewrite Hstep. exact H1.
Qed.

Lemma hole_loop_seats multiWinMax rest : ∀ hiHole lowHole g g' b,
  hole_loop multiWinMax hiHole lowHole rest g = Some (g', b) →
  seats g' = seats g.
Proof.
  induction rest as [|i rest IH]; intros hiHole lowHole g g' b; simpl.
  - by intros [= <- <-].
  - destruct (bestHoleCards g !!! i) as [lo hi]. intros H.
    repeat match type of H with
           | context [if ?c then _ else _] => destruct c; cbn beta iota in H
           end.
    all: try (destruct (showPlayersCards _) as [g2|] eqn:Hs; [|discriminate];
              injection H as <- <-; apply showPlayersCards_Some in Hs as ->;
              reflexivity).
    all: by rewrite (IH _ _ _ _ _ H).
Qed.

Lemma drop_losers_seats winningHand g g' :
  drop_losers winningHand g = Some g' → seats g' = seats g.
Proof.
  unfold drop_losers. generalize (seq 0 (length (resultList g))). intros l.
  assert (Hgen : ∀ (acc : option game) g1,
    foldl (λ acc i,
             g ← acc;
             if bool_decide (N (resultList g !!! i) = winningHand) then Some g
             else if (i <? length (bestHoleCards g))%nat
                  then Some (set_bestHoleCards
                               (<[i := (-1, -1)]> (bestHoleCards g))
                               (set_compare i (-1) g))
                  else None) acc l = Some g1 →
    ∃ g0, acc = Some g0 ∧ seats g1 = seats g0).
  { induction l as [|i l IH]; intros acc g1; simpl.
    - intros ->. eauto.
    - intros Hf. destruct (IH _ _ Hf) as (g2 & Hacc & Hk).
      destruct acc as [g0|]; [|discriminate]. exists g0. split; [done|].
      rewrite Hk. simpl in Hacc.
      destruct (bool_decide _); [by injection Hacc as <-|].
      destruct (_ <? _)%nat; [by injection Hacc as <-|discriminate]. }
  intros Hf. by destruct (Hgen _ _ Hf) as (g0 & [= <-] & ?).
Qed.

Lemma hole_card_tie_seats g g' b :
  hole_card_tie g = Some (g', b) → seats g' = seats g.
Proof.
  unfold hole_card_tie.
  destruct (mapM _ _) as [winnersList|]; [|discriminate].
  cbn [mbind option_bind]. cbv zeta.
  destruct (1 <? _).
  - intros H. by rewrite (hole_loop_seats _ _ _ _ _ _ _ H).
  - by intros [= <- <-].
Qed.

Lemma showdown_seats g g' b :
  showdown g = Some (g', b) → seats g' = seats g.
Proof.
  unfold showdown. cbv zeta.
  destruct (_ =? 1); [by intros [= <- <-]|].
  destruct (drop_losers _ g) as [g1|] eqn:Hd; [|discriminate].
  apply drop_losers_seats in Hd. cbn [mbind option_bind].
  destruct (1 <? _); [|intros [= <- <-]; by rewrite <- Hd].
  match goal with
  | |- context [set_topHand ?t g1] => set (g2 := set_topHand t g1)
  end.
  assert (H2 : seats g2 = seats g) by (by rewrite <- Hd).
  clearbody g2.
  assert (Htie : ∀ g3 : game, seats g3 = seats g →
            hole_card_tie (if decide (Math_max (resultList g) = N 2)
                           then two_pair_tie g3 else g3) = Some (g', b) →
            seats g' = seats g).
  { intros g3 H3 H. rewrite (hole_card_tie_seats _ _ _ H).
    destruct (decide _); [by rewrite two_pair_tie_seats|done]. }
  destruct (decide (Math_max (resultList g) = N 4)).
  - destruct (straight_tie g2) as [[g3 [|]]|] eqn:Hst; [| |discriminate];
      cbn [mbind option_bind]; apply straight_tie_seats in Hst.
    + intros [= <- <-]. by rewrite Hst.
    + apply Htie. by rewrite Hst.
  - cbn [mbind option_bind]. by apply Htie.
Qed.

Lemma seats_fixed g g' : seats g' = seats g → fixed g' = fixed g.
Proof. unfold seats, fixed. intros [=]. congruence. Qed.

(** *** What the betting part never writes *)

Lemma removeActivePlyr_fixed plyrID g :
  fixed (removeActivePlyr plyrID g) = fixed g.
Proof. unfold removeActivePlyr. cbv zeta. by destruct (loosely_zero _). Qed.

Lemma fold_checking_fixed g : fixed (fold_checking g) = fixed g.
Proof.
  unfold fold_checking. destruct (bool_decide _); [|done].
  apply (foldl_same fixed). intros g0 p.
  etrans; [|apply (removeActivePlyr_fixed p g0)]. reflexivity.
Qed.

Lemma betting_part_fixed valueArr suitedArr r iteration gameStep last g g' :
  betting_part valueArr suitedArr r iteration gameStep last g = Some g' →
  fixed g' = fixed g.
Proof.
  unfold betting_part. cbv zeta.
  destruct (bool_decide (iteration ∈ activePlayers g)); [|by intros [= <-]].
  match goal with
  | |- (if ?c then Some (fold_checking ?x) else _) = _ → _ =>
      assert (Hx : fixed x = fixed g) by (split_cases; reflexivity);
      destruct c
  end.
  { intros [= <-]. by rewrite fold_checking_fixed. }
  clear Hx.
  match goal with
  | |- (if ?c then Some (fold_checking ?x) else _) = _ → _ =>
      assert (Hx : fixed x = fixed g) by (split_cases; reflexivity);
      destruct c
  end.
  { intros [= <-]. by rewrite fold_checking_fixed. }
  clear Hx.
  match goal with
  | |- (if ?c then _ else Some ?x) = _ → _ =>
      set (g1 := x);
      assert (H1 : fixed g1 = fixed g)
        by (subst g1; split_cases; reflexivity);
      clearbody g1; destruct c
  end.
  2:{ by intros [= <-]. }
  destruct (decide (topHand g1 = N 0)); cbn [mbind option_bind].
  - intros Hs. by apply showPlayersCards_Some in Hs as ->.
  - unfold youLose. destruct (topHand g1) as [| |z]; try discriminate.
    destruct (_ && _); [|discriminate]. cbn [mbind option_bind].
    intros Hs. by apply showPlayersCards_Some in Hs as ->.
Qed.

Lemma evaluateHand_frame iteration gameStep g g' :
  evaluateHand iteration gameStep g = Some g' → fixed g' = fixed g.
Proof.
  unfold evaluateHand.
  destruct (playersHands g !! iteration) as [hand|]; [|discriminate].
  cbn [mbind option_bind]. destruct (existsb _ _); [discriminate|]. cbv zeta.
  destruct (evaluate _ _ _ g) as [g1 r1] eqn:He.
  assert (Hk : fixed g1 = fixed g).
  { apply seats_fixed. change g1 with (g1, r1).1. rewrite <- He.
    apply evaluate_seats. }
  destruct (_ && _).
  - destruct (showdown g1) as [[g2 returned]|] eqn:Hs; [|discriminate].
    cbn [mbind option_bind]. apply showdown_seats, seats_fixed in Hs.
    destruct returned.
    + intros [= <-]. by rewrite Hs.
    + intros Hb. apply betting_part_fixed in Hb. by rewrite Hb, Hs.
  - intros Hb. apply betting_part_fixed in Hb. by rewrite Hb.
Qed.

(** X19. [evaluateHand] never writes the hole cards, the list of used
    cards, the last moves of the players, the label of the "match"
    button, the step counter or [maxBetHit]: whatever the step and the
    hand, they are the same after the call. *)
Theorem evaluateHand_fixed (iteration : nat) (gameStep : Z) (g g' : game) :
  evaluateHand iteration gameStep g = Some g' →
  playersHands g' = playersHands g
  ∧ usedCardsArr g' = usedCardsArr g
  ∧ lastMove g' = lastMove g
  ∧ matchButton g' = matchButton g
  ∧ gameIncrement g' = gameIncrement g
  ∧ maxBetHit g' = maxBetHit g.
Proof.
  intros H. apply evaluateHand_frame in H. unfold fixed in H.
  injection H as -> -> -> -> -> ->. done.
Qed.

Lemma evaluateHand_fixed_witness :
  let g := Table.river Table.three_way in
  let g' := Table.river_after [0%nat] Table.three_way in
  playersHands g' = playersHands g
  ∧ usedCardsArr g' = usedCardsArr g
  ∧ lastMove g' = lastMove g
  ∧ matchButton g' = matchButton g
  ∧ gameIncrement g' = gameIncrement g
  ∧ maxBetHit g' = maxBetHit g.
Proof.
  intros g g'. apply (evaluateHand_fixed 0 4 g g').
  vm_compute. reflexivity.
Defined.

End FrameFacts.

(** ** Invariants of a hand *)

Module InvariantFacts.

Import Poker Frame EvaluateFacts FrameFacts.
Local Open Scope Z_scope.

(** *** The categories stay categories *)

Lemma foldl_keeps {S B} (P : S → Prop) (f : S → B → S) (l : list B) (s : S) :
  (∀ s b, P s → P (f s b)) → P s → P (foldl f s l).
Proof.
  intros Hf. revert s. induction l as [|b l IH]; intros s Hs; simpl; auto.
Qed.

(** A game reached by assignments of categories to [resultList]. *)
Ltac categories_tac :=
  match goal with
  | H : categories ?g |- categories _ =>
      let Hl := fresh in let Hf := fresh in
      destruct H as [Hl Hf]; unfold categories; simpl;
      rewrite ?length_insert; split; [exact Hl|];
      repeat (apply Forall_insert; [|lia]); exact Hf
  end.

Lemma value_step_categories valueArr iteration gameStep g i :
  categories g → categories (value_step valueArr iteration gameStep g i).
Proof.
  intros Hg. unfold value_step, push_pair. cbv zeta.
  split_cases; categories_tac.
Qed.

Lemma count_phase_categories valueArr iteration gameStep g :
  categories g → categories (count_phase valueArr iteration gameStep g).
Proof.
  intros Hg. unfold count_phase.
  assert (H := foldl_keeps categories (value_step valueArr iteration gameStep)
                 (seq 0 (length valueArr)) g
                 (λ g b, value_step_categories valueArr iteration gameStep g b)
                 Hg).
  clear Hg. cbv zeta. split_cases; categories_tac.
Qed.

Lemma straight_step_categories cardIndexes iteration acc i :
  categories acc.1 → categories (straight_step cardIndexes iteration acc i).1.
Proof.
  intros Hg. unfold straight_step. destruct acc as [g r]. simpl in Hg.
  destruct (cardIndexes !! i); [|done]. cbv zeta. simpl.
  split_cases; categories_tac.
Qed.

Lemma window_step_categories valueArr iteration acc i :
  categories acc.1 → categories (window_step valueArr iteration acc i).1.
Proof.
  intros Hg. unfold window_step. destruct acc as [g r]. simpl in Hg.
  split_cases; simpl; categories_tac.
Qed.

Lemma straight_phase_categories cardIndexes valueArr iteration g :
  categories g → categories (straight_phase cardIndexes valueArr iteration g).1.
Proof.
  intros Hg. unfold straight_phase.
  match goal with
  | |- context [foldl (straight_step ?c ?i) ?a ?l] =>
      assert (H1 := foldl_keeps (λ acc : game * runs, categories acc.1)
                      (straight_step c i) l a
                      (straight_step_categories c i) Hg);
      destruct (foldl (straight_step c i) a l) as [g1 r1]
  end.
  match goal with
  | |- context [foldl (window_step ?v ?i) ?a ?l] =>
      assert (H2 := foldl_keeps (λ acc : game * bool, categories acc.1)
                      (window_step v i) l a
                      (window_step_categories v i) H1);
      destruct (foldl (window_step v i) a l) as [g2 s2]
  end.
  clear Hg H1. simpl in *. split_cases; categories_tac.
Qed.

Lemma category_phase_categories valueArr suitedArr straight iteration g :
  categories g →
  categories (category_phase valueArr suitedArr straight iteration g).
Proof.
  intros Hg. unfold category_phase, raise_result. cbv zeta.
  split_cases; categories_tac.
Qed.

Lemma closing_phase_categories valueArr iteration gameStep g :
  categories g → categories (closing_phase valueArr iteration gameStep g).
Proof.
  intros Hg. unfold closing_phase.
  match goal with
  | |- context [foldl ?f g ?l] =>
      assert (H : categories (foldl f g l));
      [apply (foldl_keeps categories); [|done];
       intros g0 b H0; split_cases; categories_tac|];
      clear Hg; generalize dependent (foldl f g l)
  end.
  intros g1 H. cbv zeta. split_cases; categories_tac.
Qed.

Lemma evaluate_categories cardsArr iteration gameStep g :
  categories g → categories (evaluate cardsArr iteration gameStep g).1.
Proof.
  intros Hg. unfold evaluate.
  destruct (straight_phase _ _ _ _) as [g1 r1] eqn:Hs. simpl.
  apply closing_phase_categories, category_phase_categories.
  change g1 with (g1, r1).1. rewrite <- Hs.
  by apply straight_phase_categories, count_phase_categories.
Qed.

Lemma straight_tie_categories g g' b :
  straight_tie g = Some (g', b) → categories g → categories g'.
Proof.
  unfold straight_tie. cbv zeta.
  destruct (_ && _).
  - destruct (showPlayersCards _) as [g2|] eqn:Hs; [|discriminate].
    intros [= <- <-]. by apply showPlayersCards_Some in Hs as ->.
  - by intros [= <- <-].
Qed.

Lemma two_pair_tie_categories g : categories g → categories (two_pair_tie g).
Proof.
  unfold two_pair_tie. cbv zeta.
  assert (Hstep : ∀ (x : jsval) (fill : list Z) (l : list nat)
                    (acc : game * list (list Z)),
    categories acc.1 →
    categories (foldl (λ '(g, pwp) i,
                    if bool_decide (indexOf_val (pwp !!! i) x ≠ -1) then (g, pwp)
                    else (set_result i (-1) (set_compare i (-1) g),
                          <[i := fill]> pwp)) acc l).1).
  { intros x fill l. induction l as [|i l IH]; intros [g0 pwp] H0; [done|].
    simpl. apply IH. destruct (bool_decide _); [done|].
    simpl in H0. simpl. categories_tac. }
  intros Hg.
  match goal with
  | |- context [foldl ?f (g, ?p) (seq 0 4)] =>
      assert (H1 := Hstep (Math_max (plyr1Pair g ++ plyr2Pair g ++ plyr3Pair g
                                     ++ plyr4Pair g)) [] (seq 0 4) (g, p) Hg);
      destruct (foldl f (g, p) (seq 0 4)) as [g1 pwp1]
  end.
  by apply Hstep.
Qed.

Lemma hole_loop_categories multiWinMax rest : ∀ hiHole lowHole g g' b,
  hole_loop multiWinMax hiHole lowHole rest g = Some (g', b) →
  categories g → categories g'.
Proof.
  induction rest as [|i rest IH]; intros hiHole lowHole g g' b; simpl.
  - by intros [= <- <-].
  - destruct (bestHoleCards g !!! i) as [lo hi]. intros H Hg.
    repeat match type of H with
           | context [if ?c then _ else _] => destruct c; cbn beta iota in H
           end.
    all: try (destruct (showPlayersCards _) as [g2|] eqn:Hs; [|discriminate];
              injection H as <- <-; apply showPlayersCards_Some in Hs as ->;
              exact Hg).
    all: by apply (IH _ _ _ _ _ H).
Qed.

Lemma drop_losers_categories winningHand g g' :
  drop_losers winningHand g = Some g' → categories g → categories g'.
Proof.
  unfold drop_losers. generalize (seq 0 (length (resultList g))). intros l.
  assert (Hgen : ∀ (acc : option game) g1,
    foldl (λ acc i,
             g ← acc;
             if bool_decide (N (resultList g !!! i) = winningHand) then Some g
             else if (i <? length (bestHoleCards g))%nat
                  then Some (set_bestHoleCards
                               (<[i := (-1, -1)]> (bestHoleCards g))
                               (set_compare i (-1) g))
                  else None) acc l = Some g1 →
    ∃ g0, acc = Some g0 ∧ (categories g0 → categories g1)).
  { induction l as [|i l IH]; intros acc g1; simpl.
    - intros ->. eauto.
    - intros Hf. destruct (IH _ _ Hf) as (g2 & Hacc & Hk).
      destruct acc as [g0|]; [|discriminate]. exists g0. split; [done|].
      intros H0. apply Hk. simpl in Hacc.
      destruct (bool_decide _); [by injection Hacc as <-|].
      destruct (_ <? _)%nat; [by injection Hacc as <-|discriminate]. }
  intros Hf. destruct (Hgen _ _ Hf) as (g0 & [= <-] & ?). done.
Qed.

Lemma hole_card_tie_categories g g' b :
  hole_card_tie g = Some (g', b) → categories g → categories g'.
Proof.
  unfold hole_card_tie.
  destruct (mapM _ _) as [winnersList|]; [|discriminate].
  cbn [mbind option_bind]. cbv zeta.
  destruct (1 <? _).
  - intros H. by apply (hole_loop_categories _ _ _ _ _ _ _ H).
  - by intros [= <- <-].
Qed.

Lemma showdown_categories g g' b :
  showdown g = Some (g', b) → categories g → categories g'.
Proof.
  unfold showdown. cbv zeta. intros H Hg. revert H.
  destruct (_ =? 1); [by intros [= <- <-]|].
  destruct (drop_losers _ g) as [g1|] eqn:Hd; [|discriminate].
  pose proof (drop_losers_categories _ _ _ Hd Hg) as Hd1. clear Hd.
  cbn [mbind option_bind].
  destruct (1 <? _); [|by intros [= <- <-]].
  match goal with
  | |- context [set_topHand ?t g1] => set (g2 := set_topHand t g1)
  end.
  assert (H2 : categories g2) by exact Hd1.
  clearbody g2.
  assert (Htie : ∀ g3 : game, categories g3 →
            hole_card_tie (if decide (Math_max (resultList g) = N 2)
                           then two_pair_tie g3 else g3) = Some (g', b) →
            categories g').
  { intros g3 H3 H. apply (hole_card_tie_categories _ _ _ H).
    destruct (decide _); [by apply two_pair_tie_categories|done]. }
  destruct (decide (Math_max (resultList g) = N 4)).
  - destruct (straight_tie g2) as [[g3 [|]]|] eqn:Hst; [| |discriminate];
      cbn [mbind option_bind];
      pose proof (straight_tie_categories _ _ _ Hst H2) as H3.
    + by intros [= <- <-].
    + by apply Htie.
  - cbn [mbind option_bind]. by apply Htie.
Qed.


(** *** Orderly steps *)

Lemma orderly_refl g : orderly g g.
Proof. by split. Qed.

Lemma orderly_trans g1 g2 g3 : orderly g1 g2 → orderly g2 g3 → orderly g1 g3.
Proof.
  intros (S1 & C1 & P1) (S2 & C2 & P2). split; [by etrans|]. split; auto.
Qed.

(** A step that writes neither the active players nor the categories nor
    the panel of player 0. *)
Lemma orderly_same g g' :
  activePlayers g' = activePlayers g → resultList g' = resultList g →
  status g' !! 0%nat = status g !! 0%nat → orderly g g'.
Proof.
  intros Ha Hr Hs. unfold orderly, categories, seated.
  by rewrite Ha, Hr, Hs.
Qed.

Lemma seats_orderly g g' :
  seats g' = seats g → (categories g → categories g') → orderly g g'.
Proof.
  unfold seats. intros [= _ _ Ha Hs _ _ _ _ _] Hc.
  unfold orderly, seated. by rewrite Ha, Hs.
Qed.

Lemma set_panel_orderly (i : nat) (s : dataset_status) (g : game) :
  i ≠ 0%nat → orderly g (set_panel i s g).
Proof.
  intros Hi. apply orderly_same; [done | done |].
  cbn. by rewrite list_lookup_insert_ne.
Qed.

Lemma removeActivePlyr_orderly (plyrID : nat) (g : game) :
  plyrID ≠ 0%nat → orderly g (removeActivePlyr plyrID g).
Proof.
  intros Hp.
  assert (Ha : activePlayers (removeActivePlyr plyrID g)
               = filter (λ p, p ≠ plyrID) (activePlayers g))
    by (unfold removeActivePlyr; cbv zeta; by destruct (loosely_zero _)).
  assert (Hr : resultList (removeActivePlyr plyrID g)
               = <[plyrID := -1]> (resultList g))
    by (unfold removeActivePlyr; cbv zeta; by destruct (loosely_zero _)).
  assert (Hs : status (removeActivePlyr plyrID g) = status g)
    by (unfold removeActivePlyr; cbv zeta; by destruct (loosely_zero _)).
  unfold orderly, categories, seated. rewrite Ha, Hr, Hs. split; [|split].
  - apply sublist_filter.
  - intros [Hl Hf]. rewrite length_insert. split; [done|].
    apply Forall_insert; [done | lia].
  - intros [H0 Hst]. split; [|done]. apply list_elem_of_filter. split; [lia | done].
Qed.

(** A removal of any player: nobody joins and the categories stay. *)
Lemma removeActivePlyr_tidy (plyrID : nat) (g : game) :
  activePlayers (removeActivePlyr plyrID g) `sublist_of` activePlayers g
  ∧ (categories g → categories (removeActivePlyr plyrID g))
  ∧ status (removeActivePlyr plyrID g) = status g.
Proof.
  assert (Ha : activePlayers (removeActivePlyr plyrID g)
               = filter (λ p, p ≠ plyrID) (activePlayers g))
    by (unfold removeActivePlyr; cbv zeta; by destruct (loosely_zero _)).
  assert (Hr : resultList (removeActivePlyr plyrID g)
               = <[plyrID := -1]> (resultList g))
    by (unfold removeActivePlyr; cbv zeta; by destruct (loosely_zero _)).
  assert (Hs : status (removeActivePlyr plyrID g) = status g)
    by (unfold removeActivePlyr; cbv zeta; by destruct (loosely_zero _)).
  unfold categories. rewrite Ha, Hr, Hs. split; [|split; [|done]].
  - apply sublist_filter.
  - intros [Hl Hf]. rewrite length_insert. split; [done|].
    apply Forall_insert; [done | lia].
Qed.

(** The folds of the players in [l], one after the other. *)
Lemma folds_orderly (l : list nat) : ∀ g : game,
  let g' := foldl (λ g whichPlayer,
                     set_panel whichPlayer folded
                       (removeActivePlyr whichPlayer g)) g l in
  activePlayers g' `sublist_of` activePlayers g
  ∧ (categories g → categories g')
  ∧ (0%nat ∉ l → seated g → seated g').
Proof.
  induction l as [|p l IH]; intros g; cbn [foldl].
  - by split.
  - destruct (IH (set_panel p folded (removeActivePlyr p g))) as (S1 & C1 & P1).
    destruct (removeActivePlyr_tidy p g) as (S0 & C0 & _).
    split; [|split].
    + etrans; [exact S1 | exact S0].
    + intros Hc. apply C1. by apply C0.
    + intros Hnot Hseat.
      assert (Hp : p ≠ 0%nat) by (intros ->; apply Hnot; by left).
      apply P1; [intros H0; apply Hnot; by right|].
      destruct (orderly_trans _ _ _ (removeActivePlyr_orderly p g Hp)
                  (set_panel_orderly p folded _ Hp)) as (_ & _ & Hs).
      by apply Hs.
Qed.

Lemma fold_checking_orderly g : orderly g (fold_checking g).
Proof.
  unfold fold_checking. destruct (bool_decide _); [|apply orderly_refl].
  destruct (folds_orderly
              (filter (λ p, status g !! p = Some checking)
                      (seq 0 (length (status g)))) g) as (S1 & C1 & P1).
  split; [done|]. split; [done|]. intros Hseat. apply P1; [|done].
  rewrite list_elem_of_filter. intros [Hc _]. by destruct Hseat as [_ Hs].
Qed.

Lemma betting_part_orderly valueArr suitedArr r iteration gameStep last g g' :
  betting_part valueArr suitedArr r iteration gameStep last g = Some g' →
  orderly g g'.
Proof.
  unfold betting_part. cbv zeta.
  destruct (bool_decide (iteration ∈ activePlayers g));
    [|intros [= <-]; apply orderly_refl].
  destruct (decide (iteration = 0%nat)) as [->|Hit].
  - cbn [Nat.eqb negb andb].
    rewrite !andb_false_r. cbn [andb].
    destruct (_ && _).
    + destruct (decide _); cbn [mbind option_bind].
      * intros Hs. apply showPlayersCards_Some in Hs as ->.
        by apply orderly_same.
      * unfold youLose. destruct (topHand g) as [| |z]; try discriminate.
        destruct (_ && _); [|discriminate]. cbn [mbind option_bind].
        intros Hs. apply showPlayersCards_Some in Hs as ->.
        by apply orderly_same.
    + intros [= <-]. apply orderly_refl.
  - assert (Hpanel : ∀ s g0, orderly g0 (set_panel iteration s g0))
      by (intros; by apply set_panel_orderly).
    assert (Hdbl : ∀ g0, orderly g0 (set_dblBets true g0))
      by (intros; by apply orderly_same).
    match goal with
    | |- (if ?c then Some (fold_checking ?x) else _) = _ → _ =>
        assert (Hx : orderly g x)
          by (split_cases; first [apply orderly_refl | apply Hpanel]);
        destruct c
    end.
    { intros [= <-]. eapply orderly_trans; [exact Hx|].
      apply fold_checking_orderly. }
    clear Hx.
    match goal with
    | |- (if ?c then Some (fold_checking ?x) else _) = _ → _ =>
        assert (Hx : orderly g x);
        [|destruct c]
    end.
    { repeat match goal with
             | |- orderly _ (if ?c then _ else _) => destruct c
             | |- orderly ?a ?a => apply orderly_refl
             | |- orderly _ (set_panel _ _ ?x) =>
                 apply (orderly_trans _ x); [|apply Hpanel]
             | |- orderly _ (set_dblBets _ ?x) =>
                 apply (orderly_trans _ x); [|apply Hdbl]
             end. }
    { intros [= <-]. eapply orderly_trans; [exact Hx|].
      apply fold_checking_orderly. }
    match goal with
    | |- (if ?c then _ else Some ?x) = _ → _ =>
        set (g1 := x) in *; clearbody g1; destruct c
    end.
    2:{ by intros [= <-]. }
    destruct (decide (topHand g1 = N 0)); cbn [mbind option_bind].
    + intros Hs. apply showPlayersCards_Some in Hs as ->.
      eapply orderly_trans; [exact Hx|]. by apply orderly_same.
    + unfold youLose. destruct (topHand g1) as [| |z]; try discriminate.
      destruct (_ && _); [|discriminate]. cbn [mbind option_bind].
      intros Hs. apply showPlayersCards_Some in Hs as ->.
      eapply orderly_trans; [exact Hx|]. by apply orderly_same.
Qed.


Lemma evaluateHand_orderly iteration gameStep g g' :
  evaluateHand iteration gameStep g = Some g' → orderly g g'.
Proof.
  unfold evaluateHand.
  destruct (playersHands g !! iteration) as [hand|]; [|discriminate].
  cbn [mbind option_bind]. destruct (existsb _ _); [discriminate|]. cbv zeta.
  destruct (evaluate _ _ _ g) as [g1 r1] eqn:He.
  assert (H1 : orderly g g1).
  { apply seats_orderly.
    - change g1 with (g1, r1).1. rewrite <- He. apply evaluate_seats.
    - intros Hc. change g1 with (g1, r1).1. rewrite <- He.
      by apply evaluate_categories. }
  destruct (_ && _).
  - destruct (showdown g1) as [[g2 returned]|] eqn:Hs; [|discriminate].
    cbn [mbind option_bind].
    assert (H2 : orderly g1 g2).
    { apply seats_orderly; [by eapply showdown_seats|].
      by apply (showdown_categories _ _ _ Hs). }
    destruct returned.
    + intros [= <-]. by eapply orderly_trans.
    + intros Hb. apply betting_part_orderly in Hb.
      eapply orderly_trans; [|exact Hb]. by eapply orderly_trans.
  - intros Hb. apply betting_part_orderly in Hb. by eapply orderly_trans.
Qed.

Lemma evaluate_active_orderly gameStep rounds : ∀ i evaled g g',
  evaluate_active rounds i evaled gameStep g = Some g' → orderly g g'.
Proof.
  induction rounds as [|rounds IH]; intros i evaled g g'; simpl.
  - intros [= <-]. apply orderly_refl.
  - destruct (activePlayers g !! i) as [player|];
      [|intros [= <-]; apply orderly_refl].
    destruct (bool_decide _); [apply IH|].
    destruct (evaluateHand player gameStep g) as [g1|] eqn:He; [|discriminate].
    cbn [mbind option_bind]. intros H. apply IH in H.
    eapply orderly_trans; [|exact H]. by eapply evaluateHand_orderly.
Qed.

Lemma fold_on_raise_orderly g : orderly g (fold_on_raise g).
Proof.
  assert (Hgen : ∀ (cond : nat → bool) (l : list nat) (g0 : game),
    orderly g0
      (foldl (λ g player,
                if negb (player =? 0)%nat && cond player
                then removeActivePlyr player (set_panel player folded g)
                else g) g0 l)).
  { intros cond l. induction l as [|p l IH]; intros g0; cbn [foldl];
      [apply orderly_refl|].
    eapply orderly_trans; [|apply IH].
    destruct (negb (p =? 0)%nat) eqn:Hp; cbn [andb]; [|apply orderly_refl].
    apply negb_true_iff, Nat.eqb_neq in Hp.
    destruct (cond p); [|apply orderly_refl].
    eapply orderly_trans; [by apply set_panel_orderly|].
    by apply removeActivePlyr_orderly. }
  unfold fold_on_raise. cbv zeta. destruct (existsb _ _); [|apply orderly_refl].
  apply (Hgen (λ player, bool_decide (lastMove g !! player = Some check_move))).
Qed.

Lemma match_bets_orderly gameStep playerDecisionFactor g :
  orderly g (match_bets gameStep playerDecisionFactor g).
Proof.
  unfold match_bets.
  match goal with |- context [foldl ?f g _] => set (step := f) end.
  assert (Hs : ∀ (g : game) (j : nat), j ≠ 0%nat → orderly g (step g j)).
  { intros g0 j Hj. subst step. cbv beta.
    repeat match goal with
           | |- orderly _ (if ?c then _ else _) => destruct c
           | |- orderly ?a ?a => apply orderly_refl
           | |- orderly _ (set_panel _ _ ?x) =>
               apply (orderly_trans _ x); [|by apply set_panel_orderly]
           | |- orderly _ (removeActivePlyr _ ?x) =>
               apply (orderly_trans _ x); [|by apply removeActivePlyr_orderly]
           | |- orderly _ (set_thePot _ ?x) =>
               apply (orderly_trans _ x); [|by apply orderly_same]
           | |- orderly _ (set_lastMove _ ?x) =>
               apply (orderly_trans _ x); [|by apply orderly_same]
           end. }
  cbn [foldl].
  eapply orderly_trans; [|apply Hs; lia].
  eapply orderly_trans; [|apply Hs; lia].
  apply Hs; lia.
Qed.

Lemma deal_bets_orderly betDecision bet2 g :
  orderly g (deal_bets betDecision bet2 g).1.
Proof.
  unfold deal_bets.
  match goal with |- context [foldl ?f _ _] => set (step := f) end.
  assert (Hs : ∀ (acc : game * Q) (j : nat), j ≠ 0%nat →
            orderly acc.1 (step acc j).1).
  { intros [g0 m] j Hj. subst step. cbv beta iota. cbn [fst].
    repeat match goal with
           | |- orderly _ (let '(_, _) := (if ?c then _ else _) in _).1 =>
               destruct c
           end; cbn [fst].
    all: repeat match goal with
           | |- orderly ?a ?a => apply orderly_refl
           | |- orderly _ (set_panel _ _ ?x) =>
               apply (orderly_trans _ x); [|by apply set_panel_orderly]
           | |- orderly _ (removeActivePlyr _ ?x) =>
               apply (orderly_trans _ x); [|by apply removeActivePlyr_orderly]
           | |- orderly _ (set_lastMove _ ?x) =>
               apply (orderly_trans _ x); [|by apply orderly_same]
           end. }
  cbn [foldl].
  eapply orderly_trans; [|apply Hs; lia].
  eapply orderly_trans; [|apply Hs; lia].
  apply (Hs (g, 10%Q)); lia.
Qed.

Lemma buildCommunityCards_orderly activeCards cards howMany gens :
  ∀ g g' rest,
    buildCommunityCards activeCards cards howMany gens g = Drawn g' rest →
    orderly g g'.
Proof.
  induction gens as [|n gens IH]; intros g g' rest; cbn [buildCommunityCards].
  - destruct (_ <? _)%nat; [discriminate|]. intros [= <- _]. apply orderly_refl.
  - destruct (_ <? _)%nat; [|intros [= <- _]; apply orderly_refl].
    destruct (activeCards !! n) as [c|]; [|discriminate].
    destruct (bool_decide _); [apply IH|].
    destruct (cards !! n) as [c'|]; [|discriminate].
    intros H. apply IH in H. eapply orderly_trans; [|exact H].
    by apply orderly_same.
Qed.

Lemma match_orderly activeCards cards gens playerDecisionFactor playerBet
    g g' rest :
  match_ activeCards cards gens playerDecisionFactor playerBet g
    = Drawn g' rest →
  orderly g g'.
Proof.
  unfold match_.
  destruct (match_cards _ _ _ _) as [g1 rest1| |] eqn:Hc; try discriminate.
  destruct (match_play _ _ _) as [g2|] eqn:Hp; [|discriminate].
  intros [= <- <-].
  assert (H1 : orderly g g1).
  { unfold match_cards in Hc. cbv zeta in Hc.
    destruct (_ =? 2) in Hc; apply buildCommunityCards_orderly in Hc;
      (eapply orderly_trans; [|exact Hc]).
    - eapply orderly_trans; [|by apply orderly_same].
      eapply orderly_trans; [|apply fold_on_raise_orderly].
      by apply orderly_same.
    - eapply orderly_trans; [|apply fold_on_raise_orderly].
      by apply orderly_same. }
  eapply orderly_trans; [exact H1|].
  unfold match_play in Hp. cbv zeta in Hp.
  destruct (evaluate_active _ _ _ _ _) as [g3|] eqn:He; [|discriminate].
  cbn [mbind option_bind] in Hp. injection Hp as <-.
  apply evaluate_active_orderly in He.
  eapply orderly_trans; [exact He|].
  eapply orderly_trans; [apply match_bets_orderly|].
  by apply orderly_same.
Qed.

End InvariantFacts.

(** ** Rounding to the double format *)

Module DoubleFacts.

Import Double.

Local Open Scope Q_scope.

Lemma pow2_pos (e : Z) : 0 < 2 ^ e.
Proof. by apply Qpower_0_lt. Qed.

Lemma pow2_plus (a b : Z) : 2 ^ (a + b) == 2 ^ a * 2 ^ b.
Proof. by apply Qpower_plus. Qed.

Lemma pow2_lt (a b : Z) : 2 ^ a < 2 ^ b → (a < b)%Z.
Proof. intros H. by apply (Qpower_lt_compat_l_inv 2). Qed.

Lemma pow2_Z (n : Z) : (0 <= n)%Z → inject_Z (2 ^ n) == 2 ^ n.
Proof. intros H. by rewrite Zpower_Qpower. Qed.

(** A positive rational lies in the binade [binade] computes. *)
Lemma binade_spec (x : Q) :
  0 < x → 2 ^ binade x <= x ∧ x < 2 ^ (binade x + 1).
Proof.
  intros Hx. unfold binade. cbv zeta.
  destruct x as [a b]. cbn [Qnum Qden].
  assert (Ha : (0 < a)%Z) by (unfold Qlt in Hx; simpl in Hx; lia).
  set (la := Z.log2 a). set (lb := Z.log2 (Z.pos b)).
  destruct (Z.log2_spec a Ha) as [Ha1 Ha2]. fold la in Ha1, Ha2.
  destruct (Z.log2_spec (Z.pos b) ltac:(lia)) as [Hb1 Hb2].
  fold lb in Hb1, Hb2.
  assert (Hla : (0 <= la)%Z) by apply Z.log2_nonneg.
  assert (Hlb : (0 <= lb)%Z) by apply Z.log2_nonneg.
  set (A := inject_Z a). set (B := inject_Z (Z.pos b)).
  set (P := 2 ^ la). set (R := 2 ^ lb).
  assert (HP : 0 < P) by apply pow2_pos.
  assert (HR : 0 < R) by apply pow2_pos.
  assert (HA1 : P <= A).
  { subst P A. rewrite <- pow2_Z by done. by rewrite <- Zle_Qle. }
  assert (HA2 : A < 2 * P).
  { subst P A. rewrite <- pow2_Z by done.
    change 2 with (inject_Z 2). rewrite <- inject_Z_mult, <- Zlt_Qlt.
    rewrite Z.pow_succ_r in Ha2 by done. lia. }
  assert (HB1 : R <= B).
  { subst R B. rewrite <- pow2_Z by done. by rewrite <- Zle_Qle. }
  assert (HB2 : B < 2 * R).
  { subst R B. rewrite <- pow2_Z by done.
    change 2 with (inject_Z 2). rewrite <- inject_Z_mult, <- Zlt_Qlt.
    rewrite Z.pow_succ_r in Hb2 by done. lia. }
  assert (HB : 0 < B) by lra.
  assert (Hx' : a # b == A / B) by apply Qmake_Qdiv.
  assert (He : 2 ^ (la - lb) == P / R).
  { subst P R. by apply Qpower_minus. }
  assert (Hup : A / B < 2 * (P / R)).
  { apply Qlt_shift_div_r; [done|].
    assert (E : 2 * (P / R) * B == (2 * P) * (B / R)) by (field; lra).
    rewrite E.
    assert (1 <= B / R) by (apply Qle_shift_div_l; lra).
    assert (0 < 2 * P) by lra. nra. }
  assert (Hlow : P / R < 2 * (A / B)).
  { apply Qlt_shift_div_r; [done|].
    assert (E : 2 * (A / B) * R == A * ((2 * R) / B)) by (field; lra).
    rewrite E.
    assert (1 < (2 * R) / B) by (apply Qlt_shift_div_l; lra).
    nra. }
  destruct (Qle_bool (2 ^ (la - lb)) (a # b)) eqn:E.
  - apply Qle_bool_iff in E. split; [done|].
    rewrite pow2_plus, He, Hx'. change (2 ^ 1) with 2. lra.
  - assert (E' : a # b < 2 ^ (la - lb)).
    { apply Qnot_le_lt. intros H. apply Qle_bool_iff in H. congruence. }
    split.
    + replace (la - lb - 1)%Z with ((la - lb) + (-1))%Z by lia.
      rewrite pow2_plus, He, Hx'. change (2 ^ (-1)) with (1 # 2). lra.
    + replace (la - lb - 1 + 1)%Z with (la - lb)%Z by lia. done.
Qed.

(** Rounding stays below an integer that the number misses by more than
    one half. *)
Lemma round_half_even_below (y : Q) (M : Z) :
  y < inject_Z M - (1 # 2) → (round_half_even y <= M - 1)%Z.
Proof.
  intros Hy. unfold round_half_even. cbv zeta.
  pose proof (Qfloor_le y) as Hf.
  set (f := Qfloor y) in *.
  assert (Hf1 : (f <= M - 1)%Z).
  { assert (H : inject_Z f < inject_Z M) by lra.
    rewrite <- Zlt_Qlt in H. lia. }
  destruct (Qcompare_spec (y - inject_Z f) (1 # 2)) as [E|E|E].
  - assert (H : inject_Z (f + 1) < inject_Z M)
      by (rewrite inject_Z_plus; change (inject_Z 1) with 1; lra).
    rewrite <- Zlt_Qlt in H. destruct (Z.even f); lia.
  - done.
  - assert (H : inject_Z (f + 1) < inject_Z M)
      by (rewrite inject_Z_plus; change (inject_Z 1) with 1; lra).
    rewrite <- Zlt_Qlt in H. lia.
Qed.

(** The greatest double below 1 is [1 - 2^-53]. *)
Lemma double_below_1 (r : Q) :
  is_double r → r < 1 → r <= 1 - 2 ^ (-53).
Proof.
  intros Hd Hr. change (2 ^ (-53)) with (1 # 9007199254740992).
  destruct (Qlt_le_dec (1 # 2) r) as [Hhalf|Hhalf]; [|lra].
  unfold is_double, to_double in Hd.
  destruct (Qeq_bool r 0) eqn:E0.
  { apply Qeq_bool_iff in E0. lra. }
  cbv zeta in Hd.
  assert (Habs : Qabs r == r) by (apply Qabs_pos; lra).
  destruct (binade_spec (Qabs r)) as [Hb1 Hb2]; [lra|].
  assert (He : binade (Qabs r) = (-1)%Z).
  { assert (H1 : (binade (Qabs r) < 0)%Z).
    { apply pow2_lt. change (2 ^ 0) with 1. lra. }
    assert (H2 : (-1 < binade (Qabs r) + 1)%Z).
    { apply pow2_lt. change (2 ^ (-1)) with (1 # 2). lra. }
    lia. }
  rewrite He in Hd. change (Z.max (-1) (-1022) - 52)%Z with (-53)%Z in Hd.
  change (2 ^ (-53)) with (1 # 9007199254740992) in Hd.
  set (N := round_half_even _) in Hd.
  assert (HN : inject_Z N < inject_Z 9007199254740992).
  { change (inject_Z 9007199254740992) with 9007199254740992. lra. }
  rewrite <- Zlt_Qlt in HN.
  assert (HN' : inject_Z N <= inject_Z 9007199254740991)
    by (rewrite <- Zle_Qle; lia).
  change (inject_Z 9007199254740991) with 9007199254740991 in HN'. lra.
Qed.

(** The product of a double below 1 and an array length, rounded to a
    double, is still below the length. *)
Lemma product_below (r : Q) (n : Z) :
  is_double r → 0 <= r → r < 1 → (1 <= n < 2 ^ 53)%Z →
  to_double (r * inject_Z n) < inject_Z n.
Proof.
  intros Hd Hr0 Hr1 Hn.
  pose proof (double_below_1 r Hd Hr1) as Hr.
  change (2 ^ (-53)) with (1 # 9007199254740992) in Hr.
  assert (Hn1 : 1 <= inject_Z n)
    by (change 1 with (inject_Z 1); rewrite <- Zle_Qle; lia).
  assert (Hn2 : inject_Z n < 2 ^ 53).
  { rewrite <- (pow2_Z 53) by lia. rewrite <- Zlt_Qlt. lia. }
  set (x := r * inject_Z n).
  assert (Hx1 : x <= inject_Z n - inject_Z n * (1 # 9007199254740992))
    by (subst x; nra).
  assert (Hx0 : 0 <= x) by (subst x; nra).
  unfold to_double. destruct (Qeq_bool x 0) eqn:E0; [lra|].
  assert (Hxpos : 0 < x).
  { destruct (Qlt_le_dec 0 x); [done|]. exfalso.
    assert (H : x == 0) by lra. apply Qeq_bool_iff in H. congruence. }
  cbv zeta.
  assert (Habs : Qabs x == x) by (apply Qabs_pos; lra).
  destruct (binade_spec (Qabs x)) as [Hb1 _]; [lra|].
  set (e := Z.max (binade (Qabs x)) (-1022)).
  assert (He52 : (e <= 52)%Z).
  { assert (H : (binade (Qabs x) < 53)%Z) by (apply pow2_lt; lra).
    subst e. lia. }
  assert (Hen : 2 ^ e < inject_Z n).
  { subst e. destruct (Z.max_spec (binade (Qabs x)) (-1022)) as [[_ ->]|[_ ->]].
    - assert (2 ^ (-1022) < 1); [|lra].
      change 1 with (2 ^ 0). by apply Qpower_lt_compat_l.
    - lra. }
  set (U := 2 ^ (e - 52)).
  assert (HU : 0 < U) by apply pow2_pos.
  assert (HUe : U == 2 ^ e * (1 # 4503599627370496)).
  { subst U. replace (e - 52)%Z with (e + (-52))%Z by lia.
    rewrite pow2_plus. reflexivity. }
  set (M := (n * 2 ^ (52 - e))%Z).
  assert (HM : inject_Z M * U == inject_Z n).
  { subst M U. rewrite inject_Z_mult, pow2_Z by lia.
    rewrite <- Qmult_assoc, <- pow2_plus.
    replace (52 - e + (e - 52))%Z with 0%Z by lia.
    change (2 ^ 0) with 1. ring. }
  assert (HN : (round_half_even (x / U) <= M - 1)%Z).
  { apply round_half_even_below. apply Qlt_shift_div_r; [done|].
    assert (E : (inject_Z M - (1 # 2)) * U
                == inject_Z M * U - U * (1 # 2)) by ring.
    rewrite E, HM, HUe. pose proof (pow2_pos e). nra. }
  replace (M - 1)%Z with (M + -1)%Z in HN by lia.
  rewrite Zle_Qle, inject_Z_plus in HN.
  change (inject_Z (-1)) with (-1) in HN.
  set (N := inject_Z (round_half_even (x / U))) in *.
  assert (H : N * U <= (inject_Z M - 1) * U)
    by (apply Qmult_le_compat_r; lra).
  assert (E : (inject_Z M - 1) * U == inject_Z M * U - U) by ring.
  rewrite E, HM in H. lra.
Qed.

End DoubleFacts.

(** ** Dealing *)

Module DealFacts.

Import Poker Frame EvaluateFacts FrameFacts InvariantFacts.
Local Open Scope Z_scope.

(** *** The random card numbers *)

Lemma generate_lt (random : Q) (activeCards : list card) :
  activeCards ≠ [] →
  Z.of_nat (length activeCards) < 2 ^ 53 →
  Double.is_double random → (0 <= random)%Q → (random < 1)%Q →
  (generate random activeCards < length activeCards)%nat.
Proof.
  intros Hne Hlen Hd H0 H1. unfold generate.
  set (n := Z.of_nat (length activeCards)) in *.
  assert (Hn : 1 <= n)
    by (subst n; destruct activeCards; [done | simpl; lia]).
  pose proof (DoubleFacts.product_below random n Hd H0 H1 ltac:(lia)) as Hp.
  pose proof (Qfloor_le (Double.to_double (random * inject_Z n))) as Hf.
  assert (H : (inject_Z (Qfloor (Double.to_double (random * inject_Z n)))
               < inject_Z n)%Q) by lra.
  rewrite <- Zlt_Qlt in H. subst n. lia.
Qed.

(** X20. [generate] returns a valid card number for every value of
    [Math.random()], a double from 0 up to but not including 1: the
    product with the length of the deck, rounded to a double, stays
    below the length. So the drawing loops of [buildCommunityCards] and
    [generatePlayer] never read past the deck: on a deck that is not
    empty they return or go on drawing, and do not throw. *)
Theorem generated_draws_never_throw (deck : list card) (randoms : list Q)
    (howMany : nat) (playersCards : list card) (g : game) :
  deck ≠ [] →
  Z.of_nat (length deck) < 2 ^ 53 →
  Forall (λ r, Double.is_double r ∧ (0 <= r)%Q ∧ (r < 1)%Q) randoms →
  let gens := (λ r, generate r deck) <$> randoms in
  Forall (λ n, (n < length deck)%nat) gens
  ∧ buildCommunityCards deck deck howMany gens g ≠ Thrown
  ∧ draw_hole_cards deck deck playersCards gens g ≠ Thrown.
Proof.
  intros Hne Hlen Hr gens.
  assert (Hrange : Forall (λ n, (n < length deck)%nat) gens).
  { subst gens. apply Forall_fmap. eapply Forall_impl; [exact Hr|].
    intros r (Hd & H0 & H1). by apply generate_lt. }
  split; [done|]. split.
  - assert (H := DrawFacts.buildCommunityCards_picks deck howMany gens g Hrange).
    destruct (decide _).
    + by destruct H as (g' & rest & -> & _).
    + by rewrite H.
  - assert (H := DrawFacts.draw_hole_cards_picks deck gens playersCards g Hrange).
    destruct (decide _).
    + by destruct H as (hole & g' & rest & -> & _).
    + by rewrite H.
Qed.

Lemma generated_draws_never_throw_witness :
  buildCommunityCards Table.deck Table.deck 3
    ((λ r, generate r Table.deck)
       <$> [0; 1 # 2; 8314337773607069 # 144115188075855872;
            9007199254740991 # 9007199254740992]%Q)
    Table.start ≠ Thrown.
Proof.
  apply (generated_draws_never_throw Table.deck
           [0; 1 # 2; 8314337773607069 # 144115188075855872;
            9007199254740991 # 9007199254740992]%Q
           3 [] Table.start).
  - discriminate.
  - vm_compute. reflexivity.
  - repeat constructor; vm_compute; (reflexivity || discriminate).
Defined.

(** *** No card is dealt twice *)

Lemma set_usedCardsArr_same (g : game) : set_usedCardsArr (usedCardsArr g) g = g.
Proof. by destruct g. Qed.

Lemma buildCommunityCards_new deck howMany gens : ∀ g g' rest,
  buildCommunityCards deck deck howMany gens g = Drawn g' rest →
  NoDup (usedCardsArr g) →
  ∃ new,
    g' = set_usedCardsArr (usedCardsArr g ++ new)
           (set_communityCards (communityCards g ++ (Obj <$> new)) g)
    ∧ NoDup (usedCardsArr g ++ new)
    ∧ new ⊆ deck.
Proof.
  induction gens as [|n gens IH]; intros g g' rest; cbn [buildCommunityCards].
  - destruct (_ <? _)%nat; [discriminate|]. intros [= <- _] Hnd.
    exists []. rewrite !app_nil_r. split; [by destruct g|].
    split; [done|]. apply list_subseteq_nil.
  - destruct (_ <? _)%nat.
    2:{ intros [= <- _] Hnd. exists []. rewrite !app_nil_r.
        split; [by destruct g|]. split; [done|]. apply list_subseteq_nil. }
    destruct (deck !! n) as [c|] eqn:Hc; [|discriminate].
    destruct (bool_decide (c ∈ usedCardsArr g)) eqn:Hused; [apply IH|].
    apply bool_decide_eq_false in Hused.
    intros H Hnd. apply IH in H as (new & -> & Hnd' & Hsub).
    + cbn [usedCardsArr communityCards set_usedCardsArr set_communityCards]
        in *.
      exists (c :: new). rewrite fmap_cons.
      rewrite <- !app_assoc in *. cbn [app] in *.
      split; [done|]. split; [done|].
      intros x Hx. apply elem_of_cons in Hx as [->|Hx]; [|by apply Hsub].
      by eapply list_elem_of_lookup_2.
    + cbn [usedCardsArr set_usedCardsArr]. apply NoDup_app.
      split; [done|]. split; [|apply NoDup_singleton].
      intros x Hx Hx'. apply list_elem_of_singleton in Hx' as ->. done.
Qed.

Lemma draw_hole_cards_new deck gens : ∀ playersCards g hole g' rest,
  draw_hole_cards deck deck playersCards gens g = Drawn (hole, g') rest →
  NoDup (usedCardsArr g) →
  ∃ new,
    hole = playersCards ++ new
    ∧ g' = set_usedCardsArr (usedCardsArr g ++ new) g
    ∧ NoDup (usedCardsArr g ++ new)
    ∧ new ⊆ deck
    ∧ ((length playersCards ≤ 2)%nat → length hole = 2%nat).
Proof.
  induction gens as [|n gens IH]; intros pc g hole g' rest;
    cbn [draw_hole_cards].
  - destruct (_ <? _)%nat eqn:Hlt; [discriminate|]. intros [= <- <- _] Hnd.
    apply Nat.ltb_ge in Hlt.
    exists []. rewrite !app_nil_r. split; [done|]. split; [by destruct g|].
    split; [done|]. split; [apply list_subseteq_nil | lia].
  - destruct (_ <? _)%nat eqn:Hlt.
    2:{ intros [= <- <- _] Hnd. apply Nat.ltb_ge in Hlt.
        exists []. rewrite !app_nil_r. split; [done|].
        split; [by destruct g|].
        split; [done|]. split; [apply list_subseteq_nil | lia]. }
    apply Nat.ltb_lt in Hlt.
    destruct (deck !! n) as [c|] eqn:Hc; [|discriminate].
    destruct (bool_decide (c ∈ usedCardsArr g)) eqn:Hused.
    { intros H Hnd. destruct (IH _ _ _ _ _ H Hnd) as (new & ? & ? & ? & ? & ?).
      exists new. repeat split; try done. }
    apply bool_decide_eq_false in Hused.
    intros H Hnd. apply IH in H as (new & -> & -> & Hnd' & Hsub & Hlen).
    + cbn [usedCardsArr set_usedCardsArr] in *.
      exists (c :: new). rewrite <- !app_assoc in *. cbn [app] in *.
      split; [done|]. split; [done|]. split; [done|]. split.
      * intros x Hx. apply elem_of_cons in Hx as [->|Hx]; [|by apply Hsub].
        by eapply list_elem_of_lookup_2.
      * intros _. apply Hlen. rewrite length_app. cbn [length]. lia.
    + cbn [usedCardsArr set_usedCardsArr]. apply NoDup_app.
      split; [done|]. split; [|apply NoDup_singleton].
      intros x Hx Hx'. apply list_elem_of_singleton in Hx' as ->. done.
Qed.

(** X21. Every card a drawing loop deals is a card of the deck that was
    not used before: the loop appends it to [usedCardsArr], which stays
    free of duplicates, and [buildCommunityCards] appends the same cards,
    in the same order, to the community cards. Nothing else is written. *)
Theorem drawn_cards_are_new (deck : list card) (howMany : nat)
    (gens : list nat) (g : game) :
  NoDup (usedCardsArr g) →
  (∀ g' rest,
     buildCommunityCards deck deck howMany gens g = Drawn g' rest →
     ∃ new,
       g' = set_usedCardsArr (usedCardsArr g ++ new)
              (set_communityCards (communityCards g ++ (Obj <$> new)) g)
       ∧ NoDup (usedCardsArr g ++ new) ∧ new ⊆ deck)
  ∧ (∀ hole g' rest,
       draw_hole_cards deck deck [] gens g = Drawn (hole, g') rest →
       g' = set_usedCardsArr (usedCardsArr g ++ hole) g
       ∧ NoDup (usedCardsArr g ++ hole) ∧ hole ⊆ deck
       ∧ length hole = 2%nat).
Proof.
  intros Hnd. split.
  - intros g' rest H. by eapply buildCommunityCards_new.
  - intros hole g' rest H.
    destruct (draw_hole_cards_new _ _ _ _ _ _ _ H Hnd)
      as (new & -> & -> & Hnd' & Hsub & Hlen).
    cbn [app]. repeat split; try done. apply Hlen. simpl. lia.
Qed.

Lemma drawn_cards_are_new_witness :
  let g := Table.dealt Table.three_way in
  ∃ new,
    Table.after
      (buildCommunityCards Table.deck Table.deck 3 [0; 0; 14; 51; 3]%nat g)
    = set_usedCardsArr (usedCardsArr g ++ new)
        (set_communityCards (communityCards g ++ (Obj <$> new)) g)
    ∧ NoDup (usedCardsArr g ++ new) ∧ new ⊆ Table.deck.
Proof.
  intros g.
  destruct (drawn_cards_are_new Table.deck 3 [0; 0; 14; 51; 3]%nat g)
    as [H _]; [by_compute|].
  apply (H _ []). vm_compute. reflexivity.
Defined.


(** *** [deal] *)

Lemma generatePlayer_spec deck iteration gens g g' rest :
  generatePlayer deck deck iteration gens g = Drawn g' rest →
  NoDup (usedCardsArr g) →
  ∃ c0 c1,
    usedCardsArr g' = usedCardsArr g ++ [c0; c1]
    ∧ NoDup (usedCardsArr g')
    ∧ c0 ∈ deck ∧ c1 ∈ deck
    ∧ playersHands g' = playersHands (set_hand iteration (c0, c1) g)
    ∧ gameIncrement g' = gameIncrement g
    ∧ orderly g g'
    ∧ evaluateHand iteration 1
        (set_hand iteration (c0, c1)
           (set_usedCardsArr (usedCardsArr g ++ [c0; c1]) g)) = Some g'.
Proof.
  unfold generatePlayer.
  destruct (draw_hole_cards deck deck [] gens g) as [[hole g1] rest1| |] eqn:Hd;
    try discriminate.
  intros H Hnd.
  destruct (draw_hole_cards_new _ _ _ _ _ _ _ Hd Hnd)
    as (new & -> & -> & Hnd' & Hsub & Hlen).
  cbn [app] in *. specialize (Hlen ltac:(simpl; lia)).
  destruct new as [|c0 [|c1 [|]]]; try discriminate Hlen.
  destruct (evaluateHand _ _ _) as [g2|] eqn:He; [|discriminate].
  injection H as <- <-. exists c0, c1.
  assert (Hf := evaluateHand_frame _ _ _ _ He). unfold fixed in Hf.
  injection Hf as Hph Hu _ _ Hgi _.
  assert (Ho := evaluateHand_orderly _ _ _ _ He).
  split; [by rewrite Hu|]. split; [by rewrite Hu|].
  split; [apply Hsub; by left|]. split; [apply Hsub; right; by left|].
  split; [by rewrite Hph|]. split; [by rewrite Hgi|].
  split; [|done].
  eapply orderly_trans; [|exact Ho]. by apply orderly_same.
Qed.

(** [playersHands[iteration] = handObj], for the players in turn. *)
Lemma set_hand_lookup (iteration : nat) (hand : card * card) (g : game) :
  (iteration ≤ length (playersHands g))%nat →
  playersHands (set_hand iteration hand g) !! iteration = Some hand
  ∧ (iteration < length (playersHands (set_hand iteration hand g)))%nat
  ∧ ∀ j, (j < iteration)%nat →
      playersHands (set_hand iteration hand g) !! j = playersHands g !! j.
Proof.
  intros Hlen. unfold set_hand. cbn [playersHands set_playersHands].
  destruct (_ <? _)%nat eqn:Hlt.
  - apply Nat.ltb_lt in Hlt. rewrite length_insert.
    split; [by apply list_lookup_insert_eq|]. split; [done|].
    intros j Hj. apply list_lookup_insert_ne. lia.
  - apply Nat.ltb_ge in Hlt. assert (iteration = length (playersHands g)) as ->
      by lia.
    rewrite length_app. cbn [length].
    split; [by rewrite lookup_app_r, Nat.sub_diag|]. split; [lia|].
    intros j Hj. by rewrite lookup_app_l.
Qed.

(** *** The pot before the showdown *)

Lemma removeActivePlyr_pot plyrID g :
  thePot (removeActivePlyr plyrID g) = thePot g.
Proof. unfold removeActivePlyr. cbv zeta. by destruct (loosely_zero _). Qed.

Lemma fold_checking_pot g : thePot (fold_checking g) = thePot g.
Proof.
  unfold fold_checking. destruct (bool_decide _); [|done].
  apply (foldl_same thePot). intros g0 p.
  etrans; [|apply (removeActivePlyr_pot p g0)]. reflexivity.
Qed.

Lemma betting_part_pot valueArr suitedArr r iteration gameStep last g g' :
  betting_part valueArr suitedArr r iteration gameStep last g = Some g' →
  thePot g' = thePot g.
Proof.
  unfold betting_part. cbv zeta.
  destruct (bool_decide (iteration ∈ activePlayers g)); [|by intros [= <-]].
  match goal with
  | |- (if ?c then Some (fold_checking ?x) else _) = _ → _ =>
      assert (Hx : thePot x = thePot g) by (split_cases; reflexivity);
      destruct c
  end.
  { intros [= <-]. by rewrite fold_checking_pot. }
  clear Hx.
  match goal with
  | |- (if ?c then Some (fold_checking ?x) else _) = _ → _ =>
      assert (Hx : thePot x = thePot g) by (split_cases; reflexivity);
      destruct c
  end.
  { intros [= <-]. by rewrite fold_checking_pot. }
  clear Hx.
  match goal with
  | |- (if ?c then _ else Some ?x) = _ → _ =>
      set (g1 := x);
      assert (H1 : thePot g1 = thePot g)
        by (subst g1; split_cases; reflexivity);
      clearbody g1; destruct c
  end.
  2:{ by intros [= <-]. }
  destruct (decide (topHand g1 = N 0)); cbn [mbind option_bind].
  - intros Hs. by apply showPlayersCards_Some in Hs as ->.
  - unfold youLose. destruct (topHand g1) as [| |z]; try discriminate.
    destruct (_ && _); [|discriminate]. cbn [mbind option_bind].
    intros Hs. by apply showPlayersCards_Some in Hs as ->.
Qed.

(** Before the river [evaluateHand] leaves the pot alone. *)
Lemma evaluateHand_pot iteration gameStep g g' :
  gameStep ≠ 4 →
  evaluateHand iteration gameStep g = Some g' → thePot g' = thePot g.
Proof.
  intros Hstep. unfold evaluateHand.
  destruct (playersHands g !! iteration) as [hand|]; [|discriminate].
  cbn [mbind option_bind]. destruct (existsb _ _); [discriminate|]. cbv zeta.
  destruct (evaluate _ _ _ g) as [g1 r1] eqn:He.
  assert (Hk : thePot g1 = thePot g).
  { assert (H : kept g1 = kept g)
      by (change g1 with (g1, r1).1; rewrite <- He; apply evaluate_kept).
    unfold kept in H. congruence. }
  assert (Hno : (gameStep =? 4) = false) by (by apply Z.eqb_neq).
  rewrite Hno. cbn [andb].
  intros Hb. apply betting_part_pot in Hb. by rewrite Hb.
Qed.

Lemma deal_unfold deck gens betDecision bet2 g :
  let g0 :=
    {| playersHands := playersHands g;
       communityCards := [];
       usedCardsArr := [];
       resultList := [0; 0; 0; 0];
       compareCards := [0; 0; 0; 0];
       activePlayers := [0; 1; 2; 3]%nat;
       playerHighCards := [0; 0; 0; 0];
       playerStraightHighCard := [0; 0; 0; 0];
       plyr1Pair := []; plyr2Pair := []; plyr3Pair := []; plyr4Pair := [];
       bestHoleCards := [];
       topHand := Null;
       thePot := 40;
       playerMoney := playerMoney g - 10;
       status := [ready; ready; ready; ready];
       lastMove := lastMove g;
       matchButton := matchButton g;
       gameIncrement := 1;
       maxBetHit := false;
       dblBets := false;
       notices := notices g |} in
  deal deck deck gens betDecision bet2 g =
    match generatePlayer deck deck 0 gens g0 with
    | Drawn g1 r1 =>
        match generatePlayer deck deck 1 r1 g1 with
        | Drawn g2 r2 =>
            match generatePlayer deck deck 2 r2 g2 with
            | Drawn g3 r3 =>
                match generatePlayer deck deck 3 r3 g3 with
                | Drawn g4 r4 =>
                    let '(g5, maxPlayerBet) := deal_bets betDecision bet2 g4 in
                    Drawn (set_matchButton maxPlayerBet g5) r4
                | Pending => Pending
                | Thrown => Thrown
                end
            | Pending => Pending
            | Thrown => Thrown
            end
        | Pending => Pending
        | Thrown => Thrown
        end
    | Pending => Pending
    | Thrown => Thrown
    end.
Proof.
  intros g0. unfold deal. fold g0.
  destruct (generatePlayer deck deck 0 gens g0) as [g1 r1| |]; [|done..].
  destruct (generatePlayer deck deck 1 r1 g1) as [g2 r2| |]; [|done..].
  destruct (generatePlayer deck deck 2 r2 g2) as [g3 r3| |]; [|done..].
  by destruct (generatePlayer deck deck 3 r3 g3) as [g4 r4| |].
Qed.


Lemma removeActivePlyr_table plyrID g :
  (playersHands (removeActivePlyr plyrID g),
   usedCardsArr (removeActivePlyr plyrID g),
   gameIncrement (removeActivePlyr plyrID g),
   thePot (removeActivePlyr plyrID g))
  = (playersHands g, usedCardsArr g, gameIncrement g, thePot g).
Proof. unfold removeActivePlyr. cbv zeta. by destruct (loosely_zero _). Qed.

Lemma deal_bets_frame betDecision bet2 g :
  playersHands (deal_bets betDecision bet2 g).1 = playersHands g
  ∧ usedCardsArr (deal_bets betDecision bet2 g).1 = usedCardsArr g
  ∧ gameIncrement (deal_bets betDecision bet2 g).1 = gameIncrement g
  ∧ thePot (deal_bets betDecision bet2 g).1 = thePot g
  ∧ ((deal_bets betDecision bet2 g).2 = 10%Q
     ∨ (deal_bets betDecision bet2 g).2 = bet2).
Proof.
  unfold deal_bets.
  match goal with |- context [foldl ?f _ _] => set (step := f) end.
  assert (Hs : ∀ (acc : game * Q) (j : nat),
    (λ acc : game * Q,
       (playersHands acc.1, usedCardsArr acc.1, gameIncrement acc.1,
        thePot acc.1)) (step acc j)
    = (playersHands acc.1, usedCardsArr acc.1, gameIncrement acc.1,
       thePot acc.1)
    ∧ (((10 <= acc.2)%Q ∧ (acc.2 = 10%Q ∨ acc.2 = bet2)) →
       ((10 <= (step acc j).2)%Q
        ∧ ((step acc j).2 = 10%Q ∨ (step acc j).2 = bet2)))).
  { intros [g0 m] j. subst step. cbv beta iota. cbn [fst snd].
    destruct (_ || _).
    { cbn [fst snd]. split; [done|]. intros [Hge Hm].
      destruct (Qgt bet2 m) eqn:Hgt; [|done].
      apply BettingFacts.Qgt_true in Hgt. split; [lra | by right]. }
    destruct (_ || _).
    { cbn [fst snd]. split; [done|]. intros [Hge Hm].
      destruct (Qgt 10 m) eqn:Hgt; [|done].
      apply BettingFacts.Qgt_true in Hgt. lra. }
    cbn [fst snd]. split.
    - etrans; [apply removeActivePlyr_table|]. reflexivity.
    - intros [Hge Hm]. destruct (Qgt 0 m) eqn:Hgt; [|done].
      apply BettingFacts.Qgt_true in Hgt. lra. }
  cbn [foldl].
  generalize (Hs (g, 10%Q) 1%nat). set (a1 := step (g, 10%Q) 1%nat).
  intros [E1 M1].
  generalize (Hs a1 2%nat). set (a2 := step a1 2%nat). intros [E2 M2].
  generalize (Hs a2 3%nat). set (a3 := step a2 3%nat). intros [E3 M3].
  clearbody a1 a2 a3. clear Hs. cbv beta in E1, E2, E3. cbn [fst snd] in *.
  rewrite E2, E1 in E3. injection E3 as -> -> -> ->.
  repeat split. apply M3, M2, M1. split; [lra | by left].
Qed.

(** X22. When [deal] returns it has dealt eight different cards of the
    deck, two to each of the players 0 to 3 in turn: they are the eight
    entries of [usedCardsArr], and the hand of player [i] is the pair of
    the entries [2 i] and [2 i + 1]. *)
Theorem deal_gives_eight_different_cards (deck : list card) (gens : list nat)
    (betDecision : nat → Q) (bet2 : Q) (g g' : game) (rest : list nat) :
  deal deck deck gens betDecision bet2 g = Drawn g' rest →
  ∃ a0 b0 a1 b1 a2 b2 a3 b3,
    usedCardsArr g' = [a0; b0; a1; b1; a2; b2; a3; b3]
    ∧ NoDup (usedCardsArr g')
    ∧ usedCardsArr g' ⊆ deck
    ∧ take 4 (playersHands g') = [(a0, b0); (a1, b1); (a2, b2); (a3, b3)].
Proof.
  rewrite deal_unfold. cbv zeta.
  match goal with
  | |- context [generatePlayer deck deck 0 gens ?x] => set (g0 := x)
  end.
  destruct (generatePlayer deck deck 0 gens g0) as [g1 r1| |] eqn:H1;
    try discriminate.
  destruct (generatePlayer deck deck 1 r1 g1) as [g2 r2| |] eqn:H2;
    try discriminate.
  destruct (generatePlayer deck deck 2 r2 g2) as [g3 r3| |] eqn:H3;
    try discriminate.
  destruct (generatePlayer deck deck 3 r3 g3) as [g4 r4| |] eqn:H4;
    try discriminate.
  destruct (deal_bets betDecision bet2 g4) as [g5 m] eqn:Hb.
  intros [= <- <-].
  destruct (generatePlayer_spec _ _ _ _ _ _ H1 (NoDup_nil_2))
    as (a0 & b0 & U1 & N1 & Ia0 & Ib0 & P1 & _).
  destruct (generatePlayer_spec _ _ _ _ _ _ H2 N1)
    as (a1 & b1 & U2 & N2 & Ia1 & Ib1 & P2 & _).
  destruct (generatePlayer_spec _ _ _ _ _ _ H3 N2)
    as (a2 & b2 & U3 & N3 & Ia2 & Ib2 & P3 & _).
  destruct (generatePlayer_spec _ _ _ _ _ _ H4 N3)
    as (a3 & b3 & U4 & N4 & Ia3 & Ib3 & P4 & _).
  destruct (deal_bets_frame betDecision bet2 g4) as (Fp & Fu & _).
  rewrite Hb in Fp, Fu. cbn [fst] in Fp, Fu.
  exists a0, b0, a1, b1, a2, b2, a3, b3.
  cbn [usedCardsArr playersHands set_matchButton].
  rewrite Fu, Fp.
  assert (HU : usedCardsArr g4 = [a0; b0; a1; b1; a2; b2; a3; b3])
    by (rewrite U4, U3, U2, U1; reflexivity).
  split; [done|]. split; [done|]. split.
  { rewrite HU. intros x Hx. rewrite !elem_of_cons in Hx.
    destruct Hx as [->|[->|[->|[->|[->|[->|[->|[->|Hx]]]]]]]]; try done.
    by apply elem_of_nil in Hx. }
  destruct (set_hand_lookup 0 (a0, b0) g0 ltac:(lia)) as (L0 & Ln0 & _).
  rewrite <- P1 in L0, Ln0.
  destruct (set_hand_lookup 1 (a1, b1) g1 ltac:(lia)) as (L1 & Ln1 & K1).
  rewrite <- P2 in L1, Ln1, K1.
  destruct (set_hand_lookup 2 (a2, b2) g2 ltac:(lia)) as (L2 & Ln2 & K2).
  rewrite <- P3 in L2, Ln2, K2.
  destruct (set_hand_lookup 3 (a3, b3) g3 ltac:(lia)) as (L3 & Ln3 & K3).
  rewrite <- P4 in L3, Ln3, K3.
  assert (E0 : playersHands g4 !! 0%nat = Some (a0, b0))
    by (rewrite K3, K2, K1 by lia; done).
  assert (E1 : playersHands g4 !! 1%nat = Some (a1, b1))
    by (rewrite K3, K2 by lia; done).
  assert (E2 : playersHands g4 !! 2%nat = Some (a2, b2))
    by (rewrite K3 by lia; done).
  clear -E0 E1 E2 L3.
  destruct (playersHands g4) as [|h0 [|h1 [|h2 [|h3 t]]]];
    try discriminate. simpl in *. by simplify_eq.
Qed.

Lemma deal_gives_eight_different_cards_witness :
  ∃ a0 b0 a1 b1 a2 b2 a3 b3,
    usedCardsArr (Table.dealt Table.three_way)
      = [a0; b0; a1; b1; a2; b2; a3; b3]
    ∧ NoDup (usedCardsArr (Table.dealt Table.three_way))
    ∧ usedCardsArr (Table.dealt Table.three_way) ⊆ Table.deck
    ∧ take 4 (playersHands (Table.dealt Table.three_way))
      = [(a0, b0); (a1, b1); (a2, b2); (a3, b3)].
Proof.
  apply (deal_gives_eight_different_cards Table.deck
           (Table.gen_of <$> Table.holes Table.three_way)
           (λ _, Table.random Table.three_way) 50 Table.start
           (Table.dealt Table.three_way) []).
  vm_compute. reflexivity.
Defined.


(** What [deal] leaves, in terms of the globals as it resets them. *)
Lemma deal_outcome deck gens betDecision bet2 g g' rest :
  deal deck deck gens betDecision bet2 g = Drawn g' rest →
  categories g' ∧ seated g'
  ∧ activePlayers g' `sublist_of` [0; 1; 2; 3]%nat
  ∧ thePot g' = 40%Q ∧ gameIncrement g' = 1
  ∧ (matchButton g' = 10%Q ∨ matchButton g' = bet2).
Proof.
  rewrite deal_unfold. cbv zeta.
  match goal with
  | |- context [generatePlayer deck deck 0 gens ?x] => set (g0 := x)
  end.
  destruct (generatePlayer deck deck 0 gens g0) as [g1 r1| |] eqn:H1;
    try discriminate.
  destruct (generatePlayer deck deck 1 r1 g1) as [g2 r2| |] eqn:H2;
    try discriminate.
  destruct (generatePlayer deck deck 2 r2 g2) as [g3 r3| |] eqn:H3;
    try discriminate.
  destruct (generatePlayer deck deck 3 r3 g3) as [g4 r4| |] eqn:H4;
    try discriminate.
  destruct (deal_bets betDecision bet2 g4) as [g5 m] eqn:Hb.
  intros [= <- <-].
  destruct (generatePlayer_spec _ _ _ _ _ _ H1 (NoDup_nil_2))
    as (a0 & b0 & U1 & N1 & _ & _ & _ & G1 & O1 & E1).
  destruct (generatePlayer_spec _ _ _ _ _ _ H2 N1)
    as (a1 & b1 & U2 & N2 & _ & _ & _ & G2 & O2 & E2).
  destruct (generatePlayer_spec _ _ _ _ _ _ H3 N2)
    as (a2 & b2 & U3 & N3 & _ & _ & _ & G3 & O3 & E3).
  destruct (generatePlayer_spec _ _ _ _ _ _ H4 N3)
    as (a3 & b3 & U4 & N4 & _ & _ & _ & G4 & O4 & E4).
  apply evaluateHand_pot in E1, E2, E3, E4; try done.
  cbn [thePot set_hand set_playersHands set_usedCardsArr] in E1, E2, E3, E4.
  destruct (deal_bets_frame betDecision bet2 g4) as (_ & _ & Fg & Fpot & Fm).
  assert (O5 := deal_bets_orderly betDecision bet2 g4).
  rewrite Hb in Fg, Fpot, Fm, O5. cbn [fst snd] in Fg, Fpot, Fm, O5.
  assert (O : orderly g0 g5).
  { eapply orderly_trans; [|exact O5]. eapply orderly_trans; [|exact O4].
    eapply orderly_trans; [|exact O3]. by eapply orderly_trans. }
  destruct O as (Hsub & Hcat & Hseat).
  cbn [activePlayers resultList status thePot gameIncrement matchButton
       set_matchButton].
  split.
  { assert (H : categories (set_matchButton m g5)); [|exact H].
    apply Hcat. split; [done|]. repeat constructor; lia. }
  split.
  { assert (H : seated (set_matchButton m g5)); [|exact H].
    apply Hseat. split; [by left | done]. }
  split; [exact Hsub|].
  split; [by rewrite Fpot, E4, E3, E2, E1|].
  split; [by rewrite Fg, G4, G3, G2, G1 | done].
Qed.

(** X23. The categories stay categories: after [deal], and after every
    [evaluateHand] and [match] that start from four categories,
    [resultList] holds four numbers, each an index of [handHeirarchy]
    (0 to 9) or -1. *)
Theorem categories_are_kept (deck : list card) (gens : list nat)
    (decision : nat → Q) (bet : Q) (iteration : nat) (gameStep : Z)
    (g g' : game) (rest : list nat) :
  (deal deck deck gens decision bet g = Drawn g' rest → categories g')
  ∧ (categories g →
     evaluateHand iteration gameStep g = Some g' → categories g')
  ∧ (categories g →
     match_ deck deck gens decision bet g = Drawn g' rest → categories g').
Proof.
  split; [|split].
  - intros H. by destruct (deal_outcome _ _ _ _ _ _ _ H) as (? & _).
  - intros Hc H. apply evaluateHand_orderly in H as (_ & H & _). auto.
  - intros Hc H. apply match_orderly in H as (_ & H & _). auto.
Qed.

Lemma categories_are_kept_witness :
  categories (Table.flop Table.three_way).
Proof.
  destruct (categories_are_kept Table.deck
              (Table.gen_of <$> take 3 (Table.board Table.three_way))
              (λ _, Table.random Table.three_way) 10 0 1
              (Table.dealt Table.three_way) (Table.flop Table.three_way) [])
    as (_ & _ & H).
  apply H.
  - split; [reflexivity|]. by_compute.
  - vm_compute. reflexivity.
Defined.

(** X24. The program never folds player 0: after [deal] player 0 is among
    the active players and the panel of player 0 does not say "checking",
    and [evaluateHand] and [match] keep both. *)
Theorem player_0_stays_in_the_hand (deck : list card) (gens : list nat)
    (decision : nat → Q) (bet : Q) (iteration : nat) (gameStep : Z)
    (g g' : game) (rest : list nat) :
  (deal deck deck gens decision bet g = Drawn g' rest → seated g')
  ∧ (seated g →
     evaluateHand iteration gameStep g = Some g' → seated g')
  ∧ (seated g →
     match_ deck deck gens decision bet g = Drawn g' rest → seated g').
Proof.
  split; [|split].
  - intros H. by destruct (deal_outcome _ _ _ _ _ _ _ H) as (_ & ? & _).
  - intros Hc H. apply evaluateHand_orderly in H as (_ & _ & H). auto.
  - intros Hc H. apply match_orderly in H as (_ & _ & H). auto.
Qed.

Lemma player_0_stays_in_the_hand_witness :
  seated (Table.flop Table.all_fold).
Proof.
  destruct (player_0_stays_in_the_hand Table.deck
              (Table.gen_of <$> take 3 (Table.board Table.all_fold))
              (λ _, Table.random Table.all_fold) 10 0 1
              (Table.dealt Table.all_fold) (Table.flop Table.all_fold) [])
    as (_ & _ & H).
  apply H.
  - split; [by_compute | vm_compute; discriminate].
  - vm_compute. reflexivity.
Defined.

(** X25. Within a hand the players only ever leave: the active players
    after [evaluateHand] or [match] are a sublist of the active players
    before, in the same order, and after [deal] they are a sublist of
    0, 1, 2, 3. *)
Theorem players_only_leave (deck : list card) (gens : list nat)
    (decision : nat → Q) (bet : Q) (iteration : nat) (gameStep : Z)
    (g g' : game) (rest : list nat) :
  (deal deck deck gens decision bet g = Drawn g' rest →
     activePlayers g' `sublist_of` [0; 1; 2; 3]%nat)
  ∧ (evaluateHand iteration gameStep g = Some g' →
     activePlayers g' `sublist_of` activePlayers g)
  ∧ (match_ deck deck gens decision bet g = Drawn g' rest →
     activePlayers g' `sublist_of` activePlayers g).
Proof.
  split; [|split].
  - intros H. by destruct (deal_outcome _ _ _ _ _ _ _ H) as (_ & _ & ? & _).
  - intros H. by apply evaluateHand_orderly in H as (? & _).
  - intros H. by apply match_orderly in H as (? & _).
Qed.

Lemma players_only_leave_witness :
  activePlayers (Table.flop Table.wheel_against_six)
    `sublist_of` activePlayers (Table.dealt Table.wheel_against_six).
Proof.
  destruct (players_only_leave Table.deck
              (Table.gen_of <$> take 3 (Table.board Table.wheel_against_six))
              (λ _, Table.random Table.wheel_against_six) 10 0 1
              (Table.dealt Table.wheel_against_six)
              (Table.flop Table.wheel_against_six) [])
    as (_ & _ & H).
  apply H. vm_compute. reflexivity.
Defined.

(** X26. The bets of the opponents in [deal] never reach the pot: when
    [deal] returns the pot is 40 and the step counter is 1, whatever the
    opponents have bet, and the "match" button is labelled with 10 or with
    the random bet of the hand. *)
Theorem deal_leaves_the_pot_at_40 (deck : list card) (gens : list nat)
    (betDecision : nat → Q) (bet2 : Q) (g g' : game) (rest : list nat) :
  deal deck deck gens betDecision bet2 g = Drawn g' rest →
  thePot g' = 40%Q
  ∧ gameIncrement g' = 1
  ∧ (matchButton g' = 10%Q ∨ matchButton g' = bet2).
Proof.
  intros H. by destruct (deal_outcome _ _ _ _ _ _ _ H) as (_ & _ & _ & ?).
Qed.

Lemma deal_leaves_the_pot_at_40_witness :
  thePot (Table.dealt Table.three_way) = 40%Q
  ∧ gameIncrement (Table.dealt Table.three_way) = 1
  ∧ (matchButton (Table.dealt Table.three_way) = 10%Q
     ∨ matchButton (Table.dealt Table.three_way) = 50%Q).
Proof.
  apply (deal_leaves_the_pot_at_40 Table.deck
           (Table.gen_of <$> Table.holes Table.three_way)
           (λ _, Table.random Table.three_way) 50 Table.start
           (Table.dealt Table.three_way) []).
  vm_compute. reflexivity.
Defined.


Lemma buildCommunityCards_length deck howMany gens : ∀ g g' rest,
  buildCommunityCards deck deck howMany gens g = Drawn g' rest →
  length (communityCards g')
  = (length (communityCards g) `max` howMany)%nat.
Proof.
  induction gens as [|n gens IH]; intros g g' rest; cbn [buildCommunityCards].
  - destruct (_ <? _)%nat eqn:Hlt; [discriminate|]. intros [= <- _].
    apply Nat.ltb_ge in Hlt. lia.
  - destruct (_ <? _)%nat eqn:Hlt.
    2:{ intros [= <- _]. apply Nat.ltb_ge in Hlt. lia. }
    apply Nat.ltb_lt in Hlt.
    destruct (deck !! n) as [c|]; [|discriminate].
    destruct (bool_decide (c ∈ usedCardsArr g)); [apply IH|].
    intros H. apply IH in H. rewrite H.
    cbn [communityCards set_usedCardsArr set_communityCards].
    rewrite length_app. cbn [length]. lia.
Qed.

(** X27. A fold costs and pays nothing: when [fold] returns it has dealt
    the community cards that were missing to five, each a card of the deck
    that was not used before, and has written nothing else, so the pot,
    the balance and the active players are as before. It throws when
    fewer than four hands are on the table. *)
Theorem fold_completes_the_board (deck : list card) (gens : list nat)
    (g g' : game) (rest : list nat) :
  NoDup (usedCardsArr g) →
  fold deck deck gens g = Drawn g' rest →
  ∃ new,
    g' = set_usedCardsArr (usedCardsArr g ++ new)
           (set_communityCards (communityCards g ++ (Obj <$> new)) g)
    ∧ length new = (5 - length (communityCards g))%nat
    ∧ NoDup (usedCardsArr g ++ new)
    ∧ new ⊆ deck
    ∧ (4 ≤ length (playersHands g))%nat.
Proof.
  intros Hnd. unfold fold.
  destruct (buildCommunityCards deck deck 5 gens g) as [g1 r1| |] eqn:Hb;
    try discriminate.
  destruct (showPlayersCards g1) as [g2|] eqn:Hs; [|discriminate].
  intros [= <- <-].
  apply showPlayersCards_Some in Hs as Hg. subst g2.
  unfold showPlayersCards in Hs.
  destruct (4 <=? length (playersHands g1))%nat eqn:H4; [|discriminate].
  apply Nat.leb_le in H4.
  assert (Hlen := buildCommunityCards_length _ _ _ _ _ _ Hb).
  destruct (buildCommunityCards_new _ _ _ _ _ _ Hb Hnd)
    as (new & -> & Hnd' & Hsub).
  exists new. split; [done|].
  cbn [communityCards playersHands set_usedCardsArr set_communityCards]
    in Hlen, H4.
  rewrite length_app, length_fmap in Hlen.
  split; [lia|]. done.
Qed.

Lemma fold_completes_the_board_witness :
  ∃ new,
    Table.after (fold Table.deck Table.deck
                   (Table.gen_of <$> drop 3 (Table.board Table.three_way))
                   (Table.flop Table.three_way))
    = set_usedCardsArr (usedCardsArr (Table.flop Table.three_way) ++ new)
        (set_communityCards
           (communityCards (Table.flop Table.three_way) ++ (Obj <$> new))
           (Table.flop Table.three_way))
    ∧ length new = 2%nat.
Proof.
  destruct (fold_completes_the_board Table.deck
              (Table.gen_of <$> drop 3 (Table.board Table.three_way))
              (Table.flop Table.three_way)
              (Table.after
                 (fold Table.deck Table.deck
                    (Table.gen_of <$> drop 3 (Table.board Table.three_way))
                    (Table.flop Table.three_way))) [])
    as (new & H & Hlen & _).
  - by_compute.
  - vm_compute. reflexivity.
  - exists new. split; [exact H|]. rewrite Hlen. vm_compute. reflexivity.
Defined.

End DealFacts.

(** ** The pot *)

Module PotFacts.

Import Poker Frame EvaluateFacts BettingFacts FrameFacts InvariantFacts DealFacts.
Local Open Scope Z_scope.

(** *** The pot in [match] *)

Lemma removeActivePlyr_ledger plyrID g :
  (thePot (removeActivePlyr plyrID g), matchButton (removeActivePlyr plyrID g),
   lastMove (removeActivePlyr plyrID g),
   gameIncrement (removeActivePlyr plyrID g))
  = (thePot g, matchButton g, lastMove g, gameIncrement g).
Proof. unfold removeActivePlyr. cbv zeta. by destruct (loosely_zero _). Qed.

Lemma fold_on_raise_ledger g :
  (thePot (fold_on_raise g), matchButton (fold_on_raise g),
   lastMove (fold_on_raise g), gameIncrement (fold_on_raise g))
  = (thePot g, matchButton g, lastMove g, gameIncrement g).
Proof.
  unfold fold_on_raise. cbv zeta. destruct (existsb _ _); [|done].
  apply (foldl_same
           (λ g, (thePot g, matchButton g, lastMove g, gameIncrement g))).
  intros g0 p. destruct (_ && _); [|done].
  etrans; [apply (removeActivePlyr_ledger p)|]. reflexivity.
Qed.

Lemma buildCommunityCards_ledger activeCards cards howMany gens :
  ∀ g g' rest,
    buildCommunityCards activeCards cards howMany gens g = Drawn g' rest →
    (thePot g', matchButton g', lastMove g', gameIncrement g')
    = (thePot g, matchButton g, lastMove g, gameIncrement g).
Proof.
  induction gens as [|n gens IH]; intros g g' rest; cbn [buildCommunityCards].
  - destruct (_ <? _)%nat; [discriminate|]. by intros [= <- _].
  - destruct (_ <? _)%nat; [|by intros [= <- _]].
    destruct (activeCards !! n) as [c|]; [|discriminate].
    destruct (bool_decide _); [apply IH|].
    destruct (cards !! n) as [c'|]; [|discriminate].
    intros H. apply IH in H. etrans; [exact H|]. reflexivity.
Qed.

Lemma match_cards_ledger activeCards cards gens g g' rest :
  match_cards activeCards cards gens g = Drawn g' rest →
  (thePot g', matchButton g', lastMove g')
  = (thePot g, matchButton g, lastMove g)
  ∧ gameIncrement g' = gameIncrement g + 1.
Proof.
  unfold match_cards. cbv zeta.
  set (g0 := set_gameIncrement (gameIncrement g + 1) g).
  assert (H0 := fold_on_raise_ledger g0).
  destruct (_ =? 2); intros H; apply buildCommunityCards_ledger in H;
    cbn [thePot matchButton lastMove gameIncrement set_communityCards] in H;
    rewrite H0 in H; by injection H as -> -> -> ->.
Qed.

Lemma evaluate_active_ledger gameStep rounds : ∀ i evaled g g',
  gameStep ≠ 4 →
  evaluate_active rounds i evaled gameStep g = Some g' →
  (thePot g', matchButton g', lastMove g', gameIncrement g')
  = (thePot g, matchButton g, lastMove g, gameIncrement g).
Proof.
  induction rounds as [|rounds IH]; intros i evaled g g' Hstep; simpl.
  - by intros [= <-].
  - destruct (activePlayers g !! i) as [player|]; [|by intros [= <-]].
    destruct (bool_decide _); [by apply IH|].
    destruct (evaluateHand player gameStep g) as [g1|] eqn:He; [|discriminate].
    cbn [mbind option_bind]. intros H. apply IH in H; [|done].
    rewrite H. apply evaluateHand_pot in He as Hpot; [|done].
    apply evaluateHand_frame in He. unfold fixed in He.
    injection He as _ _ -> -> -> _. by rewrite Hpot.
Qed.

(** One round of the betting loop of [match] before the last step. *)
Lemma match_bets_round (playerDecisionFactor : nat → Q) (g : game) (j : nat) :
  (j < length (lastMove g))%nat →
  let g' :=
    if bool_decide (j ∈ activePlayers g) then
      let playerHandStrength := calculateHandStrength (hand_of g j) in
      if (8 <=? playerHandStrength)
         || ((5 <=? playerHandStrength)
             && Qgt (playerDecisionFactor j) (7 # 10))
      then set_thePot (thePot g + matchButton g)%Q
             (set_lastMove (<[j := bet_move]> (lastMove g))
                (set_panel j betting g))
      else if (4 <=? playerHandStrength)
              || ((2 <=? playerHandStrength)
                  && Qgt (playerDecisionFactor j) (4 # 10))
      then set_lastMove (<[j := check_move]> (lastMove g))
             (set_panel j checking g)
      else removeActivePlyr j
             (set_lastMove (<[j := fold_move]> (lastMove g))
                (set_panel j folded g))
    else g in
  ∃ b : bool,
    thePot g' = (if b then thePot g + matchButton g else thePot g)%Q
    ∧ matchButton g' = matchButton g
    ∧ length (lastMove g') = length (lastMove g)
    ∧ (∀ i, i ≠ j →
         lastMove g' !! i = lastMove g !! i
         ∧ (i ∈ activePlayers g' ↔ i ∈ activePlayers g))
    ∧ (j ∈ activePlayers g' ∧ lastMove g' !! j = Some bet_move ↔ b = true).
Proof.
  intros Hj g'. subst g'.
  destruct (bool_decide (j ∈ activePlayers g)) eqn:Hact.
  2:{ apply bool_decide_eq_false in Hact. exists false.
      repeat split; try done; tauto. }
  apply bool_decide_eq_true in Hact. cbv zeta.
  destruct ((8 <=? _) || _); [|destruct ((4 <=? _) || _)].
  - exists true.
    cbn [thePot matchButton lastMove activePlayers set_thePot set_lastMove
         set_panel set_status].
    rewrite length_insert. repeat split; try done.
    + by rewrite list_lookup_insert_ne.
    + by apply list_lookup_insert_eq.
  - exists false.
    cbn [thePot matchButton lastMove activePlayers set_thePot set_lastMove
         set_panel set_status].
    rewrite length_insert. repeat split; try done.
    + by rewrite list_lookup_insert_ne.
    + intros [_ H]. rewrite list_lookup_insert_eq in H by done. discriminate.
  - exists false.
    match goal with
    | |- context [removeActivePlyr j ?x] =>
        assert (Hl := removeActivePlyr_ledger j x);
        destruct (removeActivePlyr_players j x) as [Ha _];
        generalize dependent (removeActivePlyr j x)
    end.
    cbn [thePot matchButton lastMove activePlayers gameIncrement set_thePot
         set_lastMove set_panel set_status].
    intros g1 [= -> -> -> _] ->.
    rewrite length_insert. repeat split; try done.
    + by rewrite list_lookup_insert_ne.
    + intros Hi. by apply list_elem_of_filter in Hi as [_ Hi].
    + intros Hi. by apply list_elem_of_filter.
    + intros [Hi _]. by apply list_elem_of_filter in Hi as [Hi _].
Qed.

Lemma match_bets_pot (gameStep : Z) (playerDecisionFactor : nat → Q)
    (g : game) :
  gameStep < 4 →
  (4 ≤ length (lastMove g))%nat →
  let g' := match_bets gameStep playerDecisionFactor g in
  let bettors :=
    filter (λ i, i ∈ activePlayers g' ∧ lastMove g' !! i = Some bet_move)
           [1; 2; 3]%nat in
  (thePot g'
   == thePot g + inject_Z (Z.of_nat (length bettors)) * matchButton g)%Q
  ∧ matchButton g' = matchButton g.
Proof.
  intros Hstep Hlen g' bettors. subst bettors g'. unfold match_bets.
  assert (H4 : (4 <=? gameStep) = false) by (apply Z.leb_gt; lia).
  match goal with |- context [foldl ?f g _] => set (step := f) end.
  assert (Hround : ∀ (g0 : game) (j : nat),
    (j < length (lastMove g0))%nat →
    ∃ b : bool,
      thePot (step g0 j)
      = (if b then thePot g0 + matchButton g0 else thePot g0)%Q
      ∧ matchButton (step g0 j) = matchButton g0
      ∧ length (lastMove (step g0 j)) = length (lastMove g0)
      ∧ (∀ i, i ≠ j →
           lastMove (step g0 j) !! i = lastMove g0 !! i
           ∧ (i ∈ activePlayers (step g0 j) ↔ i ∈ activePlayers g0))
      ∧ (j ∈ activePlayers (step g0 j)
         ∧ lastMove (step g0 j) !! j = Some bet_move ↔ b = true)).
  { intros g0 j Hj.
    destruct (match_bets_round playerDecisionFactor g0 j Hj) as (b & H).
    exists b. subst step. cbv beta. rewrite H4. exact H. }
  change (foldl step g [1; 2; 3]%nat)
    with (step (step (step g 1%nat) 2%nat) 3%nat).
  destruct (Hround g 1%nat ltac:(lia)) as (b1 & P1 & M1 & L1 & O1 & B1).
  set (g1 := step g 1%nat) in *.
  destruct (Hround g1 2%nat ltac:(lia)) as (b2 & P2 & M2 & L2 & O2 & B2).
  set (g2 := step g1 2%nat) in *.
  destruct (Hround g2 3%nat ltac:(lia)) as (b3 & P3 & M3 & L3 & O3 & B3).
  set (g3 := step g2 3%nat) in *.
  clearbody g1 g2 g3. clear Hround.
  assert (E1 : 1%nat ∈ activePlayers g3 ∧ lastMove g3 !! 1%nat = Some bet_move
               ↔ b1 = true).
  { rewrite <- B1.
    destruct (O3 1%nat ltac:(lia)) as [-> ->].
    by destruct (O2 1%nat ltac:(lia)) as [-> ->]. }
  assert (E2 : 2%nat ∈ activePlayers g3 ∧ lastMove g3 !! 2%nat = Some bet_move
               ↔ b2 = true).
  { rewrite <- B2. by destruct (O3 2%nat ltac:(lia)) as [-> ->]. }
  split; [|congruence].
  destruct b1, b2, b3; rewrite P3, P2, P1, ?M2, ?M1;
    repeat first
      [ rewrite filter_cons_True by tauto
      | rewrite filter_cons_False by (intros ?; intuition discriminate) ];
    rewrite filter_nil; cbn [length]; ring.
Qed.

(** X28. Before the last step, [match] adds to the pot the bet of player
    0 and, for every opponent whose panel shows a bet after the call, the
    amount that the "match" button showed before it; nothing else reaches
    or leaves the pot, and the label of the button is not changed. *)
Theorem match_pot_accounting (deck : list card) (gens : list nat)
    (playerDecisionFactor : nat → Q) (playerBet : Q) (g g' : game)
    (rest : list nat) :
  gameIncrement g + 1 < 4 →
  (4 ≤ length (lastMove g))%nat →
  match_ deck deck gens playerDecisionFactor playerBet g = Drawn g' rest →
  let bettors :=
    filter (λ i, i ∈ activePlayers g' ∧ lastMove g' !! i = Some bet_move)
           [1; 2; 3]%nat in
  (thePot g'
   == thePot g + playerBet
      + inject_Z (Z.of_nat (length bettors)) * matchButton g)%Q
  ∧ matchButton g' = matchButton g.
Proof.
  intros Hstep Hlen. unfold match_.
  destruct (match_cards _ _ _ _) as [g1 rest1| |] eqn:Hc; try discriminate.
  destruct (match_play _ _ _) as [g2|] eqn:Hp; [|discriminate].
  intros [= <- <-].
  apply match_cards_ledger in Hc as [[= P1 M1 L1] G1].
  unfold match_play in Hp. cbv zeta in Hp.
  destruct (evaluate_active _ _ _ _ _) as [g3|] eqn:He; [|discriminate].
  cbn [mbind option_bind] in Hp. injection Hp as <-.
  apply evaluate_active_ledger in He as [= P3 M3 L3 G3]; [|lia].
  destruct (match_bets_pot (gameIncrement g1) playerDecisionFactor g3)
    as [P M]; [lia | by rewrite L3, L1 |].
  cbn [thePot matchButton lastMove activePlayers set_thePot set_playerMoney].
  split; [|congruence].
  rewrite P, M3, M1, P3, P1. ring.
Qed.

Lemma match_pot_accounting_witness :
  (thePot (Table.flop Table.three_way)
   == thePot (Table.dealt Table.three_way) + 10
      + inject_Z
          (Z.of_nat
             (length
                (filter
                   (λ i, i ∈ activePlayers (Table.flop Table.three_way)
                         ∧ lastMove (Table.flop Table.three_way) !! i
                           = Some bet_move)
                   [1; 2; 3]%nat)))
        * matchButton (Table.dealt Table.three_way))%Q
  ∧ matchButton (Table.flop Table.three_way)
    = matchButton (Table.dealt Table.three_way).
Proof.
  apply (match_pot_accounting Table.deck
           (Table.gen_of <$> take 3 (Table.board Table.three_way))
           (λ _, Table.random Table.three_way) 10
           (Table.dealt Table.three_way) (Table.flop Table.three_way) []).
  - vm_compute. reflexivity.
  - vm_compute. lia.
  - vm_compute. reflexivity.
Defined.

End PotFacts.
